(** * proxy-handler-decorators: class decorators for proxy handlers

    A shallow embedding of [src/index.ts].  The library is a handful of class
    decorators ([TargetAsThis], [DefaultToPrimitive], [DefaultToStringTag],
    [AllowGetTarget], [Mapped]) and the accessor [getTarget].  To state what
    they do we need the part of the host they talk to: objects with a
    prototype and data properties, function objects, proxies and their
    handlers, classes with inherited methods, and calls that may throw.

    - Objects live in a heap and are named by their location, so reference
      equality is equality of locations.
    - A handler class is an entry of a class table: its superclass and its own
      methods.  Decorators that write [class extends superClass] add an entry;
      [Mapped] redefines the methods of an existing entry in place.
    - Code that can be stored in a function object or a method slot is a
      first-order datatype ([Code]); closures carry the variables they capture.
    - Evaluation is a state-and-exception monad indexed by fuel, because
      property reads through proxies re-enter handler code.

    Properties are data properties, ordinary objects stay extensible, a
    handler is an instance of a handler class, and property reads on
    primitive values are left out: an evaluation that needs anything else
    ends in [Unsupported] rather than in a made-up answer. *)

From Stdlib Require Import ZArith.
From stdpp Require Import base option list strings gmap.

Open Scope string_scope.
Open Scope list_scope.
Open Scope nat_scope.

(** ** Values and property keys *)

Abbreviation Loc := nat.
Abbreviation ClassRef := nat.

Inductive Value : Type :=
| VUndefined
| VNull
| VBool (b : bool)
| VNumber (z : Z)
| VNaN
| VString (s : string)
| VSymbol (n : nat)
| VRef (l : Loc).

Inductive Key : Type :=
| KString (s : string)
| KSymbol (n : nat).

#[global] Instance Value_eq_dec : EqDecision Value.
Proof. solve_decision. Defined.
#[global] Instance Key_eq_dec : EqDecision Key.
Proof. solve_decision. Defined.

(** The two well-known symbols the decorators switch on, and the module's own
    [const getTargetSymbol = Symbol()], a symbol different from both. *)
Definition Symbol_toPrimitive : nat := 0.
Definition Symbol_toStringTag : nat := 1.
Definition getTargetSymbol : nat := 2.

(** [a === b].  [NaN] is not equal to itself; everything else is compared by
    type and value, objects by location. *)
Definition strict_equals (a b : Value) : bool :=
  match a, b with
  | VNaN, _ => false
  | _, VNaN => false
  | _, _ => bool_decide (a = b)
  end.

(** SameValue, used by the proxy invariant on frozen properties. *)
Definition same_value (a b : Value) : bool := bool_decide (a = b).

Definition is_nullish (v : Value) : bool :=
  match v with VUndefined | VNull => true | _ => false end.

(** A property key seen as the value handed to a trap. *)
Definition key_value (k : Key) : Value :=
  match k with KString s => VString s | KSymbol n => VSymbol n end.

(** The handlers are typed [p: string | symbol]; other values are outside the
    typed domain. *)
Definition to_key (p : Value) : option Key :=
  match p with
  | VString s => Some (KString s)
  | VSymbol n => Some (KSymbol n)
  | _ => None
  end.

(** The [i]-th actual argument; a missing argument reads as [undefined]. *)
Definition arg (i : nat) (args : list Value) : Value := nth i args VUndefined.

(** ** Code *)

(** Function bodies.  The four [get] methods remember the class they were
    defined in (their home object), which is where [super] starts looking.
    The three closures remember their captured variables. *)
Inductive Code : Type :=
| CNative (id : nat)
| CReflect_get
| CTargetAsThis_get (home : ClassRef)
| CDefaultToPrimitive_get (home : ClassRef)
| CDefaultToStringTag_get (home : ClassRef)
| CAllowGetTarget_get (home : ClassRef)
| CwrappedFunction (property receiver target : Value)
| CtoPrimitive (target : Value)
| CMapped (mapper : Value) (originalValue : Code).

#[global] Instance Code_eq_dec : EqDecision Code.
Proof. solve_decision. Defined.

(** ** Heap objects *)

Record PropertyDescriptor : Type := {
  value : Value;
  writable : bool;
  enumerable : bool;
  configurable : bool
}.

#[global] Instance PropertyDescriptor_eq_dec : EqDecision PropertyDescriptor.
Proof. solve_decision. Defined.

Abbreviation Props := (list (Key * PropertyDescriptor)).

(** An ordinary object (a function object when it has code to call), a
    proxy ([callable] records whether its target was callable when the proxy
    was made), or an instance of a handler class. *)
Inductive Obj : Type :=
| OObject (proto : Value) (props : Props) (call : option Code)
| OProxy (target handler : Value) (callable : bool)
| OHandler (cls : ClassRef).

#[global] Instance Obj_eq_dec : EqDecision Obj.
Proof. solve_decision. Defined.

Abbreviation Heap := (list Obj).

Fixpoint own (k : Key) (ps : Props) : option PropertyDescriptor :=
  match ps with
  | [] => None
  | (k', d) :: ps' => if decide (k = k') then Some d else own k ps'
  end.

(** [Object.defineProperty] on an object that is still extensible and whose
    property, if present, is configurable: given fields replace the current
    ones, the others are kept (or default to [false] for a new property). *)
Fixpoint define (k : Key) (v : Value) (w : option bool) (ps : Props) : Props :=
  match ps with
  | [] =>
      [(k, {| value := v; writable := default false w;
              enumerable := false; configurable := false |})]
  | (k', d) :: ps' =>
      if decide (k = k')
      then (k', {| value := v; writable := default (writable d) w;
                   enumerable := enumerable d;
                   configurable := configurable d |}) :: ps'
      else (k', d) :: define k v w ps'
  end.

(** [typeof v === 'function'] *)
Definition is_callable (h : Heap) (v : Value) : bool :=
  match v with
  | VRef l =>
      match h !! l with
      | Some (OObject _ _ (Some _)) => true
      | Some (OProxy _ _ c) => c
      | _ => false
      end
  | _ => false
  end.

Definition is_object (h : Heap) (v : Value) : bool :=
  match v with
  | VRef l => bool_decide (is_Some (h !! l))
  | _ => false
  end.

(** ** Handler classes *)

Record Class : Type := {
  parent : option ClassRef;
  methods : gmap string Code
}.

(** The class table, most recent class first.  The reference of a class is the
    number of classes that existed when it was defined, so a class can only
    extend an older one and lookups recurse on the older part of the table. *)
Abbreviation ClassTable := (list Class).

Fixpoint lookup_method (cs : ClassTable) (c : ClassRef) (name : string)
  : option Code :=
  match cs with
  | [] => None
  | cl :: older =>
      if decide (c = length older) then
        match methods cl !! name with
        | Some m => Some m
        | None =>
            match parent cl with
            | Some p => lookup_method older p name
            | None => None
            end
        end
      else lookup_method older c name
  end.

(** [super.name] inside a method whose home is [home]: the lookup starts at
    the superclass. *)
Fixpoint super_lookup (cs : ClassTable) (home : ClassRef) (name : string)
  : option Code :=
  match cs with
  | [] => None
  | cl :: older =>
      if decide (home = length older) then
        match parent cl with
        | Some p => lookup_method older p name
        | None => None
        end
      else super_lookup older home name
  end.

(** Every method visible from [c], own ones shadowing inherited ones. *)
Fixpoint all_methods (cs : ClassTable) (c : ClassRef) : gmap string Code :=
  match cs with
  | [] => ∅
  | cl :: older =>
      if decide (c = length older) then
        methods cl ∪
          match parent cl with
          | Some p => all_methods older p
          | None => ∅
          end
      else all_methods older c
  end.

Fixpoint update_methods (cs : ClassTable) (c : ClassRef)
    (f : gmap string Code → gmap string Code) : ClassTable :=
  match cs with
  | [] => []
  | cl :: older =>
      if decide (c = length older)
      then {| parent := parent cl; methods := f (methods cl) |} :: older
      else cl :: update_methods older c f
  end.

(** ** Machine state and the evaluation monad *)

Inductive Exn : Type :=
| TypeError
| Thrown (v : Value).

(** How an evaluation ends: with a value, with an exception, outside the
    modelled fragment, or short of fuel. *)
Inductive Completion (A : Type) : Type :=
| Normal (a : A)
| Throw (e : Exn)
| Unsupported
| OutOfFuel.
Arguments Normal {A} a.
Arguments Throw {A} e.
Arguments Unsupported {A}.
Arguments OutOfFuel {A}.

(** One entry per call of a native function: which one, [this], arguments. *)
Record Event : Type := { ev_native : nat; ev_this : Value; ev_args : list Value }.

(** The heap, the class table, the trace of native calls, and what the
    global [Reflect] object owns besides its standard functions: [Mapped]
    asks [Reflect] itself which names are operations, and a program may have
    given it more properties by then (the package [reflect-metadata], for
    one, adds [getMetadata], [decorate], ...). *)
Record State : Type := {
  heap : Heap;
  classes : ClassTable;
  trace : list Event;
  Reflect_added : list Key
}.

Definition M (A : Type) : Type := State → Completion A * State.

Definition ret {A} (a : A) : M A := λ s, (Normal a, s).
Definition throw {A} (e : Exn) : M A := λ s, (Throw e, s).
Definition unsupported {A} : M A := λ s, (Unsupported, s).
Definition out_of_fuel {A} : M A := λ s, (OutOfFuel, s).

Definition bind {A B} (m : M A) (k : A → M B) : M B :=
  λ s,
    match m s with
    | (Normal a, s') => k a s'
    | (Throw e, s') => (Throw e, s')
    | (Unsupported, s') => (Unsupported, s')
    | (OutOfFuel, s') => (OutOfFuel, s')
    end.

Notation "'let*' x := m 'in' k" := (bind m (λ x, k))
  (at level 10, x name, m at level 100, k at level 200, only parsing).

Definition gets {A} (f : State → A) : M A := λ s, (Normal (f s), s).

Definition set_heap (h : Heap) (s : State) : State :=
  {| heap := h; classes := classes s; trace := trace s;
     Reflect_added := Reflect_added s |}.
Definition set_classes (cs : ClassTable) (s : State) : State :=
  {| heap := heap s; classes := cs; trace := trace s;
     Reflect_added := Reflect_added s |}.

(** Allocation appends to the heap and returns the new location. *)
Definition alloc (o : Obj) : M Value :=
  λ s, (Normal (VRef (length (heap s))), set_heap (heap s ++ [o]) s).

Definition get_object (l : Loc) : M (option Obj) := gets (λ s, heap s !! l).

(** ** The host *)

(** Code the library does not define: functions written by the user of the
    library (a [mapper], the methods of the root handler class, methods of a
    target) and the host's [String] and [Number] conversions.  A native
    function sees [this], its arguments and the heap; it returns or throws and
    may allocate objects. *)
Inductive NativeOutcome : Type :=
| NReturn (v : Value)
| NThrow (e : Exn).

Definition NativeFn := Value → list Value → Heap → NativeOutcome * list Obj.

Record Host : Type := {
  native : nat → NativeFn;
  host_String : NativeFn;
  host_Number : NativeFn;
  Function_prototype : Value;
  Object_prototype : Value
}.

Definition call_native (f : NativeFn) (this : Value) (args : list Value)
  : M Value :=
  λ s,
    let r := f this args (heap s) in
    let s' := set_heap (heap s ++ r.2) s in
    match r.1 with
    | NReturn v => (Normal v, s')
    | NThrow e => (Throw e, s')
    end.

Definition log (ev : Event) : M unit :=
  λ s, (Normal tt,
        {| heap := heap s; classes := classes s; trace := ev :: trace s;
           Reflect_added := Reflect_added s |}).

Definition data (v : Value) (w e c : bool) : PropertyDescriptor :=
  {| value := v; writable := w; enumerable := e; configurable := c |}.

(** ** Object operations and the library's function bodies *)

(** The operations that can re-enter each other, at one level of fuel. *)
Record Interp : Type := {
  i_Get : Value → Key → Value → M Value;
  i_GetOwnProperty : Value → Key → M (option PropertyDescriptor);
  i_GetPrototypeOf : Value → M Value;
  i_Call : Value → Value → list Value → M Value;
  i_run : Code → Value → list Value → M Value
}.

Section Semantics.

Variable host : Host.
Variable rec : Interp.

(** GetMethod(handler, name) for a handler that is an instance of a class
    of the table. *)
Definition get_trap (handler : Value) (name : string) : M (option Code) :=
  match handler with
  | VRef l =>
      let* o := get_object l in
      match o with
      | Some (OHandler c) => gets (λ s, lookup_method (classes s) c name)
      | _ => unsupported
      end
  | _ => unsupported
  end.

(** O.[[Get]](P, Receiver) *)
Definition Get (O : Value) (P : Key) (Receiver : Value) : M Value :=
  match O with
  | VRef l =>
      let* o := get_object l in
      match o with
      | Some (OObject proto props _) =>
          match own P props with
          | Some d => ret (value d)
          | None =>
              match proto with
              | VRef _ => i_Get rec proto P Receiver
              | _ => ret VUndefined
              end
          end
      | Some (OProxy target handler _) =>
          let* trap := get_trap handler "get" in
          match trap with
          | None => i_Get rec target P Receiver
          | Some code =>
              let* trapResult :=
                i_run rec code handler [target; key_value P; Receiver] in
              let* targetDesc := i_GetOwnProperty rec target P in
              match targetDesc with
              | Some d =>
                  if negb (configurable d) && negb (writable d)
                     && negb (same_value trapResult (value d))
                  then throw TypeError
                  else ret trapResult
              | None => ret trapResult
              end
          end
      | _ => unsupported
      end
  | _ => unsupported
  end.

(** O.[[GetOwnProperty]](P) *)
Definition GetOwnProperty (O : Value) (P : Key)
  : M (option PropertyDescriptor) :=
  match O with
  | VRef l =>
      let* o := get_object l in
      match o with
      | Some (OObject _ props _) => ret (own P props)
      | Some (OProxy target handler _) =>
          let* trap := get_trap handler "getOwnPropertyDescriptor" in
          match trap with
          | None => i_GetOwnProperty rec target P
          | Some _ => unsupported
          end
      | Some (OHandler _) => ret None
      | None => unsupported
      end
  | _ => unsupported
  end.

(** O.[[GetPrototypeOf]]() *)
Definition GetPrototypeOf (O : Value) : M Value :=
  match O with
  | VRef l =>
      let* o := get_object l in
      match o with
      | Some (OObject proto _ _) => ret proto
      | Some (OProxy target handler _) =>
          let* trap := get_trap handler "getPrototypeOf" in
          match trap with
          | None => i_GetPrototypeOf rec target
          | Some code =>
              let* handlerProto := i_run rec code handler [target] in
              match handlerProto with
              | VNull | VRef _ =>
                  (* IsExtensible(target): ordinary objects of this model
                     are always extensible *)
                  match target with
                  | VRef tl =>
                      let* to := get_object tl in
                      match to with
                      | Some (OObject _ _ _) => ret handlerProto
                      | _ => unsupported
                      end
                  | _ => unsupported
                  end
              | _ => throw TypeError
              end
          end
      | _ => unsupported
      end
  | _ => unsupported
  end.

(** Call(F, V, args) *)
Definition Call (F this : Value) (args : list Value) : M Value :=
  match F with
  | VRef l =>
      let* o := get_object l in
      match o with
      | Some (OObject _ _ (Some code)) => i_run rec code this args
      | Some (OProxy target handler true) =>
          let* trap := get_trap handler "apply" in
          match trap with
          | None => i_Call rec target this args
          | Some _ => unsupported
          end
      | Some _ => throw TypeError
      | None => unsupported
      end
  | _ => throw TypeError
  end.

(** [V[P]] and [V.P] *)
Definition GetV (V : Value) (P : Key) : M Value :=
  match V with
  | VUndefined | VNull => throw TypeError
  | VRef _ => i_Get rec V P V
  | _ => unsupported
  end.

(** [Reflect.get(target, propertyKey, receiver)] *)
Definition Reflect_get (args : list Value) : M Value :=
  let target := arg 0 args in
  let* obj := gets (λ s, is_object (heap s) target) in
  if obj : bool then
    match to_key (arg 1 args) with
    | Some key =>
        i_Get rec target key
          (if decide (length args < 3) then target else arg 2 args)
    | None => unsupported
    end
  else throw TypeError.

(** [Object.getPrototypeOf(O)] *)
Definition Object_getPrototypeOf (O : Value) : M Value :=
  match O with
  | VUndefined | VNull => throw TypeError
  | VRef _ => i_GetPrototypeOf rec O
  | _ => unsupported
  end.

(** [Object.defineProperty(O, P, { value: v, writable: w })] on an ordinary
    object. *)
Definition Object_defineProperty (O : Value) (P : Key) (v : Value)
    (w : option bool) : M unit :=
  match O with
  | VRef l =>
      let* o := get_object l in
      match o with
      | Some (OObject proto props call) =>
          let allowed :=
            match own P props with
            | None => true
            | Some d =>
                configurable d || writable d
                || (negb (bool_decide (w = Some true))
                    && same_value v (value d))
            end in
          if allowed then
            λ s, (Normal tt,
                  set_heap (<[l := OObject proto (define P v w props) call]>
                              (heap s)) s)
          else throw TypeError
      | Some _ => unsupported
      | None => unsupported
      end
  | _ => throw TypeError
  end.

(** A [function (...) { ... }] expression: a function object with its
    [length], [name] and a fresh [prototype] object. *)
Definition new_function (code : Code) (name : string) (len : Z) : M Value :=
  λ s,
    let f := length (heap s) in
    let F :=
      OObject (Function_prototype host)
        [(KString "length", data (VNumber len) false false true);
         (KString "name", data (VString name) false false true);
         (KString "prototype", data (VRef (S f)) true false false)]
        (Some code) in
    let P :=
      OObject (Object_prototype host)
        [(KString "constructor", data (VRef f) true false true)] None in
    (Normal (VRef f), set_heap (heap s ++ [F; P]) s).

(** An arrow function: no [prototype] property. *)
Definition new_arrow (code : Code) (name : string) (len : Z) : M Value :=
  alloc (OObject (Function_prototype host)
           [(KString "length", data (VNumber len) false false true);
            (KString "name", data (VString name) false false true)]
           (Some code)).

Definition typeof_function (v : Value) : M bool :=
  gets (λ s, is_callable (heap s) v).

(** [(super.get ?? Reflect.get)(target, p, receiver)]: the function is
    taken off its object, so it runs with [this] undefined. *)
Definition super_get_or_Reflect_get (home : ClassRef) (args : list Value)
  : M Value :=
  let* super_get := gets (λ s, super_lookup (classes s) home "get") in
  match super_get with
  | Some m => i_run rec m VUndefined args
  | None => i_run rec CReflect_get VUndefined args
  end.

(** [TargetAsThis]'s [get(target, p, receiver)] *)
Definition TargetAsThis_get (home : ClassRef) (args : list Value) : M Value :=
  let target := arg 0 args in
  let p := arg 1 args in
  let receiver := arg 2 args in
  let* property := super_get_or_Reflect_get home [target; p; receiver] in
  let* fn := typeof_function property in
  if fn : bool then
    let* wrappedFunction :=
      new_function (CwrappedFunction property receiver target)
        "wrappedFunction" 0 in
    let* name := GetV property (KString "name") in
    let* _ :=
      Object_defineProperty wrappedFunction (KString "name") name
        (Some false) in
    ret wrappedFunction
  else ret property.

(** The body of [wrappedFunction]:
    [Reflect.apply(property, this === receiver ? target : this, argArray)] *)
Definition wrappedFunction (property receiver target : Value)
    (this : Value) (argArray : list Value) : M Value :=
  i_Call rec property
    (if strict_equals this receiver then target else this) argArray.

(** [DefaultToPrimitive]'s [get(target, p, receiver)] *)
Definition DefaultToPrimitive_get (home : ClassRef) (args : list Value)
  : M Value :=
  let target := arg 0 args in
  let p := arg 1 args in
  let receiver := arg 2 args in
  let* property := super_get_or_Reflect_get home [target; p; receiver] in
  if strict_equals property VUndefined then
    if strict_equals p (VSymbol Symbol_toPrimitive)
    then new_arrow (CtoPrimitive target) "" 1
    else ret property
  else ret property.

(** The body of the hook [(hint) => { switch (hint) ... }] *)
Definition toPrimitive (target : Value) (args : list Value) : M Value :=
  let hint := arg 0 args in
  if strict_equals hint (VString "string")
  then call_native (host_String host) VUndefined [target]
  else if strict_equals hint (VString "number")
  then call_native (host_Number host) VUndefined [target]
  else if strict_equals hint (VString "default")
  then let* valueOf := GetV target (KString "valueOf") in
       i_Call rec valueOf target []
  else ret VUndefined.

(** [DefaultToStringTag]'s [get(target, p, receiver)] *)
Definition DefaultToStringTag_get (home : ClassRef) (args : list Value)
  : M Value :=
  let target := arg 0 args in
  let p := arg 1 args in
  let receiver := arg 2 args in
  let* property := super_get_or_Reflect_get home [target; p; receiver] in
  if strict_equals property VUndefined then
    if strict_equals p (VSymbol Symbol_toStringTag) then
      let* prototype := Object_getPrototypeOf target in
      let* constructor :=
        (if is_nullish prototype then ret VUndefined
         else GetV prototype (KString "constructor")) in
      let* fn := typeof_function constructor in
      if fn : bool then GetV constructor (KString "name")
      else ret VUndefined
    else ret property
  else ret property.

(** [AllowGetTarget]'s [get(target, p, receiver)] *)
Definition AllowGetTarget_get (home : ClassRef) (args : list Value)
  : M Value :=
  let target := arg 0 args in
  let p := arg 1 args in
  let receiver := arg 2 args in
  if strict_equals p (VSymbol getTargetSymbol)
  then ret target
  else super_get_or_Reflect_get home [target; p; receiver].

(** The function [Mapped] puts in a descriptor:
    [(target, ...restAugments) => originalValue(mapper(target), ...restAugments)] *)
Definition Mapped_value (mapper : Value) (originalValue : Code)
    (args : list Value) : M Value :=
  let target := arg 0 args in
  let restAugments := tail args in
  let* mapped := i_Call rec mapper VUndefined [target] in
  i_run rec originalValue VUndefined (mapped :: restAugments).

Definition run (code : Code) (this : Value) (args : list Value) : M Value :=
  match code with
  | CNative id =>
      let* _ := log {| ev_native := id; ev_this := this; ev_args := args |} in
      call_native (native host id) this args
  | CReflect_get => Reflect_get args
  | CTargetAsThis_get home => TargetAsThis_get home args
  | CDefaultToPrimitive_get home => DefaultToPrimitive_get home args
  | CDefaultToStringTag_get home => DefaultToStringTag_get home args
  | CAllowGetTarget_get home => AllowGetTarget_get home args
  | CwrappedFunction property receiver target =>
      wrappedFunction property receiver target this args
  | CtoPrimitive target => toPrimitive target args
  | CMapped mapper originalValue => Mapped_value mapper originalValue args
  end.

Definition step : Interp :=
  {| i_Get := Get;
     i_GetOwnProperty := GetOwnProperty;
     i_GetPrototypeOf := GetPrototypeOf;
     i_Call := Call;
     i_run := run |}.

End Semantics.

Definition bottom : Interp :=
  {| i_Get := λ _ _ _, out_of_fuel;
     i_GetOwnProperty := λ _ _, out_of_fuel;
     i_GetPrototypeOf := λ _, out_of_fuel;
     i_Call := λ _ _ _, out_of_fuel;
     i_run := λ _ _ _, out_of_fuel |}.

Fixpoint interp (host : Host) (fuel : nat) : Interp :=
  match fuel with
  | 0 => bottom
  | S n => step host (interp host n)
  end.

(** ** The decorators *)

(** [class extends superClass { ... }]: a new class whose methods know the new
    class as their home. *)
Definition class_extends (superClass : ClassRef)
    (body : ClassRef → gmap string Code) : M ClassRef :=
  λ s,
    let home := length (classes s) in
    (Normal home,
     set_classes ({| parent := Some superClass; methods := body home |}
                    :: classes s) s).

Definition TargetAsThis (superClass : ClassRef) : M ClassRef :=
  class_extends superClass (λ home, {[ "get" := CTargetAsThis_get home ]}).

Definition DefaultToPrimitive (superClass : ClassRef) : M ClassRef :=
  class_extends superClass
    (λ home, {[ "get" := CDefaultToPrimitive_get home ]}).

Definition DefaultToStringTag (superClass : ClassRef) : M ClassRef :=
  class_extends superClass
    (λ home, {[ "get" := CDefaultToStringTag_get home ]}).

Definition AllowGetTarget (superClass : ClassRef) : M ClassRef :=
  class_extends superClass (λ home, {[ "get" := CAllowGetTarget_get home ]}).

(** The own property keys [Reflect] has by the language: one function per
    operation a proxy handler can intercept, and [Symbol.toStringTag]. *)
Definition Reflect_standardKeys : list Key :=
  [ KString "apply"; KString "construct"; KString "defineProperty";
    KString "deleteProperty"; KString "get";
    KString "getOwnPropertyDescriptor"; KString "getPrototypeOf";
    KString "has"; KString "isExtensible"; KString "ownKeys";
    KString "preventExtensions"; KString "set"; KString "setPrototypeOf";
    KSymbol Symbol_toStringTag ].

(** The own property keys of the [Reflect] object as it is in the state [s]:
    the standard ones and those it has acquired. *)
Definition Reflect_ownKeys (s : State) : list Key :=
  Reflect_standardKeys ++ Reflect_added s.

(** [Object.prototype.hasOwnProperty.call(Reflect, propertyKey)], given the
    own property keys of [Reflect]. *)
Definition Reflect_hasOwnProperty (Reflect : list Key) (propertyKey : string)
  : bool :=
  bool_decide (KString propertyKey ∈ Reflect).

(** Modelled from the spec: [DecorateAll] of the package [decorate-all], which
    [Mapped] imports and whose source is not in this repository.  Called with
    [{ deep: true }] it collects the methods found on the class and on the
    classes it extends (the nearest definition of a name wins, [constructor]
    is skipped), hands each to the method decorator, and defines the result
    on the prototype of the class it was applied to.  It returns nothing: the
    class is modified in place. *)
Definition DecorateAll (decorator : string → Code → Code) (target : ClassRef)
  : M unit :=
  λ s,
    let descriptors := all_methods (classes s) target in
    let decorated :=
      map_imap
        (λ propName v,
           if decide (propName = "constructor") then None
           else Some (decorator propName v))
        descriptors in
    (Normal tt,
     set_classes (update_methods (classes s) target (λ own, decorated ∪ own))
       s).

(** The method decorator [Mapped] passes to [DecorateAll]: what it leaves in
    [descriptor.value].  [Reflect] stands for the own property keys of the
    global [Reflect] object when the decorator runs. *)
Definition Mapped_decorator (Reflect : list Key) (mapper : Value)
    (propertyKey : string) (descriptor_value : Code) : Code :=
  if Reflect_hasOwnProperty Reflect propertyKey
  then CMapped mapper descriptor_value
  else descriptor_value.

Definition Mapped (mapper : Value) (proxyHandlerConstructor : ClassRef)
  : M unit :=
  λ s,
    DecorateAll (Mapped_decorator (Reflect_ownKeys s) mapper)
      proxyHandlerConstructor s.

(** ** Stacks of decorators, handlers and proxies *)

Inductive Layer : Type :=
| LTargetAsThis
| LDefaultToPrimitive
| LDefaultToStringTag
| LAllowGetTarget
| LMapped (mapper : Value).

#[global] Instance Layer_eq_dec : EqDecision Layer.
Proof. solve_decision. Defined.

(** A class decorator that returns nothing leaves the class binding as it
    is, so [@Mapped(mapper)] yields the class it was given. *)
Definition decorate (l : Layer) (c : ClassRef) : M ClassRef :=
  match l with
  | LTargetAsThis => TargetAsThis c
  | LDefaultToPrimitive => DefaultToPrimitive c
  | LDefaultToStringTag => DefaultToStringTag c
  | LAllowGetTarget => AllowGetTarget c
  | LMapped mapper => let* _ := Mapped mapper c in ret c
  end.

(** [@l1 @l2 ... @ln class C]: the decorator written last is applied first,
    the one written first ends up outermost. *)
Fixpoint decorated (ls : list Layer) (c : ClassRef) : M ClassRef :=
  match ls with
  | [] => ret c
  | l :: ls' => let* c' := decorated ls' c in decorate l c'
  end.

(** [new C()] for a handler class: the instance has no state of its own. *)
Definition new_handler (c : ClassRef) : M Value := alloc (OHandler c).

(** [new Proxy(target, handler)] *)
Definition new_Proxy (target handler : Value) : M Value :=
  let* ok := gets (λ s, is_object (heap s) target
                        && is_object (heap s) handler) in
  if ok : bool then
    let* c := typeof_function target in
    alloc (OProxy target handler c)
  else throw TypeError.

(** [new Proxy(target, new (@ls class extends root {})())] *)
Definition proxy_over (ls : list Layer) (root : ClassRef) (target : Value)
  : M Value :=
  let* cls := decorated ls root in
  let* handler := new_handler cls in
  new_Proxy target handler.

(** ** [getTarget] *)

(** [maybeProxy[getTargetSymbol]] *)
Definition getTarget (host : Host) (fuel : nat) (maybeProxy : Value)
  : M Value :=
  GetV (interp host fuel) maybeProxy (KSymbol getTargetSymbol).

(** * Notions the statements are written in *)

(** ** States related by running code *)

(** [frame b s s']: the class table is the same, the heap did not shrink, and
    the objects at locations below [b] are unchanged. *)
Definition frame (b : nat) (s s' : State) : Prop :=
  classes s' = classes s
  ∧ length (heap s) ≤ length (heap s')
  ∧ ∀ l, l < b → heap s' !! l = heap s !! l.

Definition preserves_at {A} (b : nat) (m : M A) : Prop :=
  ∀ s c s', b ≤ length (heap s) → m s = (c, s') → frame b s s'.

Record preserving (b : nat) (I : Interp) : Prop := {
  p_Get : ∀ O P R, preserves_at b (i_Get I O P R);
  p_GetOwnProperty : ∀ O P, preserves_at b (i_GetOwnProperty I O P);
  p_GetPrototypeOf : ∀ O, preserves_at b (i_GetPrototypeOf I O);
  p_Call : ∀ F this args, preserves_at b (i_Call I F this args);
  p_run : ∀ code this args, preserves_at b (i_run I code this args)
}.

(** Every object of [h] is still in [h'], unchanged. *)
Definition heap_grows (h h' : Heap) : Prop :=
  ∀ l o, h !! l = Some o → h' !! l = Some o.

(** ** Fuel *)

(** [m ⊑ m']: whatever [m] answers without running out of fuel, [m'] answers
    too. *)
Definition answers_le {A} (m m' : M A) : Prop :=
  ∀ s c s', m s = (c, s') → c ≠ OutOfFuel → m' s = (c, s').

Record interp_le (I J : Interp) : Prop := {
  le_Get : ∀ O P R, answers_le (i_Get I O P R) (i_Get J O P R);
  le_GetOwnProperty :
    ∀ O P, answers_le (i_GetOwnProperty I O P) (i_GetOwnProperty J O P);
  le_GetPrototypeOf :
    ∀ O, answers_le (i_GetPrototypeOf I O) (i_GetPrototypeOf J O);
  le_Call :
    ∀ F this args, answers_le (i_Call I F this args) (i_Call J F this args);
  le_run :
    ∀ code this args,
      answers_le (i_run I code this args) (i_run J code this args)
}.

(** ** Own methods of a class *)

Fixpoint own_methods (cs : ClassTable) (c : ClassRef) : gmap string Code :=
  match cs with
  | [] => ∅
  | cl :: older =>
      if decide (c = length older) then methods cl else own_methods older c
  end.

(** ** The objects the layers hand out *)

(** The function object [TargetAsThis] hands out, once its [name] has been
    redefined: [w] is its own location, [S w] that of its [prototype]. *)
Definition wrapper (host : Host) (w : Loc) (name property receiver target : Value)
  : Obj :=
  OObject (Function_prototype host)
    [(KString "length", data (VNumber 0) false false true);
     (KString "name", data name false false true);
     (KString "prototype", data (VRef (S w)) true false false)]
    (Some (CwrappedFunction property receiver target)).

(** The function object [DefaultToPrimitive] hands out. *)
Definition hook (host : Host) (target : Value) : Obj :=
  OObject (Function_prototype host)
    [(KString "length", data (VNumber 1) false false true);
     (KString "name", data (VString "") false false true)]
    (Some (CtoPrimitive target)).

(** The state in which [property.name] is read: the wrapper function and its
    [prototype] object have just been allocated. *)
Definition with_wrappedFunction (host : Host) (property receiver target : Value)
    (s : State) : State :=
  (new_function host (CwrappedFunction property receiver target)
     "wrappedFunction" 0 s).2.

(** The state [TargetAsThis] leaves after handing out a wrapper named
    [name]: [s1] is the state after the layer below answered, [s2] the state
    after [property.name] was read. *)
Definition with_wrapper (host : Host) (name property receiver target : Value)
    (s1 s2 : State) : State :=
  set_heap
    (<[length (heap s1) :=
         wrapper host (length (heap s1)) name property receiver target]>
       (heap s2)) s2.


(** ** Properties of decorated handler types *)

(** With enough fuel, [getTarget] of a proxy whose handler class is [root]
    under the decorators [ls] returns [v]. *)
Definition getTarget_returns (host : Host) (ls : list Layer) (root : ClassRef)
    (target : Value) (s : State) (v : Value) : Prop :=
  ∃ proxy s1,
    proxy_over ls root target s = (Normal proxy, s1)
    ∧ ∃ n s2, getTarget host n proxy s1 = (Normal v, s2).

(** ** Worlds closed under the classes they mention *)

(** [code_below b c]: the classes the code [c] mentions are among the first
    [b] of the table. *)
Fixpoint code_below (b : nat) (c : Code) : bool :=
  match c with
  | CTargetAsThis_get home => bool_decide (home < b)
  | CDefaultToPrimitive_get home => bool_decide (home < b)
  | CDefaultToStringTag_get home => bool_decide (home < b)
  | CAllowGetTarget_get home => bool_decide (home < b)
  | CMapped _ originalValue => code_below b originalValue
  | CNative _ => true
  | CReflect_get => true
  | CwrappedFunction _ _ _ => true
  | CtoPrimitive _ => true
  end.

Definition obj_below (b : nat) (o : Obj) : bool :=
  match o with
  | OObject _ _ (Some c) => code_below b c
  | OObject _ _ None => true
  | OProxy _ _ _ => true
  | OHandler c => bool_decide (c < b)
  end.

Definition heap_below (b : nat) (h : Heap) : Prop :=
  Forall (λ o, obj_below b o = true) h.

Definition classes_below (b : nat) (cs : ClassTable) : Prop :=
  Forall (λ cl, map_Forall (λ _ g, code_below b g = true) (methods cl)) cs.

(** The state has [b] classes and mentions no others: handler instances
    are instances of them, and methods and functions of the library have
    their home among them. *)
Definition closed (b : nat) (s : State) : Prop :=
  length (classes s) = b
  ∧ heap_below b (heap s)
  ∧ classes_below b (classes s).

(** The functions of the host allocate no object that mentions a class
    outside the first [b], given a heap that mentions none. *)
Definition host_below (b : nat) (host : Host) : Prop :=
  ∀ f,
    (f = host_String host ∨ f = host_Number host ∨ ∃ id, f = native host id) →
    ∀ this args h, heap_below b h → heap_below b (f this args h).2.

(** The state with one more class. *)
Definition extend (cl : Class) (s : State) : State :=
  set_classes (cl :: classes s) s.

(** [m] does not notice the class [cl] added to a closed state: it gives the
    same completion and the same state (with [cl] added), stays in closed
    states, and its result satisfies [P]. *)
Definition unaffected {A} (b : nat) (cl : Class) (P : A → Prop) (m : M A)
  : Prop :=
  ∀ s,
    closed b s →
    m (extend cl s) = ((m s).1, extend cl (m s).2)
    ∧ closed b (m s).2
    ∧ ∀ a, (m s).1 = Normal a → P a.

Record unaffected_interp (b : nat) (cl : Class) (I : Interp) : Prop := {
  u_Get : ∀ O P R, unaffected b cl (λ _, True) (i_Get I O P R);
  u_GetOwnProperty :
    ∀ O P, unaffected b cl (λ _, True) (i_GetOwnProperty I O P);
  u_GetPrototypeOf : ∀ O, unaffected b cl (λ _, True) (i_GetPrototypeOf I O);
  u_Call :
    ∀ F this args, unaffected b cl (λ _, True) (i_Call I F this args);
  u_run :
    ∀ code this args,
      code_below b code = true →
      unaffected b cl (λ _, True) (i_run I code this args)
}.

(** Every property read, call and prototype query, on any value and with any
    fuel, goes in [s'] the way it goes in [s]: same completion, same
    resulting heap and trace. *)
Definition same_behaviour (host : Host) (s s' : State) : Prop :=
  ∀ n,
    (∀ O P R,
       i_Get (interp host n) O P R s'
       = ((i_Get (interp host n) O P R s).1,
          set_classes (classes s') (i_Get (interp host n) O P R s).2))
    ∧ (∀ F this args,
         i_Call (interp host n) F this args s'
         = ((i_Call (interp host n) F this args s).1,
            set_classes (classes s') (i_Call (interp host n) F this args s).2))
    ∧ (∀ O,
         i_GetPrototypeOf (interp host n) O s'
         = ((i_GetPrototypeOf (interp host n) O s).1,
            set_classes (classes s')
              (i_GetPrototypeOf (interp host n) O s).2)).

(** Applying the layer [l] to [c] gives a handler type other than [c], and
    leaves every handler type that existed before, [c] among them, as it
    was: it resolves each of its operations, and each [super] reference in
    them, to what it resolved to before, and in a closed world everything
    behaves as before. *)
Definition produces_new_type (host : Host) (l : Layer) (c : ClassRef)
    (s : State) : Prop :=
  ∃ c' s',
    decorate l c s = (Normal c', s')
    ∧ c' ≠ c
    ∧ (∀ c0 name,
         c0 < length (classes s) →
         lookup_method (classes s') c0 name
         = lookup_method (classes s) c0 name
         ∧ super_lookup (classes s') c0 name
           = super_lookup (classes s) c0 name)
    ∧ (closed (length (classes s)) s →
       host_below (length (classes s)) host →
       same_behaviour host s s').

(** [Mapped] leaves alone every operation whose name is not one of the
    operations a proxy handler can intercept. *)
Definition leaves_names_outside_the_vocabulary (mapper : Value) (c : ClassRef)
    (s : State) : Prop :=
  ∀ name originalValue,
    KString name ∉ Reflect_standardKeys →
    lookup_method (classes s) c name = Some originalValue →
    lookup_method (classes (Mapped mapper c s).2) c name = Some originalValue.

(** [exposes cs wraps g d]: reading the reserved key through the [get]
    method [g] goes through [d] layers that hand the answer of the layer
    below back unchanged (at most [d] of them) and reaches an
    [AllowGetTarget] layer.  A
    [TargetAsThis] layer is accepted on the way only when [wraps] says so
    (the target is not callable, so it wraps nothing). *)
Inductive exposes (cs : ClassTable) (wraps : bool) : Code → nat → Prop :=
| exposes_AllowGetTarget home d :
    exposes cs wraps (CAllowGetTarget_get home) d
| exposes_TargetAsThis home g d :
    wraps = true →
    home < length cs →
    super_lookup cs home "get" = Some g →
    exposes cs wraps g d →
    exposes cs wraps (CTargetAsThis_get home) (S d)
| exposes_DefaultToPrimitive home g d :
    home < length cs →
    super_lookup cs home "get" = Some g →
    exposes cs wraps g d →
    exposes cs wraps (CDefaultToPrimitive_get home) (S d)
| exposes_DefaultToStringTag home g d :
    home < length cs →
    super_lookup cs home "get" = Some g →
    exposes cs wraps g d →
    exposes cs wraps (CDefaultToStringTag_get home) (S d).

(** [lacks_key d h k v]: [v] is an ordinary object, its prototype chain has
    at most [d] objects, all of them ordinary, and none has an own property
    [k]. *)
Fixpoint lacks_key (d : nat) (h : Heap) (k : Key) (v : Value) : bool :=
  match d, v with
  | S d', VRef l =>
      match h !! l with
      | Some (OObject proto props _) =>
          bool_decide (own k props = None)
          && match proto with
             | VRef _ => lacks_key d' h k proto
             | _ => true
             end
      | _ => false
      end
  | _, _ => false
  end.

(** The [get] method [g] answers [undefined] when asked for the reserved key
    of an object that lacks it, in every state that still has the objects of
    [h0]. *)
Definition answers_undefined (host : Host) (h0 : Heap) (g : Code) : Prop :=
  ∀ s this target receiver d,
    heap_grows h0 (heap s) →
    lacks_key d (heap s) (KSymbol getTargetSymbol) target = true →
    ∃ n s',
      i_run (interp host n) g this
        [target; VSymbol getTargetSymbol; receiver] s
      = (Normal VUndefined, s').

(** [mapper] returns, and maps objects that lack the reserved key to objects
    that lack it, in every state that still has the objects of [h0]. *)
Definition maps_plain_targets (host : Host) (h0 : Heap) (mapper : Value)
  : Prop :=
  ∀ s target d,
    heap_grows h0 (heap s) →
    lacks_key d (heap s) (KSymbol getTargetSymbol) target = true →
    ∃ n mapped s' d',
      i_Call (interp host n) mapper VUndefined [target] s = (Normal mapped, s')
      ∧ lacks_key d' (heap s') (KSymbol getTargetSymbol) mapped = true.

(** [passes host h0 cs b og]: the [get] method [og] (or [Reflect.get] when
    there is none) answers [undefined] for the reserved key.  It is a method
    that does so by assumption, or one of the three layers that hand the
    answer of the layer below back, or a [Mapped] wrapper around such a
    method.  The homes of the layers are at most [b]. *)
Inductive passes (host : Host) (h0 : Heap) (cs : ClassTable) (b : nat)
  : option Code → Prop :=
| passes_Reflect_get : passes host h0 cs b None
| passes_method g :
    answers_undefined host h0 g → passes host h0 cs b (Some g)
| passes_TargetAsThis home :
    home ≤ b →
    passes host h0 cs b (super_lookup cs home "get") →
    passes host h0 cs b (Some (CTargetAsThis_get home))
| passes_DefaultToPrimitive home :
    home ≤ b →
    passes host h0 cs b (super_lookup cs home "get") →
    passes host h0 cs b (Some (CDefaultToPrimitive_get home))
| passes_DefaultToStringTag home :
    home ≤ b →
    passes host h0 cs b (super_lookup cs home "get") →
    passes host h0 cs b (Some (CDefaultToStringTag_get home))
| passes_Mapped mapper g :
    maps_plain_targets host h0 mapper →
    passes host h0 cs b (Some g) →
    passes host h0 cs b (Some (CMapped mapper g)).

(** ** A small world to run things in *)

(** [addBang] of the package's example: a copy of the array with ["!"]
    appended to every string. *)
Definition addBang : NativeFn :=
  λ this args h,
    match arg 0 args with
    | VRef l =>
        match h !! l with
        | Some (OObject proto props call) =>
            (NReturn (VRef (length h)),
             [OObject proto
                (map (λ kd,
                        (kd.1,
                         match value kd.2 with
                         | VString w => data (VString (w +:+ "!")) true true true
                         | _ => kd.2
                         end)) props)
                call])
        | _ => (NThrow TypeError, [])
        end
    | _ => (NThrow TypeError, [])
    end.

(** A method that returns its [this]. *)
Definition returnThis : NativeFn := λ this args h, (NReturn this, []).

(** A function that always throws. *)
Definition boom : NativeFn :=
  λ this args h, (NThrow (Thrown (VString "boom")), []).

(** What the package [reflect-metadata] adds to [Reflect]. *)
Definition reflect_metadata : list Key :=
  [ KString "decorate"; KString "metadata"; KString "defineMetadata";
    KString "hasMetadata"; KString "hasOwnMetadata"; KString "getMetadata";
    KString "getOwnMetadata"; KString "getMetadataKeys";
    KString "getOwnMetadataKeys"; KString "deleteMetadata" ].

Definition ex_host : Host :=
  {| native := λ id,
       match id with 0 => addBang | 1 => returnThis | _ => boom end;
     host_String := λ this args h, (NReturn (VString "hello,world"), []);
     host_Number := λ this args h, (NReturn VNaN, []);
     Function_prototype := VNull;
     Object_prototype := VNull |}.

(** The heap holds an instance of a class [Foo] (location 0) with two
    strings and a method, the function [addBang] (1), [Foo.prototype] (2),
    the method (3), the constructor [Foo] (4) and a throwing function (5).
    The class table holds a root class whose [get] is [Reflect.get]
    (class 0), an empty subclass of it (class 1) and a root class whose
    [get] always throws (class 2). *)
Definition ex_state : State :=
  {| heap :=
       [ OObject (VRef 2)
           [(KString "0", data (VString "hello") true true true);
            (KString "1", data (VString "world") true true true);
            (KString "greet", data (VRef 3) true false true)]
           None;
         OObject VNull
           [(KString "name", data (VString "addBang") false false true)]
           (Some (CNative 0));
         OObject VNull
           [(KString "constructor", data (VRef 4) true false true)]
           None;
         OObject VNull
           [(KString "name", data (VString "greet") false false true)]
           (Some (CNative 1));
         OObject VNull
           [(KString "name", data (VString "Foo") false false true);
            (KString "prototype", data (VRef 2) false false false)]
           (Some (CNative 1));
         OObject VNull
           [(KString "name", data (VString "boom") false false true)]
           (Some (CNative 2)) ];
     classes :=
       [ {| parent := None; methods := {[ "get" := CNative 2 ]} |};
         {| parent := Some 0; methods := ∅ |};
         {| parent := None; methods := {[ "get" := CReflect_get ]} |} ];
     trace := [];
     Reflect_added := reflect_metadata |}.

(** The small world with one more class (class 3), which extends class 0
    and has a method under a name that [reflect-metadata] added to
    [Reflect], and one under a name [Reflect] does not own. *)
Definition ex_metadata : State :=
  set_classes
    ({| parent := Some 0;
        methods := {[ "getMetadata" := CNative 1; "size" := CNative 1 ]} |}
       :: classes ex_state)
    ex_state.

(** The state after [new Proxy(target, new (@ls class extends C1 {})())]
    for the instance of [Foo] at location 0 and the empty class 1: the
    decorators add classes from 3 on, the handler is at location 6 and the
    proxy at location 7. *)
Definition ex_proxied (ls : list Layer) : State :=
  (proxy_over ls 1 (VRef 0) ex_state).2.

(** ** Targets that are proxies themselves *)

(** [reports_no_own d s k v]: asked for its own property [k], [v] reports
    none.  [v] is an ordinary object without it, or a proxy (at most [d]
    deep) whose handler class has no [getOwnPropertyDescriptor] trap, over
    such a value. *)
Fixpoint reports_no_own (d : nat) (s : State) (k : Key) (v : Value) : bool :=
  match d, v with
  | S d', VRef l =>
      match heap s !! l with
      | Some (OObject _ props _) => bool_decide (own k props = None)
      | Some (OProxy target (VRef lh) _) =>
          match heap s !! lh with
          | Some (OHandler c) =>
              bool_decide
                (lookup_method (classes s) c "getOwnPropertyDescriptor" = None)
              && reports_no_own d' s k target
          | _ => false
          end
      | _ => false
      end
  | _, _ => false
  end.

(** ** Stacks of layers *)

(** The layers written as class expressions add a class; [Mapped] does
    not. *)
Fixpoint class_expressions (ls : list Layer) : nat :=
  match ls with
  | [] => 0
  | LMapped _ :: ls' => class_expressions ls'
  | _ :: ls' => S (class_expressions ls')
  end.

(** The class a [get] of one of the four class expressions was defined
    in. *)
Definition layer_home (g : Code) : option ClassRef :=
  match g with
  | CTargetAsThis_get home
  | CDefaultToPrimitive_get home
  | CDefaultToStringTag_get home
  | CAllowGetTarget_get home => Some home
  | _ => None
  end.

(** [delegates cs agt base g d]: the [get] method [g] is the outermost of
    [d] class-expression layers, each the superclass of the one before, and
    the innermost finds [base] as its [super.get] (nothing, when [base] is
    [None]).  An [AllowGetTarget] layer is among them only when [agt] says
    so. *)
Inductive delegates (cs : ClassTable) (agt : bool) (base : option Code)
  : Code → nat → Prop :=
| delegates_innermost g home :
    layer_home g = Some home →
    (g = CAllowGetTarget_get home → agt = true) →
    home < length cs →
    super_lookup cs home "get" = base →
    delegates cs agt base g 1
| delegates_outer g home g' d :
    layer_home g = Some home →
    (g = CAllowGetTarget_get home → agt = true) →
    home < length cs →
    super_lookup cs home "get" = Some g' →
    delegates cs agt base g' d →
    delegates cs agt base g (S d).

(** What the innermost layer of a stack over [root] calls:
    [(super.get ?? Reflect.get)(target, p, receiver)], with [super.get] the
    [get] that [root] has or inherits in the class table [cs]. *)
Definition root_get (I : Interp) (cs : ClassTable) (root : ClassRef)
    (args : list Value) : M Value :=
  i_run I (default CReflect_get (lookup_method cs root "get")) VUndefined args.

(** ** More of the small world *)

(** A proxy over a proxy, and an object that inherits from it.  On top of
    [ex_proxied [LAllowGetTarget]] (handler 6, proxy 7 over the instance of
    [Foo]; class 3): a second proxy (9, handler 8) over proxy 7, its handler
    class being [@DefaultToPrimitive @AllowGetTarget] over class 1 (classes
    4 and 5), and an ordinary object (10) whose prototype is proxy 9. *)
Definition ex_nested : State :=
  let s1 := ex_proxied [LAllowGetTarget] in
  let s2 :=
    (proxy_over [LDefaultToPrimitive; LAllowGetTarget] 1 (VRef 7) s1).2 in
  set_heap (heap s2 ++ [OObject (VRef 9) [] None]) s2.

(** The small world with one more root class (class 3), which has no method
    at all. *)
Definition ex_bare : State :=
  set_classes ({| parent := None; methods := ∅ |} :: classes ex_state)
    ex_state.

(** Both orders of the two default layers over class 1:
    [@DefaultToPrimitive @DefaultToStringTag] (classes 3 and 4) and
    [@DefaultToStringTag @DefaultToPrimitive] (classes 5 and 6). *)
Definition ex_both_orders : State :=
  let s1 :=
    (decorated [LDefaultToPrimitive; LDefaultToStringTag] 1 ex_state).2 in
  (decorated [LDefaultToStringTag; LDefaultToPrimitive] 1 s1).2.

(** ** Reads through a proxy *)

(** The check a proxy makes on what its [get] trap returned: the target's
    own property, when it is neither configurable nor writable, must hold
    that very value. *)
Definition violates_invariant (targetDesc : option PropertyDescriptor)
    (trapResult : Value) : bool :=
  match targetDesc with
  | Some d =>
      negb (configurable d) && negb (writable d)
      && negb (same_value trapResult (value d))
  | None => false
  end.

(** [answers_reads_with host cs c get]: in a state whose class table is
    [cs], a proxy whose handler is an instance of the class [c] answers a
    read of [P] by calling [get] on the handler with the target, [P] and the
    receiver.  What [get] throws, the read throws; what [get] returns, the
    read returns, unless the proxy invariant forbids it, in which case the
    read throws a [TypeError]. *)
Definition answers_reads_with (host : Host) (cs : ClassTable) (c : ClassRef)
    (get : Code) : Prop :=
  ∀ n σ lp lh target callable P Receiver,
    classes σ = cs →
    heap σ !! lp = Some (OProxy target (VRef lh) callable) →
    heap σ !! lh = Some (OHandler c) →
    (∀ v σ1 d σ2,
       i_run (interp host n) get (VRef lh) [target; key_value P; Receiver] σ
         = (Normal v, σ1) →
       i_GetOwnProperty (interp host n) target P σ1 = (Normal d, σ2) →
       i_Get (interp host (S n)) (VRef lp) P Receiver σ
       = if violates_invariant d v then (Throw TypeError, σ2)
         else (Normal v, σ2))
    ∧ (∀ e σ1,
         i_run (interp host n) get (VRef lh) [target; key_value P; Receiver] σ
           = (Throw e, σ1) →
         i_Get (interp host (S n)) (VRef lp) P Receiver σ = (Throw e, σ1)).


(** The small world with one more object (location 6): an instance of [Foo]
    whose method [greet] is frozen, neither writable nor configurable. *)
Definition ex_frozen : State :=
  set_heap
    (heap ex_state
     ++ [OObject (VRef 2)
           [(KString "greet", data (VRef 3) false true false)] None])
    ex_state.


(** * Facts about the class table *)

Section ClassTableFacts.

Implicit Types (cs : ClassTable) (cl : Class) (c home : ClassRef).
Implicit Types (name : string).

Lemma lookup_method_unfold cs c name :
  lookup_method cs c name =
    match own_methods cs c !! name with
    | Some m => Some m
    | None => super_lookup cs c name
    end.
Proof.
  induction cs as [|cl older IH]; simpl; [done|].
  case_decide; [done | apply IH].
Qed.

Lemma lookup_method_dangling cs c name :
  length cs ≤ c → lookup_method cs c name = None.
Proof.
  induction cs as [|cl older IH]; simpl; intros Hc; [done|].
  case_decide; [lia | apply IH; lia].
Qed.

Lemma lookup_method_cons cl cs c name :
  c < length cs → lookup_method (cl :: cs) c name = lookup_method cs c name.
Proof. intros Hc. simpl. case_decide; [lia | done]. Qed.

Lemma super_lookup_cons cl cs home name :
  home < length cs →
  super_lookup (cl :: cs) home name = super_lookup cs home name.
Proof. intros Hc. simpl. case_decide; [lia | done]. Qed.

Lemma super_lookup_new cs p ms name :
  super_lookup ({| parent := Some p; methods := ms |} :: cs) (length cs) name
  = lookup_method cs p name.
Proof. simpl. case_decide; [done | lia]. Qed.

Lemma lookup_method_new cs p ms name m :
  ms !! name = Some m →
  lookup_method ({| parent := Some p; methods := ms |} :: cs) (length cs) name
  = Some m.
Proof. intros Hm. simpl. case_decide; [by rewrite Hm | lia]. Qed.

Lemma all_methods_lookup cs c name :
  all_methods cs c !! name = lookup_method cs c name.
Proof.
  revert c. induction cs as [|cl older IH]; intros c; simpl; [done|].
  case_decide; [|apply IH].
  rewrite lookup_union.
  destruct (methods cl !! name) as [m|] eqn:Hm.
  - by rewrite union_Some_l.
  - destruct (parent cl) as [p|].
    + rewrite IH. by destruct (lookup_method older p name).
    + by rewrite lookup_empty.
Qed.

Lemma update_methods_length cs c f :
  length (update_methods cs c f) = length cs.
Proof.
  induction cs as [|cl older IH]; simpl; [done|].
  case_decide; simpl; [done | by rewrite IH].
Qed.

Lemma update_methods_dangling cs c f :
  length cs ≤ c → update_methods cs c f = cs.
Proof.
  induction cs as [|cl older IH]; simpl; intros Hc; [done|].
  case_decide; [lia|]. rewrite IH; [done | lia].
Qed.

(** Redefining methods of [c] is invisible to [super] lookups that start at
    [c] or at an older class, and to method lookups from older classes. *)
Lemma super_lookup_update cs c f home name :
  home ≤ c →
  super_lookup (update_methods cs c f) home name = super_lookup cs home name.
Proof.
  induction cs as [|cl older IH]; simpl; intros Hh; [done|].
  case_decide as Hc; simpl.
  - done.
  - rewrite update_methods_length. case_decide as Hhome.
    + rewrite update_methods_dangling; [done | lia].
    + by apply IH.
Qed.

Lemma lookup_method_update_older cs c f c' name :
  c' < c →
  lookup_method (update_methods cs c f) c' name = lookup_method cs c' name.
Proof.
  induction cs as [|cl older IH]; simpl; intros Hh; [done|].
  case_decide as Hc; simpl.
  - case_decide; [lia | done].
  - rewrite update_methods_length. case_decide as Hhome.
    + rewrite update_methods_dangling; [done | lia].
    + by apply IH.
Qed.

Lemma own_methods_update cs c f :
  c < length cs →
  own_methods (update_methods cs c f) c = f (own_methods cs c).
Proof.
  induction cs as [|cl older IH]; simpl; intros Hc; [lia|].
  case_decide as Hd; simpl.
  - case_decide; [done | lia].
  - rewrite update_methods_length. case_decide; [lia|]. apply IH. lia.
Qed.

Lemma own_methods_dangling cs c :
  length cs ≤ c → own_methods cs c = ∅.
Proof.
  induction cs as [|cl older IH]; simpl; intros Hc; [done|].
  case_decide; [lia | apply IH; lia].
Qed.

(** What a method lookup from [c] finds after [DecorateAll] has redefined
    the methods of [c]. *)
Lemma lookup_method_redefined cs c (decorator : string → Code → Code) name :
  lookup_method
    (update_methods cs c
       (λ own,
          map_imap
            (λ propName v,
               if decide (propName = "constructor") then None
               else Some (decorator propName v))
            (all_methods cs c) ∪ own))
    c name
  = match lookup_method cs c name with
    | Some m =>
        if decide (name = "constructor") then Some m
        else Some (decorator name m)
    | None => None
    end.
Proof.
  destruct (decide (c < length cs)) as [Hc|Hc].
  - rewrite lookup_method_unfold, own_methods_update by done.
    rewrite super_lookup_update by done.
    rewrite lookup_union, map_lookup_imap, all_methods_lookup.
    rewrite (lookup_method_unfold cs c name).
    destruct (own_methods cs c !! name) as [m|] eqn:Hown; simpl.
    + case_decide; simpl; done.
    + destruct (super_lookup cs c name) as [m|]; simpl; [|done].
      case_decide; simpl; done.
  - rewrite update_methods_dangling by lia.
    by rewrite lookup_method_dangling by lia.
Qed.

End ClassTableFacts.

(** * Running code never touches what was there before *)

Section Frame.

Context {A B : Type}.
Implicit Types (b : nat) (s : State).

Lemma frame_refl b s : frame b s s.
Proof. by repeat split. Qed.

Lemma frame_trans b s1 s2 s3 : frame b s1 s2 → frame b s2 s3 → frame b s1 s3.
Proof.
  intros (Hc1 & Hl1 & Ho1) (Hc2 & Hl2 & Ho2). repeat split.
  - congruence.
  - lia.
  - intros l Hl. rewrite Ho2, Ho1; done.
Qed.

Lemma preserves_ret b (a : A) : preserves_at b (ret a).
Proof. intros s c s' _ [= <- <-]. apply frame_refl. Qed.

Lemma preserves_throw b e : preserves_at b (@throw A e).
Proof. intros s c s' _ [= <- <-]. apply frame_refl. Qed.

Lemma preserves_unsupported b : preserves_at b (@unsupported A).
Proof. intros s c s' _ [= <- <-]. apply frame_refl. Qed.

Lemma preserves_out_of_fuel b : preserves_at b (@out_of_fuel A).
Proof. intros s c s' _ [= <- <-]. apply frame_refl. Qed.

Lemma preserves_gets b (f : State → A) : preserves_at b (gets f).
Proof. intros s c s' _ [= <- <-]. apply frame_refl. Qed.

Lemma preserves_bind b (m : M A) (k : A → M B) :
  preserves_at b m → (∀ a, preserves_at b (k a)) → preserves_at b (bind m k).
Proof.
  intros Hm Hk s c s' Hb. unfold bind.
  destruct (m s) as [[a|e| |] s1] eqn:Hms; intros Hr;
    pose proof (Hm _ _ _ Hb Hms) as Hf1.
  - eapply frame_trans; [done|]. eapply Hk; [|done]. destruct Hf1 as (_&?&_). lia.
  - by injection Hr as <- <-.
  - by injection Hr as <- <-.
  - by injection Hr as <- <-.
Qed.

End Frame.

Lemma frame_append b s ext :
  b ≤ length (heap s) → frame b s (set_heap (heap s ++ ext) s).
Proof.
  intros Hb. repeat split; simpl.
  - rewrite length_app. lia.
  - intros l Hl. apply lookup_app_l. lia.
Qed.

Lemma preserves_alloc b o : preserves_at b (alloc o).
Proof. intros s c s' Hb [= <- <-]. by apply frame_append. Qed.

Lemma preserves_log b ev : preserves_at b (log ev).
Proof. intros s c s' _ [= <- <-]. by repeat split. Qed.

Lemma preserves_call_native b f this args :
  preserves_at b (call_native f this args).
Proof.
  intros s c s' Hb. unfold call_native.
  destruct (f this args (heap s)).1; intros [= <- <-]; by apply frame_append.
Qed.

Lemma preserves_new_function {A} host b code name len (k : Value → M A) :
  (∀ l, b ≤ l → preserves_at b (k (VRef l))) →
  preserves_at b (bind (new_function host code name len) k).
Proof.
  intros Hk s c s' Hb. unfold bind, new_function. intros Hr.
  eapply frame_trans; [by apply frame_append|].
  eapply Hk; [| |done]; simpl; [done|]. rewrite length_app. lia.
Qed.

Lemma preserves_defineProperty b l P v w :
  b ≤ l → preserves_at b (Object_defineProperty (VRef l) P v w).
Proof.
  intros Hl s c s' Hb.
  unfold Object_defineProperty, bind, get_object, gets, throw, unsupported.
  simpl. repeat case_match; intros [= <- <-]; try apply frame_refl.
  all: split; [done|]; split; simpl.
  all: first [ by rewrite length_insert
             | intros l' Hl'; apply list_lookup_insert_ne; lia ].
Qed.

Ltac preserves_step :=
  first
    [ apply preserves_ret | apply preserves_throw | apply preserves_unsupported
    | apply preserves_out_of_fuel | apply preserves_gets | apply preserves_alloc
    | apply preserves_log | apply preserves_call_native
    | apply p_Get; assumption | apply p_GetOwnProperty; assumption
    | apply p_GetPrototypeOf; assumption | apply p_Call; assumption
    | apply p_run; assumption
    | apply preserves_bind; [|intros ?]
    | match goal with
      | |- preserves_at _ (match ?x with _ => _ end) => destruct x
      end ].

Ltac preserves := repeat preserves_step.

Section StepPreserves.

Variable host : Host.
Variable rec : Interp.
Variable b : nat.
Hypothesis Hrec : preserving b rec.

Lemma preserves_get_trap handler name : preserves_at b (get_trap handler name).
Proof. unfold get_trap, get_object. preserves. Qed.

Lemma preserves_GetV V P : preserves_at b (GetV rec V P).
Proof. unfold GetV. preserves. Qed.

Lemma preserves_super_get home args :
  preserves_at b (super_get_or_Reflect_get rec home args).
Proof. unfold super_get_or_Reflect_get. preserves. Qed.

Lemma preserves_TargetAsThis_get home args :
  preserves_at b (TargetAsThis_get host rec home args).
Proof.
  unfold TargetAsThis_get, typeof_function.
  apply preserves_bind; [apply preserves_super_get|]. intros property.
  apply preserves_bind; [apply preserves_gets|]. intros [|]; [|preserves].
  apply preserves_new_function. intros l Hl.
  apply preserves_bind; [apply preserves_GetV|]. intros name.
  apply preserves_bind; [by apply preserves_defineProperty|]. intros _.
  preserves.
Qed.

Lemma step_preserving : preserving b (step host rec).
Proof.
  split; simpl.
  - intros O P R. unfold Get, get_object.
    preserves; apply preserves_get_trap.
  - intros O P. unfold GetOwnProperty, get_object.
    preserves; apply preserves_get_trap.
  - intros O. unfold GetPrototypeOf, get_object.
    preserves; apply preserves_get_trap.
  - intros F this args. unfold Call, get_object.
    preserves; apply preserves_get_trap.
  - intros code this args. destruct code; simpl.
    + preserves.
    + unfold Reflect_get. preserves.
    + apply preserves_TargetAsThis_get.
    + unfold DefaultToPrimitive_get, new_arrow.
      apply preserves_bind; [apply preserves_super_get|]. intros property.
      preserves.
    + unfold DefaultToStringTag_get, Object_getPrototypeOf, typeof_function.
      apply preserves_bind; [apply preserves_super_get|]. intros property.
      preserves; try apply preserves_GetV.
    + unfold AllowGetTarget_get.
      preserves; try apply preserves_super_get.
    + unfold wrappedFunction. preserves.
    + unfold toPrimitive. preserves; try apply preserves_GetV.
    + unfold Mapped_value. preserves.
Qed.

End StepPreserves.

Lemma bottom_preserving b : preserving b bottom.
Proof. split; intros; apply preserves_out_of_fuel. Qed.

Lemma interp_preserving host b n : preserving b (interp host n).
Proof.
  induction n as [|n IH]; simpl; [apply bottom_preserving|].
  by apply step_preserving.
Qed.

(** * The layers, one access at a time *)

Lemma bind_Normal {A B} (m : M A) (k : A → M B) s a s1 :
  m s = (Normal a, s1) → bind m k s = k a s1.
Proof. intros H. unfold bind. by rewrite H. Qed.

Lemma bind_Throw {A B} (m : M A) (k : A → M B) s e s1 :
  m s = (Throw e, s1) → bind m k s = (Throw e, s1).
Proof. intros H. unfold bind. by rewrite H. Qed.

Lemma strict_equals_undefined v :
  strict_equals v VUndefined = bool_decide (v = VUndefined).
Proof. by destruct v. Qed.

Lemma strict_equals_symbol v n :
  strict_equals v (VSymbol n) = bool_decide (v = VSymbol n).
Proof. by destruct v. Qed.

Lemma strict_equals_string v x :
  strict_equals v (VString x) = bool_decide (v = VString x).
Proof. by destruct v. Qed.

Lemma frame_lookup b s s' l o :
  frame b s s' → l < b → heap s !! l = Some o → heap s' !! l = Some o.
Proof. intros (_ & _ & H) Hl Ho. by rewrite H. Qed.

Lemma frame_is_callable s s' v :
  frame (length (heap s)) s s' →
  is_callable (heap s) v = true → is_callable (heap s') v = true.
Proof.
  intros (_ & _ & H). destruct v as [| | | | | | |l]; simpl; try done.
  destruct (heap s !! l) as [o|] eqn:Ho; [|done].
  rewrite H, Ho; [done|]. by eapply lookup_lt_Some.
Qed.

Section TargetAsThisFacts.

Variable host : Host.
Implicit Types (n home : nat) (s : State).
Implicit Types (this target p receiver property : Value).

Lemma TargetAsThis_get_other n home this target p receiver s property s1 :
  super_get_or_Reflect_get (interp host n) home [target; p; receiver] s
    = (Normal property, s1) →
  is_callable (heap s1) property = false →
  i_run (interp host (S n)) (CTargetAsThis_get home) this
    [target; p; receiver] s
  = (Normal property, s1).
Proof.
  intros Hbase Hfn. simpl. unfold TargetAsThis_get. simpl.
  rewrite (bind_Normal _ _ _ _ _ Hbase).
  unfold typeof_function, gets, bind. by rewrite Hfn.
Qed.

Lemma TargetAsThis_get_function n home this target p receiver s property s1
    name s2 :
  super_get_or_Reflect_get (interp host n) home [target; p; receiver] s
    = (Normal property, s1) →
  is_callable (heap s1) property = true →
  GetV (interp host n) property (KString "name")
    (new_function host (CwrappedFunction property receiver target)
       "wrappedFunction" 0 s1).2
    = (Normal name, s2) →
  i_run (interp host (S n)) (CTargetAsThis_get home) this
    [target; p; receiver] s
  = (Normal (VRef (length (heap s1))),
     set_heap
       (<[length (heap s1) :=
            wrapper host (length (heap s1)) name property receiver target]>
          (heap s2)) s2).
Proof.
  intros Hbase Hfn Hname. simpl. unfold TargetAsThis_get. simpl.
  rewrite (bind_Normal _ _ _ _ _ Hbase).
  unfold typeof_function. unfold bind at 1. unfold gets at 1. rewrite Hfn.
  unfold bind at 1. unfold new_function at 1.
  simpl in Hname. rewrite (bind_Normal _ _ _ _ _ Hname).
  assert (Hf : frame (S (length (heap s1)))
                 (set_heap (heap s1 ++
                    [OObject (Function_prototype host)
                       [(KString "length", data (VNumber 0) false false true);
                        (KString "name",
                         data (VString "wrappedFunction") false false true);
                        (KString "prototype",
                         data (VRef (S (length (heap s1)))) true false false)]
                       (Some (CwrappedFunction property receiver target));
                     OObject (Object_prototype host)
                       [(KString "constructor",
                         data (VRef (length (heap s1))) true false true)]
                       None]) s1) s2).
  { destruct property; try done.
    eapply (p_Get _ _ (interp_preserving host _ n)); [|exact Hname].
    simpl. rewrite length_app. simpl. lia. }
  unfold Object_defineProperty, bind, get_object, gets.
  erewrite frame_lookup; [|exact Hf|lia|].
  2:{ simpl. rewrite lookup_app_r by lia. by rewrite Nat.sub_diag. }
  simpl. done.
Qed.

(** Calling the wrapper. *)
Lemma wrappedFunction_call m s w proto props property receiver target
    thisArg argArray :
  heap s !! w
    = Some (OObject proto props
              (Some (CwrappedFunction property receiver target))) →
  i_Call (interp host (S (S m))) (VRef w) thisArg argArray s
  = i_Call (interp host m) property
      (if strict_equals thisArg receiver then target else thisArg)
      argArray s.
Proof.
  intros Hw. simpl. unfold Call at 1, bind, get_object, gets. by rewrite Hw.
Qed.

End TargetAsThisFacts.

Section OtherLayersFacts.

Variable host : Host.
Implicit Types (n home : nat) (s : State).
Implicit Types (this target p receiver property : Value).

Lemma DefaultToPrimitive_get_defined n home this target p receiver s
    property s1 :
  super_get_or_Reflect_get (interp host n) home [target; p; receiver] s
    = (Normal property, s1) →
  property ≠ VUndefined →
  i_run (interp host (S n)) (CDefaultToPrimitive_get home) this
    [target; p; receiver] s
  = (Normal property, s1).
Proof.
  intros Hbase Hp. simpl. unfold DefaultToPrimitive_get. simpl.
  rewrite (bind_Normal _ _ _ _ _ Hbase), strict_equals_undefined.
  by rewrite bool_decide_eq_false_2.
Qed.

Lemma DefaultToPrimitive_get_other_key n home this target p receiver s s1 :
  super_get_or_Reflect_get (interp host n) home [target; p; receiver] s
    = (Normal VUndefined, s1) →
  p ≠ VSymbol Symbol_toPrimitive →
  i_run (interp host (S n)) (CDefaultToPrimitive_get home) this
    [target; p; receiver] s
  = (Normal VUndefined, s1).
Proof.
  intros Hbase Hp. simpl. unfold DefaultToPrimitive_get. simpl.
  rewrite (bind_Normal _ _ _ _ _ Hbase). simpl.
  rewrite strict_equals_symbol. by rewrite bool_decide_eq_false_2.
Qed.


(** Calling the hook. *)
Lemma toPrimitive_call m s w target thisArg args :
  heap s !! w = Some (hook host target) →
  i_Call (interp host (S (S m))) (VRef w) thisArg args s
  = toPrimitive host (interp host m) target args s.
Proof.
  intros Hw. simpl. unfold Call at 1, bind, get_object, gets. by rewrite Hw.
Qed.

Lemma DefaultToStringTag_get_passes n home this target p receiver s
    property s1 :
  super_get_or_Reflect_get (interp host n) home [target; p; receiver] s
    = (Normal property, s1) →
  property ≠ VUndefined ∨ p ≠ VSymbol Symbol_toStringTag →
  i_run (interp host (S n)) (CDefaultToStringTag_get home) this
    [target; p; receiver] s
  = (Normal property, s1).
Proof.
  intros Hbase Hp. simpl. unfold DefaultToStringTag_get. simpl.
  rewrite (bind_Normal _ _ _ _ _ Hbase), strict_equals_undefined.
  case_bool_decide as Hu; [|done]. subst property.
  rewrite strict_equals_symbol. destruct Hp as [?|?]; [done|].
  by rewrite bool_decide_eq_false_2.
Qed.



Lemma AllowGetTarget_get_target n home this target receiver s :
  i_run (interp host (S n)) (CAllowGetTarget_get home) this
    [target; VSymbol getTargetSymbol; receiver] s
  = (Normal target, s).
Proof. done. Qed.

Lemma AllowGetTarget_get_other n home this target p receiver s :
  p ≠ VSymbol getTargetSymbol →
  i_run (interp host (S n)) (CAllowGetTarget_get home) this
    [target; p; receiver] s
  = super_get_or_Reflect_get (interp host n) home [target; p; receiver] s.
Proof.
  intros Hp. simpl. unfold AllowGetTarget_get. simpl.
  rewrite strict_equals_symbol. by rewrite bool_decide_eq_false_2.
Qed.

(** A layer that delegates and gets an exception back. *)
Lemma get_layers_rethrow n home this target p receiver s e s1 :
  super_get_or_Reflect_get (interp host n) home [target; p; receiver] s
    = (Throw e, s1) →
  i_run (interp host (S n)) (CTargetAsThis_get home) this
    [target; p; receiver] s = (Throw e, s1)
  ∧ i_run (interp host (S n)) (CDefaultToPrimitive_get home) this
      [target; p; receiver] s = (Throw e, s1)
  ∧ i_run (interp host (S n)) (CDefaultToStringTag_get home) this
      [target; p; receiver] s = (Throw e, s1)
  ∧ (p ≠ VSymbol getTargetSymbol →
     i_run (interp host (S n)) (CAllowGetTarget_get home) this
       [target; p; receiver] s = (Throw e, s1)).
Proof.
  intros Hbase. repeat split.
  - simpl. unfold TargetAsThis_get. simpl. by rewrite (bind_Throw _ _ _ _ _ Hbase).
  - simpl. unfold DefaultToPrimitive_get. simpl.
    by rewrite (bind_Throw _ _ _ _ _ Hbase).
  - simpl. unfold DefaultToStringTag_get. simpl.
    by rewrite (bind_Throw _ _ _ _ _ Hbase).
  - intros Hp. by rewrite AllowGetTarget_get_other.
Qed.

Lemma Mapped_value_run n this mapper originalValue args s :
  i_run (interp host (S n)) (CMapped mapper originalValue) this args s
  = (let* mapped := i_Call (interp host n) mapper VUndefined [arg 0 args] in
     i_run (interp host n) originalValue VUndefined (mapped :: tail args)) s.
Proof. done. Qed.

(** A native mapper is entered exactly once, before the original method. *)
Lemma Mapped_value_native n this l proto props id originalValue args s :
  heap s !! l = Some (OObject proto props (Some (CNative id))) →
  i_run (interp host (S (S (S n)))) (CMapped (VRef l) originalValue) this
    args s
  = let r := native host id VUndefined [arg 0 args] (heap s) in
    let s1 :=
      {| heap := heap s ++ r.2;
         classes := classes s;
         trace := {| ev_native := id; ev_this := VUndefined;
                     ev_args := [arg 0 args] |} :: trace s;
         Reflect_added := Reflect_added s |} in
    match r.1 with
    | NReturn mapped =>
        i_run (interp host (S (S n))) originalValue VUndefined
          (mapped :: tail args) s1
    | NThrow e => (Throw e, s1)
    end.
Proof.
  intros Hl. rewrite Mapped_value_run. unfold bind at 1.
  assert (Hcall :
    i_Call (interp host (S (S n))) (VRef l) VUndefined [arg 0 args] s
    = (let* _ := log {| ev_native := id; ev_this := VUndefined;
                        ev_args := [arg 0 args] |} in
       call_native (native host id) VUndefined [arg 0 args]) s).
  { simpl. unfold Call, bind at 1, get_object, gets. by rewrite Hl. }
  rewrite Hcall. unfold bind, log, call_native. simpl.
  by destruct (native host id VUndefined [arg 0 args] (heap s)).1.
Qed.

End OtherLayersFacts.

(** * More fuel never changes an answer *)

Lemma answers_le_refl {A} (m : M A) : answers_le m m.
Proof. by intros s c s' H _. Qed.

Lemma answers_le_bind {A B} (m m' : M A) (k k' : A → M B) :
  answers_le m m' → (∀ a, answers_le (k a) (k' a)) →
  answers_le (bind m k) (bind m' k').
Proof.
  intros Hm Hk s c s'. unfold bind.
  destruct (m s) as [[a|e| |] s1] eqn:Hms; intros Hr Hc.
  - rewrite (Hm _ _ _ Hms) by done. by apply Hk.
  - rewrite (Hm _ _ _ Hms) by done. done.
  - rewrite (Hm _ _ _ Hms) by done. done.
  - by injection Hr as <- <-.
Qed.

Ltac answers_le_step :=
  first
    [ apply answers_le_refl
    | apply le_Get; assumption | apply le_GetOwnProperty; assumption
    | apply le_GetPrototypeOf; assumption | apply le_Call; assumption
    | apply le_run; assumption
    | apply answers_le_bind; [|intros ?]
    | match goal with
      | |- answers_le (match ?x with _ => _ end) _ => destruct x
      end ].

Ltac answers_le := repeat answers_le_step.

Section StepMonotone.

Variable host : Host.
Variables I J : Interp.
Hypothesis HIJ : interp_le I J.

Lemma GetV_le V P : answers_le (GetV I V P) (GetV J V P).
Proof. unfold GetV. answers_le. Qed.

Lemma super_get_le home args :
  answers_le (super_get_or_Reflect_get I home args)
    (super_get_or_Reflect_get J home args).
Proof. unfold super_get_or_Reflect_get. answers_le. Qed.

Lemma step_le : interp_le (step host I) (step host J).
Proof.
  split; simpl.
  - intros O P R. unfold Get. answers_le.
  - intros O P. unfold GetOwnProperty. answers_le.
  - intros O. unfold GetPrototypeOf. answers_le.
  - intros F this args. unfold Call. answers_le.
  - intros code this args. destruct code; simpl.
    + answers_le.
    + unfold Reflect_get. answers_le.
    + unfold TargetAsThis_get.
      apply answers_le_bind; [apply super_get_le|]. intros property.
      answers_le; try apply GetV_le.
    + unfold DefaultToPrimitive_get.
      apply answers_le_bind; [apply super_get_le|]. intros property.
      answers_le.
    + unfold DefaultToStringTag_get, Object_getPrototypeOf.
      apply answers_le_bind; [apply super_get_le|]. intros property.
      answers_le; try apply GetV_le.
    + unfold AllowGetTarget_get. answers_le; try apply super_get_le.
    + unfold wrappedFunction. answers_le.
    + unfold toPrimitive. answers_le; try apply GetV_le.
    + unfold Mapped_value. answers_le.
Qed.

End StepMonotone.

Lemma bottom_le J : interp_le bottom J.
Proof. split; intros; intros s c s' [= <- <-]; done. Qed.

Lemma interp_le_succ host n : interp_le (interp host n) (interp host (S n)).
Proof.
  induction n as [|n IH]; [apply bottom_le|].
  change (interp_le (step host (interp host n))
            (step host (interp host (S n)))).
  by apply step_le.
Qed.

Lemma interp_le_refl I : interp_le I I.
Proof. split; intros; apply answers_le_refl. Qed.

Lemma interp_le_trans I J K : interp_le I J → interp_le J K → interp_le I K.
Proof.
  intros HIJ HJK.
  split; intros; intros s c s' Hr Hc.
  - apply (le_Get _ _ HJK); [|done]. by apply (le_Get _ _ HIJ).
  - apply (le_GetOwnProperty _ _ HJK); [|done].
    by apply (le_GetOwnProperty _ _ HIJ).
  - apply (le_GetPrototypeOf _ _ HJK); [|done].
    by apply (le_GetPrototypeOf _ _ HIJ).
  - apply (le_Call _ _ HJK); [|done]. by apply (le_Call _ _ HIJ).
  - apply (le_run _ _ HJK); [|done]. by apply (le_run _ _ HIJ).
Qed.

Lemma interp_mono host n m : n ≤ m → interp_le (interp host n) (interp host m).
Proof.
  induction 1 as [|m _ IH]; [apply interp_le_refl|].
  eapply interp_le_trans; [exact IH | apply interp_le_succ].
Qed.

(** * A new class changes nothing for code that does not mention it *)

Section Unaffected.

Variables (b : nat) (cl : Class).
Implicit Types (s : State).

Lemma unaffected_weaken {A} (P Q : A → Prop) (m : M A) :
  (∀ a, P a → Q a) → unaffected b cl P m → unaffected b cl Q m.
Proof.
  intros HPQ Hm s Hs. destruct (Hm s Hs) as (He & Hc & HP).
  split; [done|]. split; [done|]. intros a Ha. by apply HPQ, HP.
Qed.

Lemma unaffected_ret {A} (P : A → Prop) (a : A) :
  P a → unaffected b cl P (ret a).
Proof.
  intros HP s Hs. split; [done|]. split; [done|]. by intros a' [= <-].
Qed.

Lemma unaffected_throw {A} (P : A → Prop) e : unaffected b cl P (throw e).
Proof. intros s Hs. by split; [|split]. Qed.

Lemma unaffected_unsupported {A} (P : A → Prop) :
  unaffected b cl P unsupported.
Proof. intros s Hs. by split; [|split]. Qed.

Lemma unaffected_out_of_fuel {A} (P : A → Prop) :
  unaffected b cl P out_of_fuel.
Proof. intros s Hs. by split; [|split]. Qed.

Lemma unaffected_bind {A B} (P : A → Prop) (Q : B → Prop) (m : M A)
    (k : A → M B) :
  unaffected b cl P m →
  (∀ a, P a → unaffected b cl Q (k a)) →
  unaffected b cl Q (bind m k).
Proof.
  intros Hm Hk s Hs. destruct (Hm s Hs) as (He & Hc & HP).
  unfold bind. rewrite He.
  destruct (m s) as [[a|e| |] s1] eqn:Hms; simpl in *;
    try by split; [|split].
  by apply Hk; [apply HP|].
Qed.

Lemma unaffected_gets {A} (P : A → Prop) (f : State → A) :
  (∀ s, closed b s → f (extend cl s) = f s ∧ P (f s)) →
  unaffected b cl P (gets f).
Proof.
  intros Hf s Hs. destruct (Hf s Hs) as [He HP]. unfold gets. rewrite He.
  split; [done|]. split; [done|]. by intros a [= <-].
Qed.

Lemma closed_append s ext :
  closed b s → heap_below b ext → closed b (set_heap (heap s ++ ext) s).
Proof.
  intros (Hl & Hh & Hc) Hext. repeat split; [done| |done].
  by apply Forall_app.
Qed.

Lemma unaffected_alloc o :
  obj_below b o = true → unaffected b cl (λ _, True) (alloc o).
Proof.
  intros Ho s Hs. split; [done|]. split; [|done].
  apply closed_append; [done|]. by repeat constructor.
Qed.

Lemma unaffected_log ev : unaffected b cl (λ _, True) (log ev).
Proof. intros s Hs. by split; [|split]. Qed.

Lemma unaffected_get_object l :
  unaffected b cl
    (λ o : option Obj, ∀ x, o = Some x → obj_below b x = true)
    (get_object l).
Proof.
  apply unaffected_gets. intros s (_ & Hh & _). split; [done|].
  intros x Hx. by eapply (Forall_lookup_1 _ _ _ _ Hh).
Qed.

Lemma lookup_method_below cs c name g :
  classes_below b cs → lookup_method cs c name = Some g →
  code_below b g = true.
Proof.
  intros Hcs. revert c. induction Hcs as [|cl' older Hcl _ IH]; intros c;
    simpl; [done|].
  case_decide; [|apply IH].
  destruct (methods cl' !! name) as [m|] eqn:Hm.
  - intros [= <-]. by apply (Hcl _ _ Hm).
  - destruct (parent cl'); [apply IH|done].
Qed.

Lemma super_lookup_below cs home name g :
  classes_below b cs → super_lookup cs home name = Some g →
  code_below b g = true.
Proof.
  intros Hcs. induction Hcs as [|cl' older Hcl Holder IH]; simpl; [done|].
  case_decide; [|apply IH].
  destruct (parent cl'); [|done]. by apply lookup_method_below.
Qed.

Lemma unaffected_get_trap handler name :
  unaffected b cl
    (λ trap : option Code, ∀ g, trap = Some g → code_below b g = true)
    (get_trap handler name).
Proof.
  unfold get_trap. destruct handler; try apply unaffected_unsupported.
  eapply unaffected_bind; [apply unaffected_get_object|].
  intros [[| |c]|] Ho; try apply unaffected_unsupported.
  apply unaffected_gets. intros s (Hl & _ & Hc).
  specialize (Ho _ eq_refl). simpl in Ho. apply bool_decide_eq_true in Ho.
  split.
  - apply lookup_method_cons. lia.
  - intros g Hg. by eapply lookup_method_below.
Qed.

Lemma unaffected_call_native (f : NativeFn) this args :
  (∀ h, heap_below b h → heap_below b (f this args h).2) →
  unaffected b cl (λ _, True) (call_native f this args).
Proof.
  intros Hf s Hs. unfold call_native. simpl.
  assert (Hc : closed b (set_heap (heap s ++ (f this args (heap s)).2) s)).
  { apply closed_append; [done|]. apply Hf. by destruct Hs as (_ & ? & _). }
  by destruct (f this args (heap s)).1; (split; [|split]).
Qed.

Lemma unaffected_new_function host code name len :
  code_below b code = true →
  unaffected b cl (λ _, True) (new_function host code name len).
Proof.
  intros Hcode s Hs. split; [done|]. split; [|done].
  apply closed_append; [done|]. by repeat constructor.
Qed.

Lemma unaffected_defineProperty O P v w :
  unaffected b cl (λ _, True) (Object_defineProperty O P v w).
Proof.
  unfold Object_defineProperty. destruct O; try apply unaffected_throw.
  eapply unaffected_bind; [apply unaffected_get_object|].
  intros [[proto props call| |]|] Ho; try apply unaffected_unsupported.
  match goal with |- context [if ?x then _ else _] => destruct x end;
    [|apply unaffected_throw].
  intros s (Hl & Hh & Hc). split; [done|]. split; [|done].
  split; [done|]. split; [|done]. simpl.
  apply Forall_insert; [done|]. exact (Ho _ eq_refl).
Qed.

End Unaffected.

Section StepUnaffected.

Variables (host : Host) (b : nat) (cl : Class) (rec : Interp).
Hypothesis Hhost : host_below b host.
Hypothesis Hrec : unaffected_interp b cl rec.

Ltac unaffected_rec :=
  first
    [ apply (u_Get _ _ _ Hrec) | apply (u_GetOwnProperty _ _ _ Hrec)
    | apply (u_GetPrototypeOf _ _ _ Hrec) | apply (u_Call _ _ _ Hrec)
    | apply unaffected_throw | apply unaffected_unsupported
    | apply unaffected_out_of_fuel | (apply unaffected_ret; done) ].

Lemma unaffected_GetV V P : unaffected b cl (λ _, True) (GetV rec V P).
Proof. unfold GetV. destruct V; unaffected_rec. Qed.

Lemma unaffected_typeof_function v :
  unaffected b cl (λ _, True) (typeof_function v).
Proof. apply unaffected_gets. by intros s Hs. Qed.

Lemma unaffected_super_get home args :
  home < b →
  unaffected b cl (λ _, True) (super_get_or_Reflect_get rec home args).
Proof.
  intros Hhome. unfold super_get_or_Reflect_get.
  eapply unaffected_bind
    with (P := λ og : option Code, ∀ g, og = Some g → code_below b g = true).
  - apply unaffected_gets. intros s (Hl & _ & Hc). split.
    + apply super_lookup_cons. lia.
    + intros g Hg. by eapply super_lookup_below.
  - intros [g|] Hg; apply (u_run _ _ _ Hrec); [by apply Hg|done].
Qed.

Lemma unaffected_Get O P R : unaffected b cl (λ _, True) (Get rec O P R).
Proof.
  unfold Get. destruct O; try apply unaffected_unsupported.
  eapply unaffected_bind; [apply unaffected_get_object|].
  intros [[proto props call|target handler callable|]|] Ho;
    try apply unaffected_unsupported.
  - destruct (own P props); [by apply unaffected_ret|].
    destruct proto; unaffected_rec.
  - eapply unaffected_bind; [apply unaffected_get_trap|].
    intros [code|] Hcode; [|unaffected_rec].
    eapply unaffected_bind;
      [apply (u_run _ _ _ Hrec); by apply Hcode|].
    intros trapResult _.
    eapply unaffected_bind; [apply (u_GetOwnProperty _ _ _ Hrec)|].
    intros [d|] _; [|unaffected_rec].
    match goal with |- context [if ?x then _ else _] => destruct x end;
      unaffected_rec.
Qed.

Lemma unaffected_GetOwnProperty O P :
  unaffected b cl (λ _, True) (GetOwnProperty rec O P).
Proof.
  unfold GetOwnProperty. destruct O; try apply unaffected_unsupported.
  eapply unaffected_bind; [apply unaffected_get_object|].
  intros [[proto props call|target handler callable|]|] Ho;
    try apply unaffected_unsupported; try by apply unaffected_ret.
  eapply unaffected_bind; [apply unaffected_get_trap|].
  intros [code|] Hcode; unaffected_rec.
Qed.

Lemma unaffected_GetPrototypeOf O :
  unaffected b cl (λ _, True) (GetPrototypeOf rec O).
Proof.
  unfold GetPrototypeOf. destruct O; try apply unaffected_unsupported.
  eapply unaffected_bind; [apply unaffected_get_object|].
  intros [[proto props call|target handler callable|]|] Ho;
    try apply unaffected_unsupported; try by apply unaffected_ret.
  eapply unaffected_bind; [apply unaffected_get_trap|].
  intros [code|] Hcode; [|unaffected_rec].
  eapply unaffected_bind;
    [apply (u_run _ _ _ Hrec); by apply Hcode|].
  intros handlerProto _.
  destruct handlerProto; try apply unaffected_throw;
    (destruct target; try apply unaffected_unsupported;
     (eapply unaffected_bind; [apply unaffected_get_object|]);
     intros [[| |]|] _; unaffected_rec).
Qed.

Lemma unaffected_Call F this args :
  unaffected b cl (λ _, True) (Call rec F this args).
Proof.
  unfold Call. destruct F; try apply unaffected_throw.
  eapply unaffected_bind; [apply unaffected_get_object|].
  intros [[proto props [code|]|target handler [|]|]|] Ho;
    try apply unaffected_unsupported; try apply unaffected_throw.
  - apply (u_run _ _ _ Hrec). exact (Ho _ eq_refl).
  - eapply unaffected_bind; [apply unaffected_get_trap|].
    intros [code|] Hcode; unaffected_rec.
Qed.

Lemma unaffected_run code this args :
  code_below b code = true →
  unaffected b cl (λ _, True) (run host rec code this args).
Proof.
  intros Hcode.
  destruct code as [id| |home|home|home|home|property receiver target
                   |target|mapper originalValue]; simpl in *.
  - eapply unaffected_bind; [apply unaffected_log|]. intros _ _.
    apply unaffected_call_native. apply Hhost. eauto.
  - unfold Reflect_get.
    eapply unaffected_bind with (P := λ _, True);
      [apply unaffected_gets; by intros s Hs|].
    intros [|] _; [|unaffected_rec].
    destruct (to_key _); unaffected_rec.
  - apply bool_decide_eq_true in Hcode. unfold TargetAsThis_get.
    eapply unaffected_bind; [by apply unaffected_super_get|].
    intros property _.
    eapply unaffected_bind; [apply unaffected_typeof_function|].
    intros [|] _; [|unaffected_rec].
    eapply unaffected_bind; [by apply unaffected_new_function|].
    intros wrappedFunction _.
    eapply unaffected_bind; [apply unaffected_GetV|]. intros name _.
    eapply unaffected_bind; [apply unaffected_defineProperty|].
    intros _ _. unaffected_rec.
  - apply bool_decide_eq_true in Hcode. unfold DefaultToPrimitive_get.
    eapply unaffected_bind; [by apply unaffected_super_get|].
    intros property _.
    destruct (strict_equals property VUndefined); [|unaffected_rec].
    destruct (strict_equals _ _); [|unaffected_rec].
    by apply unaffected_alloc.
  - apply bool_decide_eq_true in Hcode. unfold DefaultToStringTag_get.
    eapply unaffected_bind; [by apply unaffected_super_get|].
    intros property _.
    destruct (strict_equals property VUndefined); [|unaffected_rec].
    destruct (strict_equals _ _); [|unaffected_rec].
    eapply unaffected_bind with (P := λ _, True).
    { unfold Object_getPrototypeOf. destruct (arg 0 args); unaffected_rec. }
    intros prototype _.
    eapply unaffected_bind with (P := λ _, True).
    { destruct (is_nullish prototype); [unaffected_rec|].
      apply unaffected_GetV. }
    intros constructor _.
    eapply unaffected_bind; [apply unaffected_typeof_function|].
    intros [|] _; [apply unaffected_GetV|unaffected_rec].
  - apply bool_decide_eq_true in Hcode. unfold AllowGetTarget_get.
    destruct (strict_equals _ _); [unaffected_rec|].
    by apply unaffected_super_get.
  - unfold wrappedFunction. unaffected_rec.
  - unfold toPrimitive.
    destruct (strict_equals _ _);
      [apply unaffected_call_native; apply Hhost; eauto|].
    destruct (strict_equals _ _);
      [apply unaffected_call_native; apply Hhost; eauto|].
    destruct (strict_equals _ _); [|unaffected_rec].
    eapply unaffected_bind; [apply unaffected_GetV|]. intros valueOf _.
    unaffected_rec.
  - unfold Mapped_value.
    eapply unaffected_bind; [apply (u_Call _ _ _ Hrec)|]. intros mapped _.
    by apply (u_run _ _ _ Hrec).
Qed.

Lemma step_unaffected : unaffected_interp b cl (step host rec).
Proof.
  split; simpl.
  - apply unaffected_Get.
  - apply unaffected_GetOwnProperty.
  - apply unaffected_GetPrototypeOf.
  - apply unaffected_Call.
  - apply unaffected_run.
Qed.

End StepUnaffected.

Lemma bottom_unaffected b cl : unaffected_interp b cl bottom.
Proof. split; intros; apply unaffected_out_of_fuel. Qed.

(** Running code in a closed state goes the same way with one more class
    in the table. *)
Lemma interp_unaffected host b cl n :
  host_below b host → unaffected_interp b cl (interp host n).
Proof.
  intros Hhost. induction n as [|n IH]; simpl; [apply bottom_unaffected|].
  by apply step_unaffected.
Qed.

(** * Facts about the decorators *)

Section DecoratorFacts.

Implicit Types (l : Layer) (c : ClassRef) (s : State).

Lemma class_extends_same_behaviour host c body s :
  closed (length (classes s)) s →
  host_below (length (classes s)) host →
  same_behaviour host s (class_extends c body s).2.
Proof.
  intros Hclosed Hhost n.
  set (cl := {| parent := Some c; methods := body (length (classes s)) |}).
  change (class_extends c body s).2 with (extend cl s).
  pose proof (interp_unaffected host (length (classes s)) cl n Hhost) as Hn.
  pose proof (interp_preserving host (length (heap s)) n) as Hp.
  split; [|split].
  - intros O P R.
    destruct (u_Get _ _ _ Hn O P R s Hclosed) as (-> & _).
    destruct (i_Get (interp host n) O P R s) as [r s1] eqn:Hr.
    destruct (p_Get _ _ Hp _ _ _ _ _ _ (le_n _) Hr) as (Hc & _).
    simpl. unfold extend. by rewrite Hc.
  - intros F this args.
    destruct (u_Call _ _ _ Hn F this args s Hclosed) as (-> & _).
    destruct (i_Call (interp host n) F this args s) as [r s1] eqn:Hr.
    destruct (p_Call _ _ Hp _ _ _ _ _ _ (le_n _) Hr) as (Hc & _).
    simpl. unfold extend. by rewrite Hc.
  - intros O.
    destruct (u_GetPrototypeOf _ _ _ Hn O s Hclosed) as (-> & _).
    destruct (i_GetPrototypeOf (interp host n) O s) as [r s1] eqn:Hr.
    destruct (p_GetPrototypeOf _ _ Hp _ _ _ _ (le_n _) Hr) as (Hc & _).
    simpl. unfold extend. by rewrite Hc.
Qed.

Lemma class_extends_new_type host c body s :
  c < length (classes s) →
  ∃ c' s',
    class_extends c body s = (Normal c', s')
    ∧ c' ≠ c
    ∧ (∀ c0 name,
         c0 < length (classes s) →
         lookup_method (classes s') c0 name
         = lookup_method (classes s) c0 name
         ∧ super_lookup (classes s') c0 name
           = super_lookup (classes s) c0 name)
    ∧ (closed (length (classes s)) s →
       host_below (length (classes s)) host →
       same_behaviour host s s').
Proof.
  intros Hc. eexists _, _. split; [done|]. split; [lia|]. split.
  - intros c0 name Hc0.
    split; [by apply lookup_method_cons|by apply super_lookup_cons].
  - apply class_extends_same_behaviour.
Qed.

Lemma Reflect_owns_standard s name :
  KString name ∈ Reflect_standardKeys →
  Reflect_hasOwnProperty (Reflect_ownKeys s) name = true.
Proof.
  intros Hin. apply bool_decide_eq_true. apply elem_of_app. by left.
Qed.

Lemma Reflect_owns_get s :
  Reflect_hasOwnProperty (Reflect_ownKeys s) "get" = true.
Proof.
  apply Reflect_owns_standard.
  apply (bool_decide_eq_true_1 _). vm_compute. reflexivity.
Qed.

Lemma Mapped_lookup mapper c s name :
  lookup_method (classes (Mapped mapper c s).2) c name
  = match lookup_method (classes s) c name with
    | Some m =>
        if decide (name = "constructor") then Some m
        else Some (Mapped_decorator (Reflect_ownKeys s) mapper name m)
    | None => None
    end.
Proof. apply lookup_method_redefined. Qed.

Lemma decorate_total l c s :
  ∃ c' s',
    decorate l c s = (Normal c', s')
    ∧ heap s' = heap s
    ∧ trace s' = trace s
    ∧ length (classes s) ≤ length (classes s')
    ∧ (c < length (classes s) → c' < length (classes s')).
Proof.
  destruct l; simpl;
    try (eexists _, _; split; [done|]; simpl; repeat split; lia).
  eexists _, _. split; [done|]. simpl.
  rewrite update_methods_length. repeat split; lia.
Qed.

Lemma decorated_total ls c s :
  ∃ c' s',
    decorated ls c s = (Normal c', s')
    ∧ heap s' = heap s
    ∧ trace s' = trace s
    ∧ length (classes s) ≤ length (classes s')
    ∧ (c < length (classes s) → c' < length (classes s')).
Proof.
  induction ls as [|l ls IH]; simpl.
  - eexists _, _. by repeat split.
  - destruct IH as (c1 & s1 & Hd & Hh & Ht & Hlen & Hc).
    destruct (decorate_total l c1 s1) as (c2 & s2 & Hd2 & Hh2 & Ht2 & Hlen2 & Hc2).
    exists c2, s2. rewrite (bind_Normal _ _ _ _ _ Hd).
    repeat split; try congruence; try lia; auto.
Qed.

Lemma decorated_app ls1 ls2 c s :
  decorated (ls1 ++ ls2) c s
  = (let* c' := decorated ls2 c in decorated ls1 c') s.
Proof.
  revert s. induction ls1 as [|l ls1 IH]; intros s; simpl.
  - unfold bind. by destruct (decorated ls2 c s) as [[]].
  - unfold bind at 1. rewrite IH. unfold bind.
    by destruct (decorated ls2 c s) as [[]]; [destruct (decorated ls1 _ _) as [[]]|..].
Qed.

End DecoratorFacts.

(** * Reading the reserved key through a stack of layers *)

Lemma super_get_resolved host n home args s :
  super_get_or_Reflect_get (interp host n) home args s
  = i_run (interp host n)
      (default CReflect_get (super_lookup (classes s) home "get"))
      VUndefined args s.
Proof.
  unfold super_get_or_Reflect_get, bind, gets.
  by destruct (super_lookup (classes s) home "get").
Qed.

Section Exposes.

Variable host : Host.

Lemma exposes_cons cl cs wraps g d :
  exposes cs wraps g d → exposes (cl :: cs) wraps g d.
Proof.
  induction 1 as [home d|home g d Hw Hh Hs _ IH|home g d Hh Hs _ IH
                 |home g d Hh Hs _ IH].
  - constructor.
  - eapply exposes_TargetAsThis; [done|simpl; lia| |done].
    by rewrite super_lookup_cons.
  - eapply exposes_DefaultToPrimitive; [simpl; lia| |done].
    by rewrite super_lookup_cons.
  - eapply exposes_DefaultToStringTag; [simpl; lia| |done].
    by rewrite super_lookup_cons.
Qed.

Lemma exposes_run cs wraps g d :
  exposes cs wraps g d →
  ∀ s this l receiver n,
    classes s = cs →
    (wraps = true → is_callable (heap s) (VRef l) = false) →
    d < n →
    i_run (interp host n) g this [VRef l; VSymbol getTargetSymbol; receiver] s
    = (Normal (VRef l), s).
Proof.
  induction 1 as [home d|home g d Hw Hh Hs _ IH|home g d Hh Hs _ IH
                 |home g d Hh Hs _ IH];
    intros s this l receiver n Hcs Hcall Hn;
    (destruct n as [|n]; [lia|]).
  - apply AllowGetTarget_get_target.
  - apply TargetAsThis_get_other; [|by apply Hcall].
    rewrite super_get_resolved, Hcs, Hs. simpl. apply IH; [done..|lia].
  - apply DefaultToPrimitive_get_defined; [|done].
    rewrite super_get_resolved, Hcs, Hs. simpl. apply IH; [done..|lia].
  - apply DefaultToStringTag_get_passes; [|by left].
    rewrite super_get_resolved, Hcs, Hs. simpl. apply IH; [done..|lia].
Qed.

Lemma decorated_exposes wraps above :
  (∀ mapper, LMapped mapper ∉ above) →
  (wraps = false → LTargetAsThis ∉ above) →
  ∀ c s g d,
    c < length (classes s) →
    lookup_method (classes s) c "get" = Some g →
    exposes (classes s) wraps g d →
    ∃ c' s' g',
      decorated above c s = (Normal c', s')
      ∧ heap s' = heap s
      ∧ c' < length (classes s')
      ∧ lookup_method (classes s') c' "get" = Some g'
      ∧ exposes (classes s') wraps g' (length above + d).
Proof.
  induction above as [|l above IH]; intros Hm Ht c s g d Hc Hg He.
  - exists c, s, g. by repeat split.
  - destruct (IH (λ m Hin, Hm m (list_elem_of_further _ _ _ Hin))
                (λ Hw Hin, Ht Hw (list_elem_of_further _ _ _ Hin))
                c s g d Hc Hg He)
      as (c1 & s1 & g1 & Hd & Hh & Hc1 & Hg1 & He1).
    simpl. rewrite (bind_Normal _ _ _ _ _ Hd).
    assert (Hsuper : ∀ ms,
      super_lookup ({| parent := Some c1; methods := ms |} :: classes s1)
        (length (classes s1)) "get" = Some g1).
    { intros ms. by rewrite super_lookup_new. }
    destruct l as [| | | |mapper]; simpl.
    + eexists _, _, _. split; [done|]. simpl. repeat split; [done|lia| |].
      * by apply lookup_method_new.
      * destruct wraps; [|by destruct Ht; [|left]].
        eapply exposes_TargetAsThis; [done|simpl; lia|apply Hsuper|].
        by apply exposes_cons.
    + eexists _, _, _. split; [done|]. simpl. repeat split; [done|lia| |].
      * by apply lookup_method_new.
      * eapply exposes_DefaultToPrimitive; [simpl; lia|apply Hsuper|].
        by apply exposes_cons.
    + eexists _, _, _. split; [done|]. simpl. repeat split; [done|lia| |].
      * by apply lookup_method_new.
      * eapply exposes_DefaultToStringTag; [simpl; lia|apply Hsuper|].
        by apply exposes_cons.
    + eexists _, _, _. split; [done|]. simpl. repeat split; [done|lia| |].
      * by apply lookup_method_new.
      * constructor.
    + destruct (Hm mapper). left.
Qed.

End Exposes.

Lemma get_trap_handler s lh cls name :
  heap s !! lh = Some (OHandler cls) →
  get_trap (VRef lh) name s = (Normal (lookup_method (classes s) cls name), s).
Proof. intros Hh. unfold get_trap, bind, get_object, gets. by rewrite Hh. Qed.

Lemma getTarget_exposed host s lp lt lh cls callable g wraps d proto props
    call n :
  heap s !! lp = Some (OProxy (VRef lt) (VRef lh) callable) →
  heap s !! lh = Some (OHandler cls) →
  lookup_method (classes s) cls "get" = Some g →
  exposes (classes s) wraps g d →
  (wraps = true → is_callable (heap s) (VRef lt) = false) →
  heap s !! lt = Some (OObject proto props call) →
  own (KSymbol getTargetSymbol) props = None →
  d + 2 ≤ n →
  getTarget host n (VRef lp) s = (Normal (VRef lt), s).
Proof.
  intros Hp Hh Hg He Hw Ht Hown Hn.
  destruct n as [|[|n]]; [lia..|].
  unfold getTarget, GetV.
  change (i_Get (interp host (S (S n)))) with (Get (interp host (S n))).
  unfold Get. unfold bind at 1, get_object at 1, gets at 1. rewrite Hp.
  rewrite (bind_Normal _ _ _ _ _ (get_trap_handler _ _ _ _ Hh)), Hg.
  rewrite (bind_Normal _ _ _ _ _
             (exposes_run host _ _ _ _ He s (VRef lh) lt (VRef lp) (S n)
                eq_refl Hw ltac:(lia))).
  change (i_GetOwnProperty (interp host (S n)))
    with (GetOwnProperty (interp host n)).
  unfold GetOwnProperty, bind, get_object, gets. rewrite Ht. simpl.
  by rewrite Hown.
Qed.

Lemma proxy_over_result ls root s lt o c' s' :
  heap s !! lt = Some o →
  decorated ls root s = (Normal c', s') →
  heap s' = heap s →
  proxy_over ls root (VRef lt) s
  = (Normal (VRef (S (length (heap s)))),
     set_heap
       (heap s ++ [OHandler c';
                   OProxy (VRef lt) (VRef (length (heap s)))
                     (is_callable (heap s) (VRef lt))]) s').
Proof.
  intros Ht Hd Hh. unfold proxy_over.
  rewrite (bind_Normal _ _ _ _ _ Hd).
  unfold new_handler. unfold bind at 1, alloc at 1.
  unfold new_Proxy, bind, gets, typeof_function, alloc. simpl.
  rewrite Hh.
  rewrite (lookup_app_l _ _ lt) by by eapply lookup_lt_Some.
  rewrite Ht, lookup_app_r by lia. rewrite Nat.sub_diag. simpl.
  rewrite (lookup_app_l _ _ lt) by by eapply lookup_lt_Some.
  rewrite Ht, length_app. simpl. rewrite Nat.add_1_r.
  by rewrite <- (assoc_L (++)).
Qed.

(** C1, amended.  [getTarget] returns exactly the original target when the
    layers stacked above (outside) [AllowGetTarget] contain no [Mapped] layer
    and, for a callable target, no [TargetAsThis] layer; the layers below
    and the root handler class are arbitrary.  The target is an ordinary
    object on which nobody defined the reserved key. *)
Theorem getTarget_returns_target_below_passing_layers host above below root s
    lt proto props call :
  heap s !! lt = Some (OObject proto props call) →
  own (KSymbol getTargetSymbol) props = None →
  (∀ mapper, LMapped mapper ∉ above) →
  (is_Some call → LTargetAsThis ∉ above) →
  getTarget_returns host (above ++ LAllowGetTarget :: below) root (VRef lt) s
    (VRef lt).
Proof.
  intros Ht Hown Hm Hc.
  destruct (decorated_total below root s) as (c1 & s1 & Hd1 & Hh1 & _).
  set (c2 := length (classes s1)).
  set (s2 := set_classes
               ({| parent := Some c1;
                   methods := {[ "get" := CAllowGetTarget_get c2 ]} |}
                  :: classes s1) s1).
  assert (Hd2 : decorated (LAllowGetTarget :: below) root s = (Normal c2, s2)).
  { simpl. by rewrite (bind_Normal _ _ _ _ _ Hd1). }
  set (wraps := bool_decide (call = None)).
  destruct (decorated_exposes wraps above Hm) with (c := c2) (s := s2)
    (g := CAllowGetTarget_get c2) (d := 0)
    as (c3 & s3 & g3 & Hd3 & Hh3 & Hc3 & Hg3 & He3).
  { unfold wraps. intros Hw%bool_decide_eq_false. apply Hc.
    by destruct call. }
  { simpl. lia. }
  { by apply lookup_method_new. }
  { constructor. }
  assert (Hd : decorated (above ++ LAllowGetTarget :: below) root s
               = (Normal c3, s3)).
  { rewrite decorated_app. by rewrite (bind_Normal _ _ _ _ _ Hd2). }
  assert (Hh : heap s3 = heap s).
  { rewrite Hh3. simpl. done. }
  eexists _, _. split; [by eapply proxy_over_result|].
  eexists (length above + 0 + 2), _.
  eapply getTarget_exposed with (wraps := wraps) (d := length above + 0);
    simpl; try done.
  - rewrite lookup_app_r by lia. replace (S _ - _) with 1 by lia. done.
  - rewrite lookup_app_r by lia. by rewrite Nat.sub_diag.
  - intros Hw%bool_decide_eq_true. subst call.
    rewrite (lookup_app_l _ _ lt) by by eapply lookup_lt_Some.
    by rewrite Ht.
  - rewrite (lookup_app_l _ _ lt) by by eapply lookup_lt_Some. done.
Qed.

(** * Stacks without [AllowGetTarget] *)

Section Passes.

Variable host : Host.
Implicit Types (h : Heap) (s : State) (cs : ClassTable).

Lemma heap_grows_refl h : heap_grows h h.
Proof. by intros l o. Qed.

Lemma heap_grows_trans h1 h2 h3 :
  heap_grows h1 h2 → heap_grows h2 h3 → heap_grows h1 h3.
Proof. intros H1 H2 l o Hl. by apply H2, H1. Qed.

Lemma frame_heap_grows s s' :
  frame (length (heap s)) s s' → heap_grows (heap s) (heap s').
Proof.
  intros (_ & _ & H) l o Hl. rewrite H; [done|]. by eapply lookup_lt_Some.
Qed.

Lemma heap_grows_app h ext : heap_grows h (h ++ ext).
Proof. intros l o Hl. by apply lookup_app_l_Some. Qed.

Lemma lacks_key_grows d h h' k v :
  heap_grows h h' → lacks_key d h k v = true → lacks_key d h' k v = true.
Proof.
  intros Hg. revert v. induction d as [|d IH]; intros v; simpl; [done|].
  destruct v as [| | | | | | |l]; try done.
  destruct (h !! l) as [o|] eqn:Hl; [|done].
  rewrite (Hg _ _ Hl). destruct o as [proto props call| |]; [|done..].
  intros [Hown Hp]%andb_true_iff. rewrite Hown. simpl.
  destruct proto; try done. by apply IH.
Qed.

Lemma lacks_key_own d h k l :
  lacks_key d h k (VRef l) = true →
  ∃ proto props call,
    h !! l = Some (OObject proto props call) ∧ own k props = None.
Proof.
  destruct d as [|d]; simpl; [done|].
  destruct (h !! l) as [[proto props call| |]|]; try done.
  intros [Hown _]%andb_true_iff. apply bool_decide_eq_true in Hown.
  by eexists _, _, _.
Qed.

Lemma lacks_key_object d h k v :
  lacks_key d h k v = true → ∃ l, v = VRef l ∧ is_object h v = true.
Proof.
  destruct d as [|d]; simpl; [done|].
  destruct v as [| | | | | | |l]; try done.
  destruct (h !! l) as [o|] eqn:Hl; [|done]. intros _. exists l.
  split; [done|]. simpl. rewrite Hl. by apply bool_decide_eq_true_2.
Qed.

(** The host's own read of a key nobody defined. *)
Lemma Get_lacks_key d s k v receiver n :
  lacks_key d (heap s) k v = true →
  d ≤ n →
  i_Get (interp host n) v k receiver s = (Normal VUndefined, s).
Proof.
  revert v n. induction d as [|d IH]; intros v n; simpl; [done|].
  destruct v as [| | | | | | |l]; try done.
  destruct (heap s !! l) as [[proto props call| |]|] eqn:Hl; try done.
  intros [Hown Hp]%andb_true_iff Hn. apply bool_decide_eq_true in Hown.
  destruct n as [|n]; [lia|]. simpl.
  unfold Get, bind, get_object, gets. rewrite Hl, Hown.
  destruct proto; try done. apply IH; [done|lia].
Qed.

Lemma Reflect_get_answers_undefined h0 :
  answers_undefined host h0 CReflect_get.
Proof.
  intros s this target receiver d _ Hlacks.
  destruct (lacks_key_object _ _ _ _ Hlacks) as (l & -> & Hobj).
  exists (S d), s. simpl. unfold Reflect_get, bind, gets. simpl.
  simpl in Hobj. rewrite Hobj. by apply Get_lacks_key with (d := d).
Qed.

Lemma passes_cons h0 cl cs b og :
  b < length cs → passes host h0 cs b og → passes host h0 (cl :: cs) b og.
Proof.
  intros Hb. induction 1 as [|g Hg|home Hh _ IH|home Hh _ IH|home Hh _ IH
                            |mapper g Hm _ IH].
  - constructor.
  - by constructor.
  - constructor; [done|]. by rewrite super_lookup_cons by lia.
  - constructor; [done|]. by rewrite super_lookup_cons by lia.
  - constructor; [done|]. by rewrite super_lookup_cons by lia.
  - by constructor.
Qed.

Lemma passes_update h0 cs c f b og :
  b ≤ c →
  passes host h0 cs b og → passes host h0 (update_methods cs c f) b og.
Proof.
  intros Hb. induction 1 as [|g Hg|home Hh _ IH|home Hh _ IH|home Hh _ IH
                            |mapper g Hm _ IH].
  - constructor.
  - by constructor.
  - constructor; [done|]. by rewrite super_lookup_update by lia.
  - constructor; [done|]. by rewrite super_lookup_update by lia.
  - constructor; [done|]. by rewrite super_lookup_update by lia.
  - by constructor.
Qed.

Lemma passes_bound h0 cs b b' og :
  b ≤ b' → passes host h0 cs b og → passes host h0 cs b' og.
Proof.
  intros Hb. induction 1 as [|g Hg|home Hh _ IH|home Hh _ IH|home Hh _ IH
                            |mapper g Hm _ IH].
  - constructor.
  - by constructor.
  - constructor; [lia|done].
  - constructor; [lia|done].
  - constructor; [lia|done].
  - by constructor.
Qed.

Lemma passes_run h0 cs b og :
  passes host h0 cs b og →
  ∀ s this target receiver d,
    classes s = cs →
    heap_grows h0 (heap s) →
    lacks_key d (heap s) (KSymbol getTargetSymbol) target = true →
    ∃ n s',
      i_run (interp host n) (default CReflect_get og) this
        [target; VSymbol getTargetSymbol; receiver] s
      = (Normal VUndefined, s').
Proof.
  induction 1 as [|g Hg|home Hh _ IH|home Hh _ IH|home Hh _ IH
                 |mapper g Hm _ IH];
    intros s this target receiver d Hcs Hgrows Hlacks; simpl.
  - by eapply Reflect_get_answers_undefined.
  - by eapply Hg.
  - destruct (IH s VUndefined target receiver d Hcs Hgrows Hlacks)
      as (n & s' & Hrun).
    exists (S n), s'. apply TargetAsThis_get_other; [|done].
    by rewrite super_get_resolved, Hcs.
  - destruct (IH s VUndefined target receiver d Hcs Hgrows Hlacks)
      as (n & s' & Hrun).
    exists (S n), s'. apply DefaultToPrimitive_get_other_key; [|done].
    by rewrite super_get_resolved, Hcs.
  - destruct (IH s VUndefined target receiver d Hcs Hgrows Hlacks)
      as (n & s' & Hrun).
    exists (S n), s'. apply DefaultToStringTag_get_passes; [|by right].
    by rewrite super_get_resolved, Hcs.
  - destruct (Hm s target d Hgrows Hlacks)
      as (n1 & mapped & s1 & d1 & Hcall & Hlacks1).
    pose proof (p_Call _ _ (interp_preserving host (length (heap s)) n1)
                  _ _ _ _ _ _ (le_n _) Hcall) as Hframe.
    destruct (IH s1 VUndefined mapped receiver d1) as (n2 & s2 & Hrun);
      [by destruct Hframe as (-> & _)| |done|].
    { eapply heap_grows_trans; [done|]. by apply frame_heap_grows. }
    exists (S (n1 `max` n2)), s2. rewrite Mapped_value_run. simpl.
    erewrite bind_Normal; last first.
    { eapply (le_Call _ _ (interp_mono host n1 (n1 `max` n2) ltac:(lia)));
        [exact Hcall|done]. }
    eapply (le_run _ _ (interp_mono host n2 (n1 `max` n2) ltac:(lia))); [exact Hrun|done].
Qed.

Lemma decorated_passes h0 ls :
  LAllowGetTarget ∉ ls →
  (∀ mapper, LMapped mapper ∈ ls → maps_plain_targets host h0 mapper) →
  ∀ c s,
    c < length (classes s) →
    passes host h0 (classes s) c (lookup_method (classes s) c "get") →
    ∃ c' s',
      decorated ls c s = (Normal c', s')
      ∧ heap s' = heap s
      ∧ c' < length (classes s')
      ∧ passes host h0 (classes s') c'
          (lookup_method (classes s') c' "get").
Proof.
  induction ls as [|l ls IH]; intros Hag Hm c s Hc Hp.
  - exists c, s. by repeat split.
  - destruct (IH (λ Hin, Hag (list_elem_of_further _ _ _ Hin))
                (λ m Hin, Hm m (list_elem_of_further _ _ _ Hin))
                c s Hc Hp)
      as (c1 & s1 & Hd & Hh & Hc1 & Hp1).
    simpl. rewrite (bind_Normal _ _ _ _ _ Hd).
    assert (Hsuper : ∀ ms,
      passes host h0
        ({| parent := Some c1; methods := ms |} :: classes s1)
        (length (classes s1))
        (super_lookup ({| parent := Some c1; methods := ms |} :: classes s1)
           (length (classes s1)) "get")).
    { intros ms. rewrite super_lookup_new.
      eapply passes_bound; [|apply passes_cons; [|done]]; lia. }
    destruct l as [| | | |mapper]; simpl.
    + eexists _, _. split; [done|]. repeat split; [done|simpl; lia|].
      cbn [classes set_classes]. erewrite lookup_method_new by done.
      by constructor.
    + eexists _, _. split; [done|]. repeat split; [done|simpl; lia|].
      cbn [classes set_classes]. erewrite lookup_method_new by done.
      by constructor.
    + eexists _, _. split; [done|]. repeat split; [done|simpl; lia|].
      cbn [classes set_classes]. erewrite lookup_method_new by done.
      by constructor.
    + destruct Hag. left.
    + eexists _, _. split; [done|]. cbn [classes heap set_classes].
      rewrite update_methods_length. repeat split; [done..|].
      rewrite lookup_method_redefined.
      destruct (lookup_method (classes s1) c1 "get") as [g|] eqn:Hg;
        [|constructor].
      rewrite decide_False by done. unfold Mapped_decorator.
      rewrite Reflect_owns_get.
      constructor; [apply Hm; left|]. by apply passes_update.
Qed.

Lemma getTarget_passes h0 b s lp lt lh cls callable d :
  heap s !! lp = Some (OProxy (VRef lt) (VRef lh) callable) →
  heap s !! lh = Some (OHandler cls) →
  passes host h0 (classes s) b (lookup_method (classes s) cls "get") →
  heap_grows h0 (heap s) →
  lacks_key d (heap s) (KSymbol getTargetSymbol) (VRef lt) = true →
  ∃ n s', getTarget host n (VRef lp) s = (Normal VUndefined, s').
Proof.
  intros Hp Hh Hpasses Hgrows Hlacks.
  destruct (lookup_method (classes s) cls "get") as [g|] eqn:Hg.
  - destruct (passes_run _ _ _ _ Hpasses s (VRef lh) (VRef lt) (VRef lp) d
                eq_refl Hgrows Hlacks) as (n & s' & Hrun).
    simpl in Hrun.
    pose proof (p_run _ _ (interp_preserving host (length (heap s)) n)
                  _ _ _ _ _ _ (le_n _) Hrun) as Hframe.
    destruct (lacks_key_own _ _ _ _ Hlacks)
      as (proto & props & call & Ht & Hown).
    apply (frame_heap_grows _ _ Hframe) in Ht.
    exists (S (S n)), s'. unfold getTarget, GetV.
    change (i_Get (interp host (S (S n)))) with (Get (interp host (S n))).
    unfold Get. unfold bind at 1, get_object at 1, gets at 1. rewrite Hp.
    rewrite (bind_Normal _ _ _ _ _ (get_trap_handler _ _ _ _ Hh)), Hg.
    erewrite bind_Normal; last first.
    { eapply (le_run _ _ (interp_le_succ host n)); [exact Hrun|done]. }
    change (i_GetOwnProperty (interp host (S n)))
      with (GetOwnProperty (interp host n)).
    unfold GetOwnProperty, bind, get_object, gets. rewrite Ht. simpl.
    by rewrite Hown.
  - exists (S d), s. unfold getTarget, GetV.
    change (i_Get (interp host (S d))) with (Get (interp host d)).
    unfold Get. unfold bind at 1, get_object at 1, gets at 1. rewrite Hp.
    rewrite (bind_Normal _ _ _ _ _ (get_trap_handler _ _ _ _ Hh)), Hg.
    by apply Get_lacks_key with (d := d).
Qed.

End Passes.

(** C8, amended.  Without [AllowGetTarget] among the layers, [getTarget] of
    the proxy is [undefined], provided that nothing underneath answers the
    reserved key: the target is an ordinary object whose prototype chain
    has ordinary objects only, none with the key; the root handler class
    inherits no [get] or one that answers [undefined] for the key on such
    objects; the mappers of [Mapped] layers return, and return objects of
    that kind. *)
Theorem getTarget_undefined_without_AllowGetTarget host ls root s target d :
  LAllowGetTarget ∉ ls →
  root < length (classes s) →
  (∀ g, lookup_method (classes s) root "get" = Some g →
        answers_undefined host (heap s) g) →
  (∀ mapper, LMapped mapper ∈ ls → maps_plain_targets host (heap s) mapper) →
  lacks_key d (heap s) (KSymbol getTargetSymbol) target = true →
  getTarget_returns host ls root target s VUndefined.
Proof.
  intros Hag Hroot Hget Hmappers Hlacks.
  destruct (decorated_passes host (heap s) ls Hag Hmappers root s Hroot)
    as (c & s1 & Hd & Hh & Hc & Hpasses).
  { destruct (lookup_method (classes s) root "get") as [g|] eqn:Hg;
      [|constructor].
    constructor. by apply Hget. }
  destruct (lacks_key_object _ _ _ _ Hlacks) as (lt & -> & _).
  destruct (lacks_key_own _ _ _ _ Hlacks) as (proto & props & call & Ht & Hown).
  eexists _, _. split; [by eapply proxy_over_result|].
  eapply getTarget_passes with (h0 := heap s) (d := d); simpl.
  - rewrite lookup_app_r by lia. replace (S _ - _) with 1 by lia. done.
  - rewrite lookup_app_r by lia. by rewrite Nat.sub_diag.
  - done.
  - apply heap_grows_app.
  - eapply lacks_key_grows; [|done]. apply heap_grows_app.
Qed.

(** * The layers, specified *)

Lemma with_wrapper_frame host n name property receiver target s1 s2 :
  GetV (interp host n) property (KString "name")
    (with_wrappedFunction host property receiver target s1)
    = (Normal name, s2) →
  frame (length (heap s1) + 2)
    (with_wrappedFunction host property receiver target s1) s2.
Proof.
  intros Hname.
  assert (Hpres : preserves_at (length (heap s1) + 2)
                    (GetV (interp host n) property (KString "name"))).
  { apply preserves_GetV, interp_preserving. }
  eapply Hpres; [|exact Hname].
  unfold with_wrappedFunction. simpl. rewrite length_app. simpl. lia.
Qed.

Lemma with_wrapper_lookup host n name property receiver target s1 s2 :
  GetV (interp host n) property (KString "name")
    (with_wrappedFunction host property receiver target s1)
    = (Normal name, s2) →
  heap (with_wrapper host name property receiver target s1 s2)
    !! length (heap s1)
  = Some (wrapper host (length (heap s1)) name property receiver target)
  ∧ length (heap s1) + 2
    ≤ length (heap (with_wrapper host name property receiver target s1 s2)).
Proof.
  intros Hname.
  destruct (with_wrapper_frame _ _ _ _ _ _ _ _ Hname) as (_ & Hlen & _).
  unfold with_wrappedFunction in Hlen. simpl in Hlen.
  rewrite length_app in Hlen. simpl in Hlen.
  unfold with_wrapper. simpl. rewrite length_insert. split; [|lia].
  apply list_lookup_insert_eq. lia.
Qed.





(** C9.  An exception raised by what a layer delegates to comes out of the
    layer as it is, in the state in which it was raised.  For the four [get]
    layers that is the [get] of the layer below ([AllowGetTarget] delegates
    for every key but the reserved one); for a function installed by
    [Mapped] it is the original method. *)
Theorem layers_propagate_exceptions host n home this target p receiver s e
    s1 :
  (super_get_or_Reflect_get (interp host n) home [target; p; receiver] s
     = (Throw e, s1) →
   i_run (interp host (S n)) (CTargetAsThis_get home) this
     [target; p; receiver] s = (Throw e, s1)
   ∧ i_run (interp host (S n)) (CDefaultToPrimitive_get home) this
       [target; p; receiver] s = (Throw e, s1)
   ∧ i_run (interp host (S n)) (CDefaultToStringTag_get home) this
       [target; p; receiver] s = (Throw e, s1)
   ∧ (p ≠ VSymbol getTargetSymbol →
      i_run (interp host (S n)) (CAllowGetTarget_get home) this
        [target; p; receiver] s = (Throw e, s1)))
  ∧ (∀ mapper originalValue args mapped s0,
       i_Call (interp host n) mapper VUndefined [arg 0 args] s
         = (Normal mapped, s0) →
       i_run (interp host n) originalValue VUndefined (mapped :: tail args) s0
         = (Throw e, s1) →
       i_run (interp host (S n)) (CMapped mapper originalValue) this args s
       = (Throw e, s1)).
Proof.
  split.
  - apply get_layers_rethrow.
  - intros mapper originalValue args mapped s0 Hmapper Horiginal.
    rewrite Mapped_value_run. by rewrite (bind_Normal _ _ _ _ _ Hmapper).
Qed.

(** C2, amended.  [Mapped(mapper)] applied to a handler class.  Nothing
    runs when the layer is built: heap and trace of native calls are as
    before.  The names it intercepts are those the [Reflect] object owns at
    that moment: the standard operations always, and whatever else has been
    added to [Reflect] by then.  Every method the class has or inherits under
    such a name is replaced, on the class itself, by a function that calls
    the original with [mapper(target)] in place of its first argument and
    the remaining arguments as they are; methods under names [Reflect] does
    not own stay what they were and no method appears.  One call of the
    replacement calls [mapper] once, before the original: with a native
    [mapper] the trace grows by exactly one entry for it, and the original
    runs next. *)
Theorem Mapped_spec host mapper c s :
  ∃ s',
    Mapped mapper c s = (Normal (), s')
    ∧ heap s' = heap s
    ∧ trace s' = trace s
    ∧ (∀ name,
         KString name ∈ Reflect_standardKeys →
         Reflect_hasOwnProperty (Reflect_ownKeys s) name = true)
    ∧ (∀ name,
         KString name ∈ Reflect_added s →
         Reflect_hasOwnProperty (Reflect_ownKeys s) name = true)
    ∧ (∀ name originalValue,
         lookup_method (classes s) c name = Some originalValue →
         name ≠ "constructor" →
         (Reflect_hasOwnProperty (Reflect_ownKeys s) name = true →
          lookup_method (classes s') c name
          = Some (CMapped mapper originalValue))
         ∧ (Reflect_hasOwnProperty (Reflect_ownKeys s) name = false →
            lookup_method (classes s') c name = Some originalValue))
    ∧ (∀ name,
         lookup_method (classes s) c name = None →
         lookup_method (classes s') c name = None)
    ∧ (∀ n this originalValue target restAugments σ,
         i_run (interp host (S n)) (CMapped mapper originalValue) this
           (target :: restAugments) σ
         = (let* mapped := i_Call (interp host n) mapper VUndefined [target] in
            i_run (interp host n) originalValue VUndefined
              (mapped :: restAugments)) σ)
    ∧ (∀ n this originalValue target restAugments σ l proto props id,
         mapper = VRef l →
         heap σ !! l = Some (OObject proto props (Some (CNative id))) →
         let r := native host id VUndefined [target] (heap σ) in
         let σ1 :=
           {| heap := heap σ ++ r.2;
              classes := classes σ;
              trace := {| ev_native := id; ev_this := VUndefined;
                          ev_args := [target] |} :: trace σ;
              Reflect_added := Reflect_added σ |} in
         i_run (interp host (S (S (S n)))) (CMapped mapper originalValue) this
           (target :: restAugments) σ
         = match r.1 with
           | NReturn mapped =>
               i_run (interp host (S (S n))) originalValue VUndefined
                 (mapped :: restAugments) σ1
           | NThrow e => (Throw e, σ1)
           end).
Proof.
  eexists. split; [done|]. split; [done|]. split; [done|].
  change (classes (set_classes ?cs s)) with cs.
  split; [apply Reflect_owns_standard|].
  split.
  { intros name Hin. apply bool_decide_eq_true, elem_of_app. by right. }
  split; [|split; [|split]].
  - intros name originalValue Hm Hname.
    rewrite lookup_method_redefined, Hm, decide_False by done.
    unfold Mapped_decorator. split; by intros ->.
  - intros name Hm. by rewrite lookup_method_redefined, Hm.
  - done.
  - intros n this originalValue target restAugments σ l proto props id -> Hl.
    by rewrite (Mapped_value_native host n this l proto props id
                  originalValue (target :: restAugments) σ Hl).
Qed.

(** C3, at the inputs where the code departs from it: [getTarget(undefined)]
    and [getTarget(null)] throw a [TypeError], whatever the state and the
    fuel. *)
Theorem getTarget_nullish_throws host n s :
  getTarget host n VUndefined s = (Throw TypeError, s)
  ∧ getTarget host n VNull s = (Throw TypeError, s).
Proof. done. Qed.

(** C4, amended.  [TargetAsThis], [DefaultToPrimitive], [DefaultToStringTag]
    and [AllowGetTarget] add a class to the table and touch nothing else:
    the class they return is new, every class that existed, the one they
    were applied to among them, resolves every operation as before, and in
    a closed world every read and call behaves as before.  [Mapped] adds no
    class: it yields the class it was given, with the operations of that
    class redefined in place. *)
Theorem decorate_spec host l c s :
  c < length (classes s) →
  match l with
  | LMapped mapper =>
      ∃ s',
        decorate l c s = (Normal c, s')
        ∧ length (classes s') = length (classes s)
        ∧ heap s' = heap s
        ∧ ∀ name originalValue,
            lookup_method (classes s) c name = Some originalValue →
            name ≠ "constructor" →
            lookup_method (classes s') c name
            = Some
                (Mapped_decorator (Reflect_ownKeys s) mapper name
                   originalValue)
  | _ =>
      produces_new_type host l c s
      ∧ ∃ cl,
          parent cl = Some c
          ∧ decorate l c s
            = (Normal (length (classes s)), set_classes (cl :: classes s) s)
  end.
Proof.
  intros Hc.
  destruct l as [| | | |mapper].
  1-4: split; [by apply class_extends_new_type|];
    eexists {| parent := Some c; methods := _ |}; by split.
  eexists. split; [done|]. simpl. rewrite update_methods_length.
  split; [done|]. split; [done|].
  intros name originalValue Hm Hname.
  by rewrite lookup_method_redefined, Hm, decide_False.
Qed.

(** * The specification at work in the small world *)

(** Through the proxy: the method comes back wrapped, and calling the
    wrapper on the proxy runs the method on the target (the method returns
    its [this]). *)
Example TargetAsThis_rebinds_this :
  let s := ex_proxied [LTargetAsThis] in
  let read := GetV (interp ex_host 5) (VRef 7) (KString "greet") s in
  read.1 = Normal (VRef 8)
  ∧ (i_Call (interp ex_host 5) (VRef 8) (VRef 7) [] read.2).1
    = Normal (VRef 0)
  ∧ (i_Call (interp ex_host 5) (VRef 8) (VRef 2) [] read.2).1
    = Normal (VRef 2).
Proof. vm_compute. done. Qed.

(** Through the proxy: the hook is supplied and answers the three hints
    with the host's conversions of the target and with [target.valueOf()]
    (here the target has no [valueOf], so the call fails as it would on the
    target itself). *)
Example DefaultToPrimitive_hook_hints :
  let s := ex_proxied [LDefaultToPrimitive] in
  let read := GetV (interp ex_host 6) (VRef 7) (KSymbol Symbol_toPrimitive) s in
  read.1 = Normal (VRef 8)
  ∧ (i_Call (interp ex_host 6) (VRef 8) VUndefined [VString "string"]
       read.2).1 = Normal (VString "hello,world")
  ∧ (i_Call (interp ex_host 6) (VRef 8) VUndefined [VString "number"]
       read.2).1 = Normal VNaN
  ∧ (i_Call (interp ex_host 6) (VRef 8) VUndefined [VString "default"]
       read.2).1 = Throw TypeError
  ∧ (i_Call (interp ex_host 6) (VRef 8) VUndefined [VString "other"]
       read.2).1 = Normal VUndefined.
Proof. vm_compute. done. Qed.

Lemma layers_propagate_exceptions_witness :
  let s := (decorate LTargetAsThis 2 ex_state).2 in
  let args := [VRef 0; VString "0"; VRef 0] in
  let e := Thrown (VString "boom") in
  let base := super_get_or_Reflect_get (interp ex_host 1) 3 args s in
  let mapped := i_Call (interp ex_host 2) (VRef 1) VUndefined [VRef 0] s in
  let original :=
    i_run (interp ex_host 2) (CNative 2) VUndefined
      [VRef 6; VString "0"; VRef 0] mapped.2 in
  base = (Throw e, base.2)
  ∧ mapped = (Normal (VRef 6), mapped.2)
  ∧ original = (Throw e, original.2)
  ∧ i_run (interp ex_host 2) (CTargetAsThis_get 3) VUndefined args s
    = (Throw e, base.2)
  ∧ i_run (interp ex_host 3) (CMapped (VRef 1) (CNative 2)) VUndefined args s
    = (Throw e, original.2).
Proof.
  intros s args e base mapped original.
  assert (Hbase : base = (Throw e, base.2)) by (vm_compute; reflexivity).
  assert (Hmapped : mapped = (Normal (VRef 6), mapped.2))
    by (vm_compute; reflexivity).
  assert (Horiginal : original = (Throw e, original.2))
    by (vm_compute; reflexivity).
  split; [exact Hbase|]. split; [exact Hmapped|]. split; [exact Horiginal|].
  split.
  - destruct (layers_propagate_exceptions ex_host 1 3 VUndefined (VRef 0)
                (VString "0") (VRef 0) s e base.2) as [Hget _].
    destruct (Hget Hbase) as [Hrun _]. exact Hrun.
  - destruct (layers_propagate_exceptions ex_host 2 3 VUndefined (VRef 0)
                (VString "0") (VRef 0) s e original.2) as [_ Hwrapped].
    exact (Hwrapped (VRef 1) (CNative 2) args (VRef 6) mapped.2 Hmapped
             Horiginal).
Defined.

Lemma Mapped_spec_witness :
  let s' := (Mapped (VRef 1) 3 ex_metadata).2 in
  lookup_method (classes ex_metadata) 3 "get" = Some CReflect_get
  ∧ lookup_method (classes ex_metadata) 3 "getMetadata" = Some (CNative 1)
  ∧ lookup_method (classes ex_metadata) 3 "size" = Some (CNative 1)
  ∧ lookup_method (classes s') 3 "get" = Some (CMapped (VRef 1) CReflect_get)
  ∧ lookup_method (classes s') 3 "getMetadata"
    = Some (CMapped (VRef 1) (CNative 1))
  ∧ lookup_method (classes s') 3 "size" = Some (CNative 1)
  ∧ trace s' = trace ex_metadata.
Proof.
  intros s'.
  assert (Hget : lookup_method (classes ex_metadata) 3 "get"
                 = Some CReflect_get)
    by (vm_compute; reflexivity).
  assert (Hmeta : lookup_method (classes ex_metadata) 3 "getMetadata"
                  = Some (CNative 1))
    by (vm_compute; reflexivity).
  assert (Hsize : lookup_method (classes ex_metadata) 3 "size"
                  = Some (CNative 1))
    by (vm_compute; reflexivity).
  do 3 (split; [assumption|]).
  destruct (Mapped_spec ex_host (VRef 1) 3 ex_metadata)
    as (s'' & Hrun & _ & Htrace & Hstandard & Hadded & Hwrapped & _).
  assert (s'' = s') as -> by exact (eq_sym (f_equal snd Hrun)).
  split; [|split; [|split; [|exact Htrace]]].
  - apply (Hwrapped "get" CReflect_get Hget); [discriminate|].
    apply Hstandard. apply (bool_decide_eq_true_1 _). vm_compute. reflexivity.
  - apply (Hwrapped "getMetadata" (CNative 1) Hmeta); [discriminate|].
    apply Hadded. apply (bool_decide_eq_true_1 _). vm_compute. reflexivity.
  - apply (Hwrapped "size" (CNative 1) Hsize); [discriminate|].
    vm_compute. reflexivity.
Defined.

(** C2 fails for a name outside the fixed vocabulary that [Reflect] has
    acquired: with [reflect-metadata] loaded, [Mapped] wraps a method named
    [getMetadata]. *)
Lemma Mapped_wraps_what_Reflect_acquired :
  ¬ leaves_names_outside_the_vocabulary (VRef 1) 3 ex_metadata.
Proof.
  intros H.
  assert (Hout : KString "getMetadata" ∉ Reflect_standardKeys).
  { apply (bool_decide_eq_false_1 _). vm_compute. reflexivity. }
  specialize (H "getMetadata" (CNative 1) Hout ltac:(vm_compute; reflexivity)).
  vm_compute in H. discriminate H.
Qed.

(** The package's example, one read of index 0 after [Mapped(addBang)] over a
    class whose [get] is [Reflect.get]: the string comes back with ["!"]
    appended and [addBang] was entered once, with the target. *)
Example Mapped_addBang_read :
  let s := ex_proxied [LMapped (VRef 1)] in
  let read := GetV (interp ex_host 6) (VRef 7) (KString "0") s in
  trace s = []
  ∧ read.1 = Normal (VString "hello!")
  ∧ trace read.2
    = [{| ev_native := 0; ev_this := VUndefined; ev_args := [VRef 0] |}].
Proof. vm_compute. done. Qed.

Lemma ex_state_closed : closed 3 ex_state.
Proof.
  split; [done|]. split.
  - by repeat constructor.
  - repeat constructor; intros name g Hg; simpl in Hg.
    + apply lookup_singleton_Some in Hg as [_ <-]. done.
    + by rewrite lookup_empty in Hg.
    + apply lookup_singleton_Some in Hg as [_ <-]. done.
Qed.

Lemma ex_host_below b : host_below b ex_host.
Proof.
  intros f Hf this args h Hh.
  assert (Hcopy : heap_below b (addBang this args h).2).
  { unfold addBang. destruct (arg 0 args) as [| | | | | | |l]; try by constructor.
    destruct (h !! l) as [[proto props call| |]|] eqn:Hl; try by constructor.
    repeat constructor. exact (Forall_lookup_1 _ _ _ _ Hh Hl). }
  destruct Hf as [->|[->|[id ->]]]; try by constructor.
  destruct id as [|[|id]]; simpl; [done|by constructor..].
Qed.

Lemma decorate_spec_witness :
  1 < length (classes ex_state)
  ∧ closed (length (classes ex_state)) ex_state
  ∧ host_below (length (classes ex_state)) ex_host
  ∧ produces_new_type ex_host LTargetAsThis 1 ex_state
  ∧ same_behaviour ex_host ex_state (decorate LTargetAsThis 1 ex_state).2.
Proof.
  assert (Hc : 1 < length (classes ex_state)) by (simpl; lia).
  pose proof (proj1 (decorate_spec ex_host LTargetAsThis 1 ex_state Hc))
    as Hnew.
  split; [exact Hc|]. split; [exact ex_state_closed|].
  split; [exact (ex_host_below 3)|]. split; [exact Hnew|].
  destruct Hnew as (c' & s' & Hd & _ & _ & Hsame).
  rewrite Hd. exact (Hsame ex_state_closed (ex_host_below 3)).
Defined.

(** C4 fails for [Mapped]: applied to class 1 it yields class 1 itself, and
    class 1 no longer resolves [get] to what it resolved to before. *)
Lemma Mapped_produces_no_new_type :
  ¬ produces_new_type ex_host (LMapped (VRef 1)) 1 ex_state
  ∧ lookup_method (classes ex_state) 1 "get" = Some CReflect_get
  ∧ lookup_method (classes (decorate (LMapped (VRef 1)) 1 ex_state).2) 1 "get"
    = Some (CMapped (VRef 1) CReflect_get).
Proof.
  split; [|split; vm_compute; reflexivity].
  intros (c' & s' & Hd & Hne & _).
  apply (f_equal fst) in Hd. simpl in Hd. by injection Hd as <-.
Qed.

Lemma getTarget_deterministic host n m v s a s1 b s2 :
  getTarget host n v s = (Normal a, s1) →
  getTarget host m v s = (Normal b, s2) →
  a = b.
Proof.
  unfold getTarget. intros Hn Hm.
  pose proof (GetV_le _ _ (interp_mono host n (n `max` m) ltac:(lia))
                _ _ _ _ _ Hn ltac:(done)) as Hn'.
  pose proof (GetV_le _ _ (interp_mono host m (n `max` m) ltac:(lia))
                _ _ _ _ _ Hm ltac:(done)) as Hm'.
  congruence.
Qed.

(** C1 fails with [Mapped] above [AllowGetTarget]: [AllowGetTarget] is
    handed the mapped target, so [getTarget] of the proxy over the array at
    location 0 is the fresh copy [addBang] made (location 8), not the
    array. *)
Lemma getTarget_above_Mapped_is_not_the_target :
  ¬ getTarget_returns ex_host [LMapped (VRef 1); LAllowGetTarget] 1 (VRef 0)
      ex_state (VRef 0).
Proof.
  intros (proxy & s1 & Hproxy & n & s2 & Hget).
  assert (Hp : proxy_over [LMapped (VRef 1); LAllowGetTarget] 1 (VRef 0)
                 ex_state
               = (Normal (VRef 7),
                  ex_proxied [LMapped (VRef 1); LAllowGetTarget]))
    by (vm_compute; reflexivity).
  rewrite Hp in Hproxy. injection Hproxy as <- <-.
  set (r := getTarget ex_host 6 (VRef 7)
              (ex_proxied [LMapped (VRef 1); LAllowGetTarget])).
  assert (Hr : r = (Normal (VRef 8), r.2)) by (vm_compute; reflexivity).
  by pose proof (getTarget_deterministic _ _ _ _ _ _ _ _ _ Hget Hr).
Qed.

Example getTarget_above_Mapped_is_the_mapped_target :
  getTarget_returns ex_host [LMapped (VRef 1); LAllowGetTarget] 1 (VRef 0)
    ex_state (VRef 8).
Proof.
  eexists _, _. split; [vm_compute; reflexivity|].
  exists 6. eexists. vm_compute. reflexivity.
Qed.

(** With a callable target and [TargetAsThis] above [AllowGetTarget] the
    answer is a wrapper around the target (location 8), not the target
    (the function at location 3). *)
Example getTarget_above_TargetAsThis_wraps_a_callable_target :
  getTarget_returns ex_host [LTargetAsThis; LAllowGetTarget] 1 (VRef 3)
    ex_state (VRef 8)
  ∧ ¬ getTarget_returns ex_host [LTargetAsThis; LAllowGetTarget] 1 (VRef 3)
        ex_state (VRef 3).
Proof.
  assert (Hp : proxy_over [LTargetAsThis; LAllowGetTarget] 1 (VRef 3) ex_state
               = (Normal (VRef 7),
                  (proxy_over [LTargetAsThis; LAllowGetTarget] 1 (VRef 3)
                     ex_state).2))
    by (vm_compute; reflexivity).
  set (r := getTarget ex_host 6 (VRef 7)
              (proxy_over [LTargetAsThis; LAllowGetTarget] 1 (VRef 3)
                 ex_state).2).
  assert (Hr : r = (Normal (VRef 8), r.2)) by (vm_compute; reflexivity).
  split.
  - eexists _, _. split; [exact Hp|]. by exists 6, r.2.
  - intros (proxy & s1 & Hproxy & n & s2 & Hget).
    rewrite Hp in Hproxy. injection Hproxy as <- <-.
    by pose proof (getTarget_deterministic _ _ _ _ _ _ _ _ _ Hget Hr).
Qed.

Lemma getTarget_returns_target_below_passing_layers_witness :
  heap ex_state !! 0
    = Some (OObject (VRef 2)
              [(KString "0", data (VString "hello") true true true);
               (KString "1", data (VString "world") true true true);
               (KString "greet", data (VRef 3) true false true)]
              None)
  ∧ getTarget_returns ex_host
      ([LDefaultToStringTag; LTargetAsThis]
       ++ LAllowGetTarget :: [LMapped (VRef 1); LDefaultToPrimitive])
      1 (VRef 0) ex_state (VRef 0).
Proof.
  split; [reflexivity|].
  apply (getTarget_returns_target_below_passing_layers ex_host
           [LDefaultToStringTag; LTargetAsThis]
           [LMapped (VRef 1); LDefaultToPrimitive] 1 ex_state 0 (VRef 2)
           [(KString "0", data (VString "hello") true true true);
            (KString "1", data (VString "world") true true true);
            (KString "greet", data (VRef 3) true false true)]
           None).
  - reflexivity.
  - reflexivity.
  - intros mapper Hin. apply elem_of_cons in Hin as [Hin|Hin]; [done|].
    apply elem_of_cons in Hin as [Hin|Hin]; [done|].
    by apply elem_of_nil in Hin.
  - intros [code Hcode]. discriminate Hcode.
Defined.

Lemma own_map_values k (f : Key * PropertyDescriptor → PropertyDescriptor)
    (props : Props) :
  own k props = None → own k (map (λ kd, (kd.1, f kd)) props) = None.
Proof.
  induction props as [|[k' d] props IH]; simpl; [done|].
  case_decide; [done | apply IH].
Qed.

Lemma addBang_maps_plain_targets :
  maps_plain_targets ex_host (heap ex_state) (VRef 1).
Proof.
  intros s target d Hgrows Hlacks.
  destruct (lacks_key_object _ _ _ _ Hlacks) as (l & -> & _).
  destruct d as [|d]; [done|]. simpl in Hlacks.
  destruct (heap s !! l) as [[proto props call| |]|] eqn:Hl; try done.
  apply andb_true_iff in Hlacks as [Hown Hproto].
  apply bool_decide_eq_true in Hown.
  eexists 2, (VRef (length (heap s))), _, (S d). split.
  - simpl. unfold Call, bind, get_object, gets.
    rewrite (Hgrows 1 _ eq_refl). simpl.
    unfold log, call_native. simpl. unfold addBang, bind. simpl.
    rewrite Hl. reflexivity.
  - simpl. rewrite lookup_app_r by lia. rewrite Nat.sub_diag. simpl.
    rewrite own_map_values by done. simpl.
    destruct proto; try done.
    eapply lacks_key_grows; [|done]. apply heap_grows_app.
Qed.

Lemma getTarget_undefined_without_AllowGetTarget_witness :
  let ls :=
    [LTargetAsThis; LMapped (VRef 1); LDefaultToPrimitive;
     LDefaultToStringTag] in
  (LAllowGetTarget ∉ ls)
  ∧ 1 < length (classes ex_state)
  ∧ lacks_key 2 (heap ex_state) (KSymbol getTargetSymbol) (VRef 0) = true
  ∧ getTarget_returns ex_host ls 1 (VRef 0) ex_state VUndefined.
Proof.
  intros ls.
  assert (Hag : LAllowGetTarget ∉ ls).
  { intros Hin. repeat (apply elem_of_cons in Hin as [Hin|Hin]; [done|]).
    by apply elem_of_nil in Hin. }
  assert (Hroot : 1 < length (classes ex_state)) by (simpl; lia).
  assert (Hlacks : lacks_key 2 (heap ex_state) (KSymbol getTargetSymbol)
                     (VRef 0) = true) by reflexivity.
  do 3 (split; [assumption|]).
  apply (getTarget_undefined_without_AllowGetTarget ex_host ls 1 ex_state
           (VRef 0) 2 Hag Hroot); [| |exact Hlacks].
  - intros g Hg. assert (g = CReflect_get) as ->.
    { vm_compute in Hg. by injection Hg. }
    apply Reflect_get_answers_undefined.
  - intros mapper Hin.
    assert (mapper = VRef 1) as ->.
    { repeat (apply elem_of_cons in Hin as [Hin|Hin];
              [by (discriminate || injection Hin)|]).
      by apply elem_of_nil in Hin. }
    apply addBang_maps_plain_targets.
Defined.

(** Through the proxy, with the package's own example stack minus
    [AllowGetTarget]. *)
Example getTarget_undefined_in_the_small_world :
  let ls :=
    [LMapped (VRef 1); LDefaultToPrimitive; LDefaultToStringTag;
     LTargetAsThis] in
  (getTarget ex_host 8 (VRef 7) (ex_proxied ls)).1 = Normal VUndefined
  ∧ (getTarget ex_host 8 (VRef 7) (ex_proxied (LAllowGetTarget :: ls))).1
    = Normal (VRef 0).
Proof. vm_compute. done. Qed.

(** * More about [getTarget] *)

Lemma GetOwnProperty_reports_no_own host d s k v n :
  reports_no_own d s k v = true →
  d ≤ n →
  i_GetOwnProperty (interp host n) v k s = (Normal None, s).
Proof.
  revert v n. induction d as [|d IH]; intros v n; simpl; [done|].
  destruct v as [| | | | | | |l]; try done.
  destruct (heap s !! l) as [[proto props call|target handler c|]|] eqn:Hl;
    try done.
  - intros Hown%bool_decide_eq_true Hn.
    destruct n as [|n]; [lia|]. simpl.
    unfold GetOwnProperty, bind, get_object, gets. by rewrite Hl, Hown.
  - destruct handler as [| | | | | | |lh]; try done.
    destruct (heap s !! lh) as [[| |cls]|] eqn:Hh; try done.
    intros [Htrap Ht]%andb_true_iff Hn. apply bool_decide_eq_true in Htrap.
    destruct n as [|n]; [lia|]. simpl.
    unfold GetOwnProperty. unfold bind at 1, get_object at 1, gets at 1.
    rewrite Hl.
    rewrite (bind_Normal _ _ _ _ _ (get_trap_handler _ _ _ _ Hh)), Htrap.
    apply IH; [done|lia].
Qed.

Lemma Get_exposed host s lp lt lh cls callable g wraps d d' receiver n :
  heap s !! lp = Some (OProxy (VRef lt) (VRef lh) callable) →
  heap s !! lh = Some (OHandler cls) →
  lookup_method (classes s) cls "get" = Some g →
  exposes (classes s) wraps g d →
  (wraps = true → is_callable (heap s) (VRef lt) = false) →
  reports_no_own d' s (KSymbol getTargetSymbol) (VRef lt) = true →
  d + 1 ≤ n → d' ≤ n →
  i_Get (interp host (S n)) (VRef lp) (KSymbol getTargetSymbol) receiver s
  = (Normal (VRef lt), s).
Proof.
  intros Hp Hh Hg He Hw Ht Hn Hn'.
  change (i_Get (interp host (S n))) with (Get (interp host n)).
  unfold Get. unfold bind at 1, get_object at 1, gets at 1. rewrite Hp.
  rewrite (bind_Normal _ _ _ _ _ (get_trap_handler _ _ _ _ Hh)), Hg.
  rewrite (bind_Normal _ _ _ _ _
             (exposes_run host _ _ _ _ He s (VRef lh) lt receiver n
                eq_refl Hw ltac:(lia))).
  by rewrite (bind_Normal _ _ _ _ _
                (GetOwnProperty_reports_no_own host d' s _ _ n Ht Hn')).
Qed.

(** X1.  An object that is no proxy and has the reserved key nowhere on its
    prototype chain: [getTarget] answers [undefined], with any fuel that
    covers the chain, and leaves the state as it was. *)
Theorem getTarget_of_plain_object host d s v n :
  lacks_key d (heap s) (KSymbol getTargetSymbol) v = true →
  d ≤ n →
  getTarget host n v s = (Normal VUndefined, s).
Proof.
  intros Hlacks Hn.
  destruct (lacks_key_object _ _ _ _ Hlacks) as (l & -> & _).
  unfold getTarget, GetV. by apply Get_lacks_key with (d := d).
Qed.

(** X2.  [getTarget] takes off one proxy, not more: the target of the proxy
    may be a proxy itself and is returned as it is.  The handler's [get]
    reaches [AllowGetTarget] through layers that pass its answer on, the
    target reports no own property under the reserved key, and the read leaves
    the state as it was. *)
Theorem getTarget_takes_off_one_proxy host s lp lt lh cls callable g wraps d
    d' n :
  heap s !! lp = Some (OProxy (VRef lt) (VRef lh) callable) →
  heap s !! lh = Some (OHandler cls) →
  lookup_method (classes s) cls "get" = Some g →
  exposes (classes s) wraps g d →
  (wraps = true → is_callable (heap s) (VRef lt) = false) →
  reports_no_own d' s (KSymbol getTargetSymbol) (VRef lt) = true →
  d + d' + 2 ≤ n →
  getTarget host n (VRef lp) s = (Normal (VRef lt), s).
Proof.
  intros Hp Hh Hg He Hw Ht Hn.
  destruct n as [|n]; [lia|]. unfold getTarget, GetV.
  eapply Get_exposed; [done..|lia|lia].
Qed.

(** X3.  [getTarget] of an object that is not a proxy but inherits from one:
    the read of the reserved key climbs to the proxy, whose [AllowGetTarget]
    answers with the proxy's target. *)
Theorem getTarget_of_object_inheriting_from_proxy host s lo props call lp lt
    lh cls callable g wraps d d' n :
  heap s !! lo = Some (OObject (VRef lp) props call) →
  own (KSymbol getTargetSymbol) props = None →
  heap s !! lp = Some (OProxy (VRef lt) (VRef lh) callable) →
  heap s !! lh = Some (OHandler cls) →
  lookup_method (classes s) cls "get" = Some g →
  exposes (classes s) wraps g d →
  (wraps = true → is_callable (heap s) (VRef lt) = false) →
  reports_no_own d' s (KSymbol getTargetSymbol) (VRef lt) = true →
  d + d' + 3 ≤ n →
  getTarget host n (VRef lo) s = (Normal (VRef lt), s).
Proof.
  intros Ho Hown Hp Hh Hg He Hw Ht Hn.
  destruct n as [|[|n]]; [lia..|]. unfold getTarget, GetV.
  change (i_Get (interp host (S (S n)))) with (Get (interp host (S n))).
  unfold Get. unfold bind, get_object, gets. rewrite Ho, Hown.
  eapply Get_exposed; [done..|lia|lia].
Qed.

(** X4.  With [AllowGetTarget] reachable, [getTarget] runs no code of the
    user: neither building the proxy nor the read adds to the trace of native
    calls (no mapper, no method of the root handler class), and the read
    leaves the state exactly as it was, with any fuel from [length above + 3]
    on. *)
Theorem getTarget_runs_no_user_code host above below root s lt proto props
    call :
  heap s !! lt = Some (OObject proto props call) →
  own (KSymbol getTargetSymbol) props = None →
  (∀ mapper, LMapped mapper ∉ above) →
  (is_Some call → LTargetAsThis ∉ above) →
  ∃ proxy s1,
    proxy_over (above ++ LAllowGetTarget :: below) root (VRef lt) s
      = (Normal proxy, s1)
    ∧ trace s1 = trace s
    ∧ ∀ n, length above + 3 ≤ n →
           getTarget host n proxy s1 = (Normal (VRef lt), s1).
Proof.
  intros Ht Hown Hm Hc.
  destruct (decorated_total below root s) as (c1 & s1 & Hd1 & Hh1 & Htr1 & _).
  set (c2 := length (classes s1)).
  set (s2 := set_classes
               ({| parent := Some c1;
                   methods := {[ "get" := CAllowGetTarget_get c2 ]} |}
                  :: classes s1) s1).
  assert (Hd2 : decorated (LAllowGetTarget :: below) root s = (Normal c2, s2)).
  { simpl. by rewrite (bind_Normal _ _ _ _ _ Hd1). }
  set (wraps := bool_decide (call = None)).
  destruct (decorated_exposes wraps above Hm) with (c := c2) (s := s2)
    (g := CAllowGetTarget_get c2) (d := 0)
    as (c3 & s3 & g3 & Hd3 & Hh3 & Hc3 & Hg3 & He3).
  { unfold wraps. intros Hw%bool_decide_eq_false. apply Hc.
    by destruct call. }
  { simpl. lia. }
  { by apply lookup_method_new. }
  { constructor. }
  destruct (decorated_total above c2 s2) as (c3' & s3' & Hd3' & _ & Htr3 & _).
  rewrite Hd3 in Hd3'. injection Hd3' as <- <-.
  assert (Hd : decorated (above ++ LAllowGetTarget :: below) root s
               = (Normal c3, s3)).
  { rewrite decorated_app. by rewrite (bind_Normal _ _ _ _ _ Hd2). }
  assert (Hh : heap s3 = heap s).
  { rewrite Hh3. simpl. done. }
  eexists _, _. split; [by eapply proxy_over_result|].
  split; [simpl; by rewrite Htr3|].
  intros n Hn. destruct n as [|n]; [lia|]. unfold getTarget, GetV.
  eapply Get_exposed with (wraps := wraps) (d := length above + 0) (d' := 1);
    simpl; try done; try lia.
  - rewrite lookup_app_r by lia. replace (S _ - _) with 1 by lia. done.
  - rewrite lookup_app_r by lia. by rewrite Nat.sub_diag.
  - intros Hw%bool_decide_eq_true. subst call.
    rewrite (lookup_app_l _ _ lt) by by eapply lookup_lt_Some.
    by rewrite Ht.
  - rewrite (lookup_app_l _ _ lt) by by eapply lookup_lt_Some.
    rewrite Ht. by apply bool_decide_eq_true.
Qed.

(** * Layers on top of each other *)

Lemma strict_equals_rebound thisArg receiver target :
  (if strict_equals
        (if strict_equals thisArg receiver then target else thisArg) receiver
   then target
   else if strict_equals thisArg receiver then target else thisArg)
  = (if strict_equals thisArg receiver then target else thisArg).
Proof.
  destruct (strict_equals thisArg receiver) eqn:He; [|by rewrite He].
  by destruct (strict_equals target receiver).
Qed.

Lemma wrapper_name host n w name property receiver target s :
  heap s !! w = Some (wrapper host w name property receiver target) →
  GetV (interp host (S n)) (VRef w) (KString "name") s = (Normal name, s).
Proof.
  intros Hw. unfold GetV.
  change (i_Get (interp host (S n))) with (Get (interp host n)).
  unfold Get, bind, get_object, gets. by rewrite Hw.
Qed.

(** X5.  [TargetAsThis] applied twice.  The outer layer finds the wrapper of
    the inner one, which is callable, and wraps it again under the same name.
    Calling the outer wrapper is calling the inner one: with [this] identical
    to the receiver the original runs on the target, otherwise on the [this]
    given. *)
Theorem TargetAsThis_twice host n h1 h2 this target p receiver s property s1
    name s2 :
  let w1 := length (heap s1) in
  let s3 := with_wrapper host name property receiver target s1 s2 in
  let w2 := length (heap s3) in
  let s4 :=
    with_wrapper host name (VRef w1) receiver target s3
      (with_wrappedFunction host (VRef w1) receiver target s3) in
  super_lookup (classes s) h2 "get" = Some (CTargetAsThis_get h1) →
  super_get_or_Reflect_get (interp host n) h1 [target; p; receiver] s
    = (Normal property, s1) →
  is_callable (heap s1) property = true →
  GetV (interp host n) property (KString "name")
    (with_wrappedFunction host property receiver target s1)
    = (Normal name, s2) →
  i_run (interp host (S (S n))) (CTargetAsThis_get h2) this
    [target; p; receiver] s
  = (Normal (VRef w2), s4)
  ∧ heap s4 !! w1 = Some (wrapper host w1 name property receiver target)
  ∧ heap s4 !! w2 = Some (wrapper host w2 name (VRef w1) receiver target)
  ∧ ∀ m σ thisArg argArray,
      heap σ !! w1 = Some (wrapper host w1 name property receiver target) →
      heap σ !! w2 = Some (wrapper host w2 name (VRef w1) receiver target) →
      i_Call (interp host (S (S (S (S m))))) (VRef w2) thisArg argArray σ
      = i_Call (interp host (S (S m))) (VRef w1) thisArg argArray σ
      ∧ i_Call (interp host (S (S m))) (VRef w1) thisArg argArray σ
        = i_Call (interp host m) property
            (if strict_equals thisArg receiver then target else thisArg)
            argArray σ.
Proof.
  intros w1 s3 w2 s4 Hsuper Hbase Hfn Hname.
  destruct (with_wrapper_lookup _ _ _ _ _ _ _ _ Hname) as [Hw1 Hlen1].
  fold w1 s3 in Hw1, Hlen1.
  assert (Hinner : super_get_or_Reflect_get (interp host (S n)) h2
                     [target; p; receiver] s = (Normal (VRef w1), s3)).
  { rewrite super_get_resolved, Hsuper. simpl.
    by apply (TargetAsThis_get_function host n h1 VUndefined). }
  assert (Hfn1 : is_callable (heap s3) (VRef w1) = true).
  { unfold is_callable. by rewrite Hw1. }
  assert (Hname1 : GetV (interp host (S n)) (VRef w1) (KString "name")
                     (with_wrappedFunction host (VRef w1) receiver target s3)
                   = (Normal name,
                      with_wrappedFunction host (VRef w1) receiver target s3)).
  { apply wrapper_name with (property := property) (receiver := receiver)
      (target := target).
    unfold with_wrappedFunction. simpl.
    rewrite lookup_app_l by by eapply lookup_lt_Some. done. }
  destruct (with_wrapper_lookup _ _ _ _ _ _ _ _ Hname1) as [Hw2 Hlen2].
  fold w2 s4 in Hw2, Hlen2.
  split; [by apply (TargetAsThis_get_function host (S n) h2)|].
  split; [|split; [done|]].
  - assert (w1 < w2) by (by eapply lookup_lt_Some).
    unfold s4, with_wrapper. cbn [heap set_heap]. fold w2.
    rewrite list_lookup_insert_ne by lia.
    unfold with_wrappedFunction, new_function. cbn [snd heap set_heap].
    rewrite lookup_app_l by done. done.
  - intros m σ thisArg argArray Hσ1 Hσ2.
    rewrite (wrappedFunction_call host (S (S m)) σ w2 _ _ _ _ _ _ _ Hσ2).
    rewrite !(wrappedFunction_call host m σ w1 _ _ _ _ _ _ _ Hσ1).
    by rewrite strict_equals_rebound.
Qed.

(** X6.  [@Mapped(g) @Mapped(f) class C]: both decorators redefine the methods
    of [C] itself, nothing runs, and every method under a name that [Reflect]
    owns ends up wrapped twice.  A call applies [g], the mapper written first,
    to the target, then [f] to the result, and hands that to the original: the
    original sees [f(g(target))]. *)
Theorem Mapped_twice host f g c s :
  ∃ s',
    decorated [LMapped g; LMapped f] c s = (Normal c, s')
    ∧ heap s' = heap s
    ∧ trace s' = trace s
    ∧ length (classes s') = length (classes s)
    ∧ (∀ name originalValue,
         lookup_method (classes s) c name = Some originalValue →
         name ≠ "constructor" →
         Reflect_hasOwnProperty (Reflect_ownKeys s) name = true →
         lookup_method (classes s') c name
         = Some (CMapped g (CMapped f originalValue)))
    ∧ ∀ n this originalValue target restAugments σ,
        i_run (interp host (S (S n))) (CMapped g (CMapped f originalValue))
          this (target :: restAugments) σ
        = (let* mapped := i_Call (interp host (S n)) g VUndefined [target] in
           let* twice := i_Call (interp host n) f VUndefined [mapped] in
           i_run (interp host n) originalValue VUndefined
             (twice :: restAugments)) σ.
Proof.
  eexists. split; [done|]. split; [done|]. split; [done|].
  cbn [classes set_classes heap].
  split; [by rewrite !update_methods_length|]. split.
  - intros name originalValue Hm Hname Hreflect.
    rewrite lookup_method_redefined, lookup_method_redefined, Hm.
    rewrite !decide_False by done.
    unfold Mapped_decorator, Reflect_ownKeys in *.
    cbn [Reflect_added set_classes]. by rewrite !Hreflect.
  - intros n this originalValue target restAugments σ.
    rewrite Mapped_value_run. reflexivity.
Qed.

(** X7.  [Mapped] does not look at its mapper when the layer is built.  A
    mapper that cannot be called shows on the first intercepted operation: it
    throws a [TypeError], the original never runs and the state is untouched. *)
Theorem Mapped_mapper_not_callable host mapper c s :
  (Mapped mapper c s).1 = Normal ()
  ∧ ∀ n this originalValue args σ,
      is_callable (heap σ) mapper = false →
      (∀ l, mapper = VRef l → is_Some (heap σ !! l)) →
      i_run (interp host (S (S n))) (CMapped mapper originalValue) this args σ
      = (Throw TypeError, σ).
Proof.
  split; [done|].
  intros n this originalValue args σ Hfn Hobj.
  rewrite Mapped_value_run.
  change (i_Call (interp host (S n))) with (Call (interp host n)).
  unfold bind, Call.
  destruct mapper as [| | | | | | |l]; try done.
  destruct (Hobj l eq_refl) as [o Ho]. unfold bind, get_object, gets.
  rewrite Ho. simpl in Hfn. rewrite Ho in Hfn.
  destruct o as [proto props [code|]|target handler [|]|cls]; done.
Qed.

(** X8.  The hook of [DefaultToPrimitive] at its edges.  A hint other than the
    three the [switch] lists falls through: the answer is [undefined] and
    nothing is called.  The hint ["default"] on a target with no [valueOf]
    anywhere on its prototype chain throws a [TypeError]. *)
Theorem toPrimitive_hook_edges host m σ w target thisArg :
  heap σ !! w = Some (hook host target) →
  (∀ hint,
     strict_equals hint (VString "string") = false →
     strict_equals hint (VString "number") = false →
     strict_equals hint (VString "default") = false →
     i_Call (interp host (S (S m))) (VRef w) thisArg [hint] σ
     = (Normal VUndefined, σ))
  ∧ i_Call (interp host (S (S m))) (VRef w) thisArg [] σ
    = (Normal VUndefined, σ)
  ∧ (∀ d,
       lacks_key d (heap σ) (KString "valueOf") target = true →
       d ≤ m →
       i_Call (interp host (S (S (S m)))) (VRef w) thisArg [VString "default"]
         σ
       = (Throw TypeError, σ)).
Proof.
  intros Hw. split; [|split].
  - intros hint H1 H2 H3.
    rewrite (toPrimitive_call host m σ w target thisArg _ Hw).
    unfold toPrimitive, arg. cbn [nth]. by rewrite H1, H2, H3.
  - by rewrite (toPrimitive_call host m σ w target thisArg _ Hw).
  - intros d Hlacks Hd.
    rewrite (toPrimitive_call host (S m) σ w target thisArg _ Hw).
    destruct (lacks_key_object _ _ _ _ Hlacks) as (l & -> & _).
    unfold toPrimitive, arg. cbn [nth].
    replace (strict_equals (VString "default") (VString "string"))
      with false by done.
    replace (strict_equals (VString "default") (VString "number"))
      with false by done.
    replace (strict_equals (VString "default") (VString "default"))
      with true by done.
    assert (Hget : GetV (interp host (S m)) (VRef l) (KString "valueOf") σ
                   = (Normal VUndefined, σ)).
    { unfold GetV. apply Get_lacks_key with (d := d); [done|lia]. }
    by rewrite (bind_Normal _ _ _ _ _ Hget).
Qed.

(** [@Mapped(mapper) @TargetAsThis]: [Mapped] is outermost, so
    [TargetAsThis] is handed the mapped target, looks the property up on it
    and binds [this] to it: a method called on the proxy runs on
    [mapper(target)]. *)
Lemma Mapped_above_TargetAsThis_layer host n mapper home this target p
    receiver s mapped s0 property s1 name s2 :
  let w := length (heap s1) in
  i_Call (interp host (S n)) mapper VUndefined [target] s
    = (Normal mapped, s0) →
  super_get_or_Reflect_get (interp host n) home [mapped; p; receiver] s0
    = (Normal property, s1) →
  is_callable (heap s1) property = true →
  GetV (interp host n) property (KString "name")
    (with_wrappedFunction host property receiver mapped s1)
    = (Normal name, s2) →
  i_run (interp host (S (S n))) (CMapped mapper (CTargetAsThis_get home)) this
    [target; p; receiver] s
  = (Normal (VRef w), with_wrapper host name property receiver mapped s1 s2)
  ∧ ∀ m σ thisArg argArray,
      heap σ !! w = Some (wrapper host w name property receiver mapped) →
      strict_equals thisArg receiver = true →
      i_Call (interp host (S (S m))) (VRef w) thisArg argArray σ
      = i_Call (interp host m) property mapped argArray σ.
Proof.
  intros w Hmapper Hbase Hfn Hname. split.
  - rewrite Mapped_value_run. simpl.
    rewrite (bind_Normal _ _ _ _ _ Hmapper).
    by apply (TargetAsThis_get_function host n home VUndefined).
  - intros m σ thisArg argArray Hw He.
    by rewrite (wrappedFunction_call host m σ w _ _ _ _ _ _ _ Hw), He.
Qed.

(** [@TargetAsThis @Mapped(mapper)]: [TargetAsThis] is outermost and is
    handed the target as it is; the property comes from the layer below, which
    looked it up on [mapper(target)].  A method called on the proxy is the
    method of the mapped object, run on the target that was not mapped. *)
Lemma TargetAsThis_above_Mapped_layer host n mapper g home this target p
    receiver s mapped s0 property s1 name s2 :
  let w := length (heap s1) in
  super_lookup (classes s) home "get" = Some (CMapped mapper g) →
  i_Call (interp host n) mapper VUndefined [target] s = (Normal mapped, s0) →
  i_run (interp host n) g VUndefined [mapped; p; receiver] s0
    = (Normal property, s1) →
  is_callable (heap s1) property = true →
  GetV (interp host (S n)) property (KString "name")
    (with_wrappedFunction host property receiver target s1)
    = (Normal name, s2) →
  i_run (interp host (S (S n))) (CTargetAsThis_get home) this
    [target; p; receiver] s
  = (Normal (VRef w), with_wrapper host name property receiver target s1 s2)
  ∧ ∀ m σ thisArg argArray,
      heap σ !! w = Some (wrapper host w name property receiver target) →
      strict_equals thisArg receiver = true →
      i_Call (interp host (S (S m))) (VRef w) thisArg argArray σ
      = i_Call (interp host m) property target argArray σ.
Proof.
  intros w Hsuper Hmapper Hbase Hfn Hname. split.
  - apply (TargetAsThis_get_function host (S n) home); [|done..].
    rewrite super_get_resolved, Hsuper.
    change (default CReflect_get (Some (CMapped mapper g)))
      with (CMapped mapper g).
    rewrite Mapped_value_run. unfold arg. cbn [nth tail].
    by rewrite (bind_Normal _ _ _ _ _ Hmapper).
  - intros m σ thisArg argArray Hw He.
    by rewrite (wrappedFunction_call host m σ w _ _ _ _ _ _ _ Hw), He.
Qed.

(** * Whole stacks *)

Lemma last_not_Mapped_cons l l' (ls : list Layer) :
  (∀ mapper, last (l :: l' :: ls) ≠ Some (LMapped mapper)) →
  ∀ mapper, last (l' :: ls) ≠ Some (LMapped mapper).
Proof. intros H mapper. exact (H mapper). Qed.

(** X11.  Building a handler type from a stack of decorators.  It always
    succeeds and runs nothing: the heap and the trace of native calls are as
    before.  Each class expression adds one class, [Mapped] adds none.  When
    the innermost decorator is not [Mapped], no class that existed before, the
    root included, resolves a method or a [super] reference differently
    afterwards, and the class obtained is a new one. *)
Theorem decorated_stack ls root s :
  ∃ c s',
    decorated ls root s = (Normal c, s')
    ∧ heap s' = heap s
    ∧ trace s' = trace s
    ∧ length (classes s') = length (classes s) + class_expressions ls
    ∧ ((∀ mapper, last ls ≠ Some (LMapped mapper)) →
       (ls ≠ [] → length (classes s) ≤ c < length (classes s'))
       ∧ ∀ c0 name,
           c0 < length (classes s) →
           lookup_method (classes s') c0 name
           = lookup_method (classes s) c0 name
           ∧ super_lookup (classes s') c0 name
             = super_lookup (classes s) c0 name).
Proof.
  induction ls as [|l ls IH].
  - exists root, s. simpl. repeat split; (done || lia).
  - destruct IH as (c1 & s1 & Hd & Hh & Ht & Hlen & Hold).
    simpl. rewrite (bind_Normal _ _ _ _ _ Hd).
    assert (Hnew : ∀ body,
      (∀ mapper, last (l :: ls) ≠ Some (LMapped mapper)) →
      (l :: ls ≠ [] →
       length (classes s) ≤ length (classes s1)
       < length (classes (class_extends c1 body s1).2))
      ∧ ∀ c0 name,
          c0 < length (classes s) →
          lookup_method (classes (class_extends c1 body s1).2) c0 name
          = lookup_method (classes s) c0 name
          ∧ super_lookup (classes (class_extends c1 body s1).2) c0 name
            = super_lookup (classes s) c0 name).
    { intros body Hlast. unfold class_extends. cbn [snd classes set_classes].
      split; [intros _; cbn [length]; lia|].
      intros c0 name Hc0.
      rewrite lookup_method_cons, super_lookup_cons by lia.
      destruct ls as [|l' ls].
      - simpl in Hd. by injection Hd as <- <-.
      - by apply (proj2 (Hold (last_not_Mapped_cons _ _ _ Hlast))). }
    assert (Hext : ∀ body,
      ∃ c s',
        class_extends c1 body s1 = (Normal c, s')
        ∧ heap s' = heap s
        ∧ trace s' = trace s
        ∧ length (classes s')
          = length (classes s) + S (class_expressions ls)
        ∧ ((∀ mapper, last (l :: ls) ≠ Some (LMapped mapper)) →
           (l :: ls ≠ [] → length (classes s) ≤ c < length (classes s'))
           ∧ ∀ c0 name,
               c0 < length (classes s) →
               lookup_method (classes s') c0 name
               = lookup_method (classes s) c0 name
               ∧ super_lookup (classes s') c0 name
                 = super_lookup (classes s) c0 name)).
    { intros body. eexists _, _. split; [done|].
      split; [done|]. split; [done|].
      split; [cbn [classes set_classes length]; lia|]. apply (Hnew body). }
    destruct l as [| | | |mapper]; [apply Hext..|].
    eexists _, _. split; [done|]. simpl. rewrite update_methods_length.
    split; [done|]. split; [done|]. split; [done|].
    intros Hlast. destruct ls as [|l' ls].
    { by destruct (Hlast mapper). }
    destruct (Hold (last_not_Mapped_cons _ _ _ Hlast)) as [Hc1 Hsame].
    specialize (Hc1 ltac:(done)).
    split; [done|].
    intros c0 name Hc0.
    rewrite lookup_method_update_older, super_lookup_update by lia.
    by apply Hsame.
Qed.

Section Delegates.

Variable host : Host.

Lemma delegates_cons cl cs agt base g d :
  delegates cs agt base g d → delegates (cl :: cs) agt base g d.
Proof.
  induction 1 as [g home Hg Ha Hh Hs|g home g' d Hg Ha Hh Hs _ IH].
  - eapply delegates_innermost; [done|done|simpl; lia|].
    by rewrite super_lookup_cons.
  - eapply delegates_outer; [done|done|simpl; lia| |done].
    by rewrite super_lookup_cons.
Qed.

(** One layer hands a plain value back. *)
Lemma layer_passes_value n g home this target p receiver s v s1 :
  layer_home g = Some home →
  super_get_or_Reflect_get (interp host n) home [target; p; receiver] s
    = (Normal v, s1) →
  is_callable (heap s1) v = false →
  p ≠ VSymbol getTargetSymbol →
  (v = VUndefined →
   p ≠ VSymbol Symbol_toPrimitive ∧ p ≠ VSymbol Symbol_toStringTag) →
  i_run (interp host (S n)) g this [target; p; receiver] s = (Normal v, s1).
Proof.
  intros Hg Hbase Hfn Hp Hv.
  destruct g; try done; injection Hg as ->.
  - by apply TargetAsThis_get_other.
  - destruct (decide (v = VUndefined)) as [->|Hne].
    + apply DefaultToPrimitive_get_other_key; [done|]. by apply Hv.
    + by apply DefaultToPrimitive_get_defined.
  - apply DefaultToStringTag_get_passes; [done|].
    destruct (decide (v = VUndefined)) as [->|Hne]; [right|by left].
    by apply Hv.
  - by rewrite AllowGetTarget_get_other.
Qed.

(** One layer lets an exception through. *)
Lemma layer_rethrows n g home agt this target p receiver s e s1 :
  layer_home g = Some home →
  (g = CAllowGetTarget_get home → agt = true) →
  super_get_or_Reflect_get (interp host n) home [target; p; receiver] s
    = (Throw e, s1) →
  (agt = true → p ≠ VSymbol getTargetSymbol) →
  i_run (interp host (S n)) g this [target; p; receiver] s = (Throw e, s1).
Proof.
  intros Hg Ha Hbase Hp.
  destruct (get_layers_rethrow host n home this target p receiver s e s1
              Hbase) as (H1 & H2 & H3 & H4).
  destruct g; try done; injection Hg as ->; try done.
  apply H4, Hp. by apply Ha.
Qed.

Lemma delegates_value cs agt base g d :
  delegates cs agt base g d →
  ∀ n this target p receiver s v s1,
    classes s = cs →
    i_run (interp host n) (default CReflect_get base) VUndefined
      [target; p; receiver] s = (Normal v, s1) →
    is_callable (heap s1) v = false →
    p ≠ VSymbol getTargetSymbol →
    (v = VUndefined →
     p ≠ VSymbol Symbol_toPrimitive ∧ p ≠ VSymbol Symbol_toStringTag) →
    i_run (interp host (n + d)) g this [target; p; receiver] s
    = (Normal v, s1).
Proof.
  induction 1 as [g home Hg Ha Hh Hs|g home g' d Hg Ha Hh Hs _ IH];
    intros n this target p receiver s v s1 Hcs Hbase Hfn Hp Hv.
  - rewrite Nat.add_1_r. eapply layer_passes_value; try done.
    by rewrite super_get_resolved, Hcs, Hs.
  - rewrite Nat.add_succ_r. eapply layer_passes_value; try done.
    rewrite super_get_resolved, Hcs, Hs. by apply IH.
Qed.

Lemma delegates_throw cs agt base g d :
  delegates cs agt base g d →
  ∀ n this target p receiver s e s1,
    classes s = cs →
    i_run (interp host n) (default CReflect_get base) VUndefined
      [target; p; receiver] s = (Throw e, s1) →
    (agt = true → p ≠ VSymbol getTargetSymbol) →
    i_run (interp host (n + d)) g this [target; p; receiver] s
    = (Throw e, s1).
Proof.
  induction 1 as [g home Hg Ha Hh Hs|g home g' d Hg Ha Hh Hs _ IH];
    intros n this target p receiver s e s1 Hcs Hbase Hp.
  - rewrite Nat.add_1_r. eapply layer_rethrows; try done.
    by rewrite super_get_resolved, Hcs, Hs.
  - rewrite Nat.add_succ_r. eapply layer_rethrows; try done.
    rewrite super_get_resolved, Hcs, Hs. by apply IH.
Qed.

Lemma decorated_delegates agt ls :
  (∀ mapper, LMapped mapper ∉ ls) →
  (agt = false → LAllowGetTarget ∉ ls) →
  ls ≠ [] →
  ∀ root s,
  ∃ c s' top,
    decorated ls root s = (Normal c, s')
    ∧ heap s' = heap s
    ∧ trace s' = trace s
    ∧ S c = length (classes s')
    ∧ lookup_method (classes s') c "get" = Some top
    ∧ delegates (classes s') agt (lookup_method (classes s) root "get") top
        (length ls).
Proof.
  induction ls as [|l ls IH]; intros Hm Ha Hne root s; [done|].
  assert (Hm' : ∀ mapper, LMapped mapper ∉ ls).
  { intros m Hin. apply (Hm m). by right. }
  assert (Ha' : agt = false → LAllowGetTarget ∉ ls).
  { intros Hf Hin. apply (Ha Hf). by right. }
  assert (Hl : ∃ k : ClassRef → Code,
    (∀ home, layer_home (k home) = Some home)
    ∧ (∀ home, k home = CAllowGetTarget_get home → agt = true)
    ∧ ∀ c1 s1,
        decorate l c1 s1
        = (Normal (length (classes s1)),
           set_classes
             ({| parent := Some c1;
                 methods := {[ "get" := k (length (classes s1)) ]} |}
                :: classes s1) s1)).
  { destruct l as [| | | |mapper].
    - exists CTargetAsThis_get. by repeat split.
    - exists CDefaultToPrimitive_get. by repeat split.
    - exists CDefaultToStringTag_get. by repeat split.
    - exists CAllowGetTarget_get. repeat split; try done.
      intros _ _. destruct agt; [done|]. destruct (Ha eq_refl). by left.
    - destruct (Hm mapper). by left. }
  destruct Hl as (k & Hk & Hagt & Hdec).
  destruct ls as [|l' ls].
  - change (decorated [l] root s) with (decorate l root s).
    rewrite Hdec. eexists _, _, _. split; [done|].
    cbn [classes set_classes heap trace].
    split; [done|]. split; [done|]. split; [done|].
    split; [apply lookup_method_new, lookup_singleton_eq|].
    eapply delegates_innermost; [apply Hk|apply Hagt|simpl; lia|].
    by rewrite super_lookup_new.
  - destruct (IH Hm' Ha' ltac:(done) root s)
      as (c1 & s1 & top1 & Hd & Hh & Ht & Hc1 & Hg1 & Hdel).
    change (decorated (l :: l' :: ls) root s)
      with ((let* c' := decorated (l' :: ls) root in decorate l c') s).
    rewrite (bind_Normal _ _ _ _ _ Hd), Hdec.
    eexists _, _, _. split; [done|].
    cbn [classes set_classes heap trace].
    split; [done|]. split; [done|]. split; [done|].
    split; [apply lookup_method_new, lookup_singleton_eq|].
    eapply delegates_outer; [apply Hk|apply Hagt|simpl; lia| |].
    + by rewrite super_lookup_new.
    + by apply delegates_cons.
Qed.

End Delegates.

(** X12.  A handler type decorated with class expressions only (no [Mapped]),
    asked for a key other than the reserved one: when the [get] of the root
    class (or [Reflect.get]) answers a value that is not callable, and that is
    not [undefined] under [Symbol.toPrimitive] or [Symbol.toStringTag], the
    decorated [get] gives exactly that answer, in the same state.  The layers
    add nothing to such a read. *)
Theorem stack_passes_plain_values host ls root s :
  (∀ mapper, LMapped mapper ∉ ls) →
  ls ≠ [] →
  ∃ c s' top,
    decorated ls root s = (Normal c, s')
    ∧ lookup_method (classes s') c "get" = Some top
    ∧ ∀ n this target p receiver σ v σ1,
        classes σ = classes s' →
        root_get (interp host n) (classes s) root [target; p; receiver] σ
          = (Normal v, σ1) →
        is_callable (heap σ1) v = false →
        p ≠ VSymbol getTargetSymbol →
        (v = VUndefined →
         p ≠ VSymbol Symbol_toPrimitive ∧ p ≠ VSymbol Symbol_toStringTag) →
        i_run (interp host (n + length ls)) top this [target; p; receiver] σ
        = (Normal v, σ1).
Proof.
  intros Hm Hne.
  destruct (decorated_delegates true ls Hm ltac:(done) Hne root s)
    as (c & s' & top & Hd & _ & _ & _ & Hg & Hdel).
  exists c, s', top. split; [done|]. split; [done|].
  intros n this target p receiver σ v σ1 Hcs Hbase Hfn Hp Hv.
  by eapply delegates_value.
Qed.

(** X13.  An exception thrown by the [get] of the root class comes out of the
    whole stack of class expressions, for every key when [AllowGetTarget] is
    not among them and for every key but the reserved one when it is. *)
Theorem stack_rethrows host ls root s :
  (∀ mapper, LMapped mapper ∉ ls) →
  ls ≠ [] →
  ∃ c s' top,
    decorated ls root s = (Normal c, s')
    ∧ lookup_method (classes s') c "get" = Some top
    ∧ ∀ n this target p receiver σ e σ1,
        classes σ = classes s' →
        root_get (interp host n) (classes s) root [target; p; receiver] σ
          = (Throw e, σ1) →
        (LAllowGetTarget ∈ ls → p ≠ VSymbol getTargetSymbol) →
        i_run (interp host (n + length ls)) top this [target; p; receiver] σ
        = (Throw e, σ1).
Proof.
  intros Hm Hne.
  destruct (decorated_delegates (bool_decide (LAllowGetTarget ∈ ls)) ls Hm)
    with (root := root) (s := s)
    as (c & s' & top & Hd & _ & _ & _ & Hg & Hdel); [|done|].
  { by intros Hf%bool_decide_eq_false. }
  exists c, s', top. split; [done|]. split; [done|].
  intros n this target p receiver σ e σ1 Hcs Hbase Hp.
  eapply delegates_throw; [done..|].
  intros Hin%bool_decide_eq_true. by apply Hp.
Qed.

(** X14.  [getTarget] is not free of faults: without [AllowGetTarget] the read
    of the reserved key reaches the [get] of the root class, and on a proxy
    whose root [get] throws for that key, [getTarget] throws the same
    exception, through every stack of class expressions. *)
Theorem getTarget_rethrows host ls root s lt o g e :
  heap s !! lt = Some o →
  (∀ mapper, LMapped mapper ∉ ls) →
  LAllowGetTarget ∉ ls →
  ls ≠ [] →
  lookup_method (classes s) root "get" = Some g →
  (∀ n this target receiver σ,
     ∃ σ',
       i_run (interp host (S n)) g this
         [target; VSymbol getTargetSymbol; receiver] σ
       = (Throw e, σ')) →
  ∃ proxy s1,
    proxy_over ls root (VRef lt) s = (Normal proxy, s1)
    ∧ ∀ n, length ls + 2 ≤ n →
           ∃ s2, getTarget host n proxy s1 = (Throw e, s2).
Proof.
  intros Ht Hm Hag Hne Hg Hthrows.
  destruct (decorated_delegates false ls Hm ltac:(done) Hne root s)
    as (c & s' & top & Hd & Hh & _ & _ & Htop & Hdel).
  eexists _, _. split; [by eapply proxy_over_result|].
  intros n Hn.
  destruct n as [|n]; [lia|].
  destruct (Nat.le_exists_sub (S (length ls)) n ltac:(lia)) as (m & -> & _).
  set (s1 := set_heap _ s').
  destruct (Hthrows m VUndefined (VRef lt) (VRef (S (length (heap s)))) s1)
    as [s2 Hrun].
  exists s2. unfold getTarget, GetV.
  change (i_Get (interp host (S (m + S (length ls)))))
    with (Get (interp host (m + S (length ls)))).
  unfold Get. unfold bind at 1, get_object at 1, gets at 1.
  assert (Hp : heap s1 !! S (length (heap s))
               = Some (OProxy (VRef lt) (VRef (length (heap s)))
                         (is_callable (heap s) (VRef lt)))).
  { unfold s1. simpl. rewrite lookup_app_r by lia.
    replace (S _ - _) with 1 by lia. done. }
  assert (Hhd : heap s1 !! length (heap s) = Some (OHandler c)).
  { unfold s1. simpl. rewrite lookup_app_r by lia.
    by rewrite Nat.sub_diag. }
  rewrite Hp.
  rewrite (bind_Normal _ _ _ _ _ (get_trap_handler _ _ _ _ Hhd)).
  change (classes s1) with (classes s'). rewrite Htop.
  apply bind_Throw.
  replace (m + S (length ls)) with (S m + length ls) by lia.
  eapply (delegates_throw host _ _ _ _ _ Hdel); [done| |done].
  by rewrite Hg.
Qed.

(** X15.  [@Mapped(mapper)] on a handler class that neither has nor inherits a
    [get]: there is nothing to wrap, the proxy has no [get] trap, and a read
    goes to the target as it is.  The mapper is not called. *)
Theorem Mapped_without_get host mapper root s lt o :
  heap s !! lt = Some o →
  lookup_method (classes s) root "get" = None →
  ∃ proxy s1,
    proxy_over [LMapped mapper] root (VRef lt) s = (Normal proxy, s1)
    ∧ trace s1 = trace s
    ∧ ∀ n P Receiver,
        i_Get (interp host (S n)) proxy P Receiver s1
        = i_Get (interp host n) (VRef lt) P Receiver s1.
Proof.
  intros Ht Hg.
  eexists _, _. split; [by eapply proxy_over_result|]. split; [done|].
  intros n P Receiver.
  set (s1 := set_heap _ _).
  change (i_Get (interp host (S n))) with (Get (interp host n)).
  unfold Get. unfold bind at 1, get_object at 1, gets at 1.
  assert (Hp : heap s1 !! S (length (heap s))
               = Some (OProxy (VRef lt) (VRef (length (heap s)))
                         (is_callable (heap s) (VRef lt)))).
  { unfold s1. simpl. rewrite lookup_app_r by lia.
    replace (S _ - _) with 1 by lia. done. }
  assert (Hhd : heap s1 !! length (heap s) = Some (OHandler root)).
  { unfold s1. simpl. rewrite lookup_app_r by lia.
    by rewrite Nat.sub_diag. }
  rewrite Hp.
  rewrite (bind_Normal _ _ _ _ _ (get_trap_handler _ _ _ _ Hhd)).
  unfold s1. cbn [classes set_heap set_classes].
  by rewrite lookup_method_redefined, Hg.
Qed.

Lemma delegates_update cs c f agt base g d :
  S c = length cs →
  delegates cs agt base g d →
  delegates (update_methods cs c f) agt base g d.
Proof.
  intros Hc.
  induction 1 as [g home Hg Ha Hh Hs|g home g' d Hg Ha Hh Hs _ IH].
  - eapply delegates_innermost; [done|done| |].
    + by rewrite update_methods_length.
    + rewrite super_lookup_update by lia. done.
  - eapply delegates_outer; [done|done| | |done].
    + by rewrite update_methods_length.
    + rewrite super_lookup_update by lia. done.
Qed.

(** X16.  The shape of the package's own example: [@AllowGetTarget
    @Mapped(mapper)] on top of class expressions.  The handler's [get] is
    [AllowGetTarget]'s, and [Mapped] wrapped the [get] of the layers below.
    Asked for the reserved key it answers with the target as it is; asked for
    another key it calls the mapper, and when the root's [get] finds a plain
    value on the mapped target, that value is the answer. *)
Theorem AllowGetTarget_Mapped_stack host mapper ls root s :
  (∀ m, LMapped m ∉ ls) →
  ls ≠ [] →
  ∃ c s' below,
    decorated (LAllowGetTarget :: LMapped mapper :: ls) root s
      = (Normal c, s')
    ∧ lookup_method (classes s') c "get" = Some (CAllowGetTarget_get c)
    ∧ super_lookup (classes s') c "get" = Some (CMapped mapper below)
    ∧ (∀ n this target receiver σ,
         i_run (interp host (S n)) (CAllowGetTarget_get c) this
           [target; VSymbol getTargetSymbol; receiver] σ
         = (Normal target, σ))
    ∧ ∀ n this target p receiver σ mapped σ0 v σ1,
        classes σ = classes s' →
        p ≠ VSymbol getTargetSymbol →
        i_Call (interp host (n + length ls)) mapper VUndefined [target] σ
          = (Normal mapped, σ0) →
        root_get (interp host n) (classes s) root [mapped; p; receiver] σ0
          = (Normal v, σ1) →
        is_callable (heap σ1) v = false →
        (v = VUndefined →
         p ≠ VSymbol Symbol_toPrimitive ∧ p ≠ VSymbol Symbol_toStringTag) →
        i_run (interp host (S (S (n + length ls)))) (CAllowGetTarget_get c)
          this [target; p; receiver] σ
        = (Normal v, σ1).
Proof.
  intros Hm Hne.
  destruct (decorated_delegates true ls Hm ltac:(done) Hne root s)
    as (c1 & s1 & top1 & Hd & _ & _ & Hc1 & Htop & Hdel).
  set (cs2 := update_methods (classes s1) c1
                (λ own,
                   map_imap
                     (λ propName v,
                        if decide (propName = "constructor") then None
                        else Some (Mapped_decorator (Reflect_ownKeys s1) mapper
                                     propName v))
                     (all_methods (classes s1) c1) ∪ own)).
  set (c := length cs2).
  set (cl := {| parent := Some c1;
                methods := {[ "get" := CAllowGetTarget_get c ]} |}).
  assert (Hdec : decorated (LAllowGetTarget :: LMapped mapper :: ls) root s
                 = (Normal c, set_classes (cl :: cs2) s1)).
  { assert (Hd2 : decorated (LMapped mapper :: ls) root s
                  = (Normal c1, set_classes cs2 s1)).
    { change (decorated (LMapped mapper :: ls) root s)
        with ((let* c' := decorated ls root in
               decorate (LMapped mapper) c') s).
      by rewrite (bind_Normal _ _ _ _ _ Hd). }
    change (decorated (LAllowGetTarget :: LMapped mapper :: ls) root s)
      with ((let* c' := decorated (LMapped mapper :: ls) root in
             decorate LAllowGetTarget c') s).
    by rewrite (bind_Normal _ _ _ _ _ Hd2). }
  assert (Hsuper : super_lookup (cl :: cs2) c "get"
                   = Some (CMapped mapper top1)).
  { unfold cl, c. rewrite super_lookup_new. unfold cs2.
    rewrite lookup_method_redefined, Htop, decide_False by done.
    unfold Mapped_decorator. by rewrite Reflect_owns_get. }
  assert (Hdel' : delegates (cl :: cs2) true
                    (lookup_method (classes s) root "get") top1 (length ls)).
  { apply delegates_cons. by apply delegates_update. }
  exists c, (set_classes (cl :: cs2) s1), top1.
  split; [done|]. cbn [classes set_classes].
  split; [by apply lookup_method_new, lookup_singleton_eq|].
  split; [done|]. split; [done|].
  intros n this target p receiver σ mapped σ0 v σ1 Hcs Hp Hmapper Hbase Hfn
    Hv.
  rewrite AllowGetTarget_get_other by done.
  rewrite super_get_resolved, Hcs, Hsuper.
  change (default CReflect_get (Some (CMapped mapper top1)))
    with (CMapped mapper top1).
  rewrite Mapped_value_run. unfold arg. cbn [nth tail].
  rewrite (bind_Normal _ _ _ _ _ Hmapper).
  eapply (delegates_value host _ _ _ _ _ Hdel'); try done.
  destruct (p_Call _ _ (interp_preserving host 0 (n + length ls)) _ _ _
              _ _ _ (Nat.le_0_l _) Hmapper) as (Hcls & _).
  by rewrite Hcls.
Qed.

(** * The two default layers commute *)

Section Commute.

Variable host : Host.

(** Away from its own key each of the two layers is the layer below. *)
Lemma DefaultToPrimitive_get_other n home this target p receiver s :
  p ≠ VSymbol Symbol_toPrimitive →
  i_run (interp host (S n)) (CDefaultToPrimitive_get home) this
    [target; p; receiver] s
  = super_get_or_Reflect_get (interp host n) home [target; p; receiver] s.
Proof.
  intros Hp.
  change (i_run (interp host (S n)) (CDefaultToPrimitive_get home) this
            [target; p; receiver])
    with (DefaultToPrimitive_get host (interp host n) home
            [target; p; receiver]).
  unfold DefaultToPrimitive_get, arg. cbn [nth]. unfold bind.
  destruct (super_get_or_Reflect_get _ _ _ s) as [[v| | |] s1]; try done.
  rewrite strict_equals_undefined, strict_equals_symbol.
  rewrite (bool_decide_eq_false_2 _ Hp).
  by case_bool_decide; subst.
Qed.

Lemma DefaultToStringTag_get_other n home this target p receiver s :
  p ≠ VSymbol Symbol_toStringTag →
  i_run (interp host (S n)) (CDefaultToStringTag_get home) this
    [target; p; receiver] s
  = super_get_or_Reflect_get (interp host n) home [target; p; receiver] s.
Proof.
  intros Hp.
  change (i_run (interp host (S n)) (CDefaultToStringTag_get home) this
            [target; p; receiver])
    with (DefaultToStringTag_get (interp host n) home
            [target; p; receiver]).
  unfold DefaultToStringTag_get, arg. cbn [nth]. unfold bind at 1.
  destruct (super_get_or_Reflect_get _ _ _ s) as [[v| | |] s1]; try done.
  rewrite strict_equals_undefined, strict_equals_symbol.
  rewrite (bool_decide_eq_false_2 _ Hp).
  by case_bool_decide; subst.
Qed.

Lemma bind_base {A B} (m m' : M A) (k : A → M B) s :
  m s = m' s → bind m k s = bind m' k s.
Proof. unfold bind. by intros ->. Qed.

(** X17.  [DefaultToPrimitive] above [DefaultToStringTag] and
    [DefaultToStringTag] above [DefaultToPrimitive], over the same base:
    whatever one order answers, the other answers too, in the same state.
    ([a1], [a2] are the homes of the first order, inner and outer; [b1], [b2]
    those of the second.  The second order reads the prototype one level
    further out, hence the fuel.) *)
Theorem DefaultToPrimitive_DefaultToStringTag_commute n a1 a2 b1 b2 this
    this' target p receiver s :
  super_lookup (classes s) a2 "get" = Some (CDefaultToStringTag_get a1) →
  super_lookup (classes s) b2 "get" = Some (CDefaultToPrimitive_get b1) →
  super_lookup (classes s) a1 "get" = super_lookup (classes s) b1 "get" →
  (∀ c s',
     c ≠ OutOfFuel →
     i_run (interp host (S (S n))) (CDefaultToPrimitive_get a2) this
       [target; p; receiver] s = (c, s') →
     i_run (interp host (S (S n))) (CDefaultToStringTag_get b2) this'
       [target; p; receiver] s = (c, s'))
  ∧ (∀ c s',
       c ≠ OutOfFuel →
       i_run (interp host (S (S n))) (CDefaultToStringTag_get b2) this'
         [target; p; receiver] s = (c, s') →
       i_run (interp host (S (S (S n)))) (CDefaultToPrimitive_get a2) this
         [target; p; receiver] s = (c, s')).
Proof.
  intros Ha Hb Hbase.
  set (args := [target; p; receiver]).
  assert (Hsa : ∀ k, super_get_or_Reflect_get (interp host (S k)) a2 args s
                     = i_run (interp host (S k)) (CDefaultToStringTag_get a1)
                         VUndefined args s).
  { intros k. by rewrite super_get_resolved, Ha. }
  assert (Hsb : ∀ k, super_get_or_Reflect_get (interp host (S k)) b2 args s
                     = i_run (interp host (S k)) (CDefaultToPrimitive_get b1)
                         VUndefined args s).
  { intros k. by rewrite super_get_resolved, Hb. }
  assert (Hab : ∀ k, super_get_or_Reflect_get (interp host k) b1 args s
                     = super_get_or_Reflect_get (interp host k) a1 args s).
  { intros k. by rewrite !super_get_resolved, Hbase. }
  destruct (decide (p = VSymbol Symbol_toStringTag)) as [->|Hp].
  - (* the key of DefaultToStringTag *)
    assert (HA : ∀ k, i_run (interp host (S (S k)))
                        (CDefaultToPrimitive_get a2) this args s
                      = i_run (interp host (S k))
                          (CDefaultToStringTag_get a1) VUndefined args s).
    { intros k. unfold args.
      rewrite DefaultToPrimitive_get_other by done. apply Hsa. }
    assert (HB : ∀ c s',
      c ≠ OutOfFuel →
      (i_run (interp host (S n)) (CDefaultToStringTag_get a1) VUndefined
         args s = (c, s')
       ∨ i_run (interp host (S (S n))) (CDefaultToStringTag_get b2) this'
           args s = (c, s')) →
      i_run (interp host (S (S n))) (CDefaultToStringTag_get b2) this'
        args s
      = i_run (interp host (S (S n))) (CDefaultToStringTag_get a1) VUndefined
          args s).
    { intros c s' Hc Hor.
      assert (Hb1 : super_get_or_Reflect_get (interp host (S n)) b2 args s
                    = super_get_or_Reflect_get (interp host n) a1 args s).
      { rewrite Hsb. unfold args.
        rewrite DefaultToPrimitive_get_other by done. apply Hab. }
      destruct (super_get_or_Reflect_get (interp host n) a1 args s)
        as [cb s1] eqn:Hcb.
      assert (Hne : cb ≠ OutOfFuel).
      { intros ->. destruct Hor as [Hr|Hr].
        - change (i_run (interp host (S n)) (CDefaultToStringTag_get a1)
                    VUndefined args s)
            with (DefaultToStringTag_get (interp host n) a1 args s) in Hr.
          unfold DefaultToStringTag_get, args, arg in Hr. cbn [nth] in Hr.
          unfold bind at 1 in Hr. fold args in Hr. rewrite Hcb in Hr.
          by injection Hr as <- _.
        - change (i_run (interp host (S (S n))) (CDefaultToStringTag_get b2)
                    this' args s)
            with (DefaultToStringTag_get (interp host (S n)) b2 args s)
            in Hr.
          unfold DefaultToStringTag_get, args, arg in Hr. cbn [nth] in Hr.
          unfold bind at 1 in Hr. fold args in Hr. rewrite Hb1 in Hr.
          by injection Hr as <- _. }
      pose proof (super_get_le _ _ (interp_le_succ host n) a1 args s cb s1
                    Hcb Hne) as Ha1.
      change (DefaultToStringTag_get (interp host (S n)) b2 args s
              = DefaultToStringTag_get (interp host (S n)) a1 args s).
      unfold DefaultToStringTag_get, args, arg. cbn [nth]. fold args.
      apply bind_base. by rewrite Hb1, Ha1. }
    split; intros c s' Hc Hrun.
    + rewrite HA in Hrun.
      rewrite (HB c s' Hc (or_introl Hrun)).
      by apply (le_run _ _ (interp_le_succ host (S n))).
    + rewrite HA. by rewrite <- (HB c s' Hc (or_intror Hrun)).
  - (* every other key *)
    assert (HAB : ∀ k, i_run (interp host (S (S k)))
                         (CDefaultToPrimitive_get a2) this args s
                       = i_run (interp host (S (S k)))
                           (CDefaultToStringTag_get b2) this' args s).
    { intros k. unfold args.
      rewrite (DefaultToStringTag_get_other (S k)) by done.
      fold args. rewrite Hsb.
      change (i_run (interp host (S (S k))) (CDefaultToPrimitive_get a2)
                this args s)
        with (DefaultToPrimitive_get host (interp host (S k)) a2 args s).
      change (i_run (interp host (S k)) (CDefaultToPrimitive_get b1)
                VUndefined args s)
        with (DefaultToPrimitive_get host (interp host k) b1 args s).
      unfold DefaultToPrimitive_get, args, arg. cbn [nth]. fold args.
      apply bind_base. rewrite Hsa, Hab. unfold args.
      by rewrite DefaultToStringTag_get_other. }
    split; intros c s' Hc Hrun.
    + by rewrite <- HAB.
    + rewrite <- HAB in Hrun.
      by apply (le_run _ _ (interp_le_succ host (S (S n)))).
Qed.

End Commute.

(** * Layers above [AllowGetTarget] that change its answer *)

Lemma proxy_over_lookups ls root s lt o c' s' :
  heap s !! lt = Some o →
  decorated ls root s = (Normal c', s') →
  heap s' = heap s →
  let s1 :=
    set_heap
      (heap s ++ [OHandler c';
                  OProxy (VRef lt) (VRef (length (heap s)))
                    (is_callable (heap s) (VRef lt))]) s' in
  proxy_over ls root (VRef lt) s = (Normal (VRef (S (length (heap s)))), s1)
  ∧ heap s1 !! S (length (heap s))
    = Some (OProxy (VRef lt) (VRef (length (heap s)))
              (is_callable (heap s) (VRef lt)))
  ∧ heap s1 !! length (heap s) = Some (OHandler c')
  ∧ heap s1 !! lt = Some o
  ∧ length (heap s1) = S (S (length (heap s)))
  ∧ classes s1 = classes s'.
Proof.
  intros Ht Hd Hh s1. split; [by eapply proxy_over_result|].
  unfold s1. simpl. split; [|split; [|split; [|split]]].
  - rewrite lookup_app_r by lia. replace (S _ - _) with 1 by lia. done.
  - rewrite lookup_app_r by lia. by rewrite Nat.sub_diag.
  - rewrite lookup_app_l by by eapply lookup_lt_Some. done.
  - rewrite length_app. simpl. lia.
  - done.
Qed.

(** X18.  [@Mapped(mapper) @AllowGetTarget]: the read of the reserved key goes
    through the function [Mapped] installed, so [AllowGetTarget] is handed the
    mapped target and [getTarget] returns what the mapper returned for the
    target, in the state the mapper left. *)
Theorem getTarget_under_Mapped host mapper below root s lt proto props call :
  heap s !! lt = Some (OObject proto props call) →
  own (KSymbol getTargetSymbol) props = None →
  ∃ proxy s1,
    proxy_over (LMapped mapper :: LAllowGetTarget :: below) root (VRef lt) s
      = (Normal proxy, s1)
    ∧ ∀ n mapped s2,
        i_Call (interp host n) mapper VUndefined [VRef lt] s1
          = (Normal mapped, s2) →
        getTarget host (n + 2) proxy s1 = (Normal mapped, s2).
Proof.
  intros Ht Hown.
  destruct (decorated_total below root s) as (c1 & s1 & Hd1 & Hh1 & _).
  set (c2 := length (classes s1)).
  set (cl := {| parent := Some c1;
                methods := {[ "get" := CAllowGetTarget_get c2 ]} |}).
  set (cs3 := update_methods (cl :: classes s1) c2
                (λ own,
                   map_imap
                     (λ propName v,
                        if decide (propName = "constructor") then None
                        else Some (Mapped_decorator (Reflect_ownKeys s1) mapper
                                     propName v))
                     (all_methods (cl :: classes s1) c2) ∪ own)).
  assert (Hd : decorated (LMapped mapper :: LAllowGetTarget :: below) root s
               = (Normal c2, set_classes cs3 s1)).
  { assert (Hd2 : decorated (LAllowGetTarget :: below) root s
                  = (Normal c2, set_classes (cl :: classes s1) s1)).
    { change (decorated (LAllowGetTarget :: below) root s)
        with ((let* c' := decorated below root in
               decorate LAllowGetTarget c') s).
      by rewrite (bind_Normal _ _ _ _ _ Hd1). }
    change (decorated (LMapped mapper :: LAllowGetTarget :: below) root s)
      with ((let* c' := decorated (LAllowGetTarget :: below) root in
             decorate (LMapped mapper) c') s).
    by rewrite (bind_Normal _ _ _ _ _ Hd2). }
  assert (Hg : lookup_method cs3 c2 "get"
               = Some (CMapped mapper (CAllowGetTarget_get c2))).
  { unfold cs3. rewrite lookup_method_redefined.
    unfold cl, c2. rewrite (lookup_method_new _ _ _ "get" _
                              (lookup_singleton_eq _ _)).
    by rewrite decide_False. }
  destruct (proxy_over_lookups _ root s lt _ _ _ Ht Hd Hh1)
    as (Hproxy & Hp & Hh & Htgt & Hlen & Hcls).
  eexists _, _. split; [exact Hproxy|].
  set (σ := set_heap _ _) in *.
  intros n mapped s2 Hcall.
  destruct n as [|n].
  { discriminate Hcall. }
  replace (S n + 2) with (S (S (S n))) by lia.
  unfold getTarget, GetV.
  change (i_Get (interp host (S (S (S n))))) with (Get (interp host (S (S n)))).
  unfold Get. unfold bind at 1, get_object at 1, gets at 1. rewrite Hp.
  rewrite (bind_Normal _ _ _ _ _ (get_trap_handler _ _ _ _ Hh)).
  rewrite Hcls. cbn [classes set_classes]. rewrite Hg.
  assert (Hrun : i_run (interp host (S (S n)))
                   (CMapped mapper (CAllowGetTarget_get c2))
                   (VRef (length (heap s)))
                   [VRef lt; key_value (KSymbol getTargetSymbol);
                    VRef (S (length (heap s)))] σ
                 = (Normal mapped, s2)).
  { rewrite Mapped_value_run. unfold arg. cbn [nth tail].
    by rewrite (bind_Normal _ _ _ _ _ Hcall). }
  rewrite (bind_Normal _ _ _ _ _ Hrun).
  destruct (p_Call _ _ (interp_preserving host (length (heap σ)) (S n))
              _ _ _ _ _ _ (le_n _) Hcall) as (_ & _ & Hold).
  assert (Ht2 : heap s2 !! lt = Some (OObject proto props call)).
  { rewrite Hold; [done|]. by eapply lookup_lt_Some. }
  change (i_GetOwnProperty (interp host (S (S n))))
    with (GetOwnProperty (interp host (S n))).
  unfold GetOwnProperty, bind, get_object, gets. rewrite Ht2. simpl.
  by rewrite Hown.
Qed.

(** X19.  [@TargetAsThis @AllowGetTarget] over a target that is a function:
    [TargetAsThis] finds the answer of [AllowGetTarget] callable and wraps it,
    so [getTarget] returns a new function object, not the target. *)
Theorem getTarget_under_TargetAsThis host below root s lt proto props code :
  heap s !! lt = Some (OObject proto props (Some code)) →
  own (KSymbol getTargetSymbol) props = None →
  ∃ proxy s1,
    proxy_over (LTargetAsThis :: LAllowGetTarget :: below) root (VRef lt) s
      = (Normal proxy, s1)
    ∧ ∀ n name s2,
        GetV (interp host n) (VRef lt) (KString "name")
          (with_wrappedFunction host (VRef lt) proxy (VRef lt) s1)
          = (Normal name, s2) →
        getTarget host (n + 2) proxy s1
        = (Normal (VRef (length (heap s1))),
           with_wrapper host name (VRef lt) proxy (VRef lt) s1 s2)
        ∧ VRef (length (heap s1)) ≠ VRef lt.
Proof.
  intros Ht Hown.
  destruct (decorated_total below root s) as (c1 & s1 & Hd1 & Hh1 & _).
  set (c2 := length (classes s1)).
  set (cl := {| parent := Some c1;
                methods := {[ "get" := CAllowGetTarget_get c2 ]} |}).
  set (c3 := S c2).
  set (cl' := {| parent := Some c2;
                 methods := {[ "get" := CTargetAsThis_get c3 ]} |}).
  assert (Hd : decorated (LTargetAsThis :: LAllowGetTarget :: below) root s
               = (Normal c3, set_classes (cl' :: cl :: classes s1) s1)).
  { assert (Hd2 : decorated (LAllowGetTarget :: below) root s
                  = (Normal c2, set_classes (cl :: classes s1) s1)).
    { change (decorated (LAllowGetTarget :: below) root s)
        with ((let* c' := decorated below root in
               decorate LAllowGetTarget c') s).
      by rewrite (bind_Normal _ _ _ _ _ Hd1). }
    change (decorated (LTargetAsThis :: LAllowGetTarget :: below) root s)
      with ((let* c' := decorated (LAllowGetTarget :: below) root in
             decorate LTargetAsThis c') s).
    by rewrite (bind_Normal _ _ _ _ _ Hd2). }
  destruct (proxy_over_lookups _ root s lt _ _ _ Ht Hd Hh1)
    as (Hpo & Hp & Hh & Htgt & Hlen & Hcls).
  eexists _, _. split; [exact Hpo|].
  set (σ := set_heap _ _) in *.
  intros n name s2 Hname.
  destruct n as [|n].
  { discriminate Hname. }
  replace (S n + 2) with (S (S (S n))) by lia.
  assert (Hlt : lt < length (heap σ)) by (by eapply lookup_lt_Some).
  split.
  2: { intros Heq. assert (length (heap σ) = lt) by congruence. lia. }
  assert (Hsuper : super_get_or_Reflect_get (interp host (S n)) c3
                     [VRef lt; VSymbol getTargetSymbol;
                      VRef (S (length (heap s)))] σ
                   = (Normal (VRef lt), σ)).
  { rewrite super_get_resolved, Hcls. cbn [classes set_classes].
    unfold cl', c3.
    rewrite (super_lookup_new (cl :: classes s1) c2).
    unfold cl, c2.
    by rewrite (lookup_method_new _ _ _ "get" _ (lookup_singleton_eq _ _)). }
  assert (Hfn : is_callable (heap σ) (VRef lt) = true).
  { unfold is_callable. by rewrite Htgt. }
  assert (Hrun : i_run (interp host (S (S n))) (CTargetAsThis_get c3)
                   (VRef (length (heap s)))
                   [VRef lt; VSymbol getTargetSymbol;
                    VRef (S (length (heap s)))] σ
                 = (Normal (VRef (length (heap σ))),
                    with_wrapper host name (VRef lt)
                      (VRef (S (length (heap s)))) (VRef lt) σ s2)).
  { by apply (TargetAsThis_get_function host (S n) c3). }
  unfold getTarget, GetV.
  change (i_Get (interp host (S (S (S n))))) with (Get (interp host (S (S n)))).
  unfold Get. unfold bind at 1, get_object at 1, gets at 1. rewrite Hp.
  rewrite (bind_Normal _ _ _ _ _ (get_trap_handler _ _ _ _ Hh)).
  rewrite Hcls. cbn [classes set_classes].
  unfold cl' at 1, c3 at 1.
  rewrite (lookup_method_new (cl :: classes s1) c2 _ "get" _
             (lookup_singleton_eq _ _)).
  fold c2 c3. change (key_value (KSymbol getTargetSymbol))
    with (VSymbol getTargetSymbol).
  rewrite (bind_Normal _ _ _ _ _ Hrun).
  pose proof (with_wrapper_frame _ _ _ _ _ _ _ _ Hname) as (_ & _ & Hold).
  assert (Ht2 : heap (with_wrapper host name (VRef lt)
                        (VRef (S (length (heap s)))) (VRef lt) σ s2)
                !! lt = Some (OObject proto props (Some code))).
  { unfold with_wrapper. cbn [heap set_heap].
    rewrite list_lookup_insert_ne by lia.
    rewrite Hold by lia.
    unfold with_wrappedFunction, new_function. cbn [snd heap set_heap].
    rewrite lookup_app_l by done. done. }
  change (i_GetOwnProperty (interp host (S (S n))))
    with (GetOwnProperty (interp host (S n))).
  unfold GetOwnProperty, bind, get_object, gets. rewrite Ht2. simpl.
  by rewrite Hown.
Qed.

(** * [Mapped] and the classes around the one it is applied to *)

Lemma own_methods_update_other cs c f c0 :
  c0 ≠ c →
  own_methods (update_methods cs c f) c0 = own_methods cs c0.
Proof.
  intros Hne. induction cs as [|cl older IH]; simpl; [done|].
  case_decide as Hc; simpl.
  - by repeat case_decide; try lia.
  - rewrite update_methods_length. by case_decide.
Qed.

(** X20.  [Mapped] wraps the operations the class inherits as well as its own
    (that is [deep: true]) and defines the result on the class itself: a class
    below the one it is applied to, a superclass in particular, resolves every
    name as before and keeps its own methods. *)
Theorem Mapped_leaves_superclasses mapper c s :
  ∃ s',
    Mapped mapper c s = (Normal (), s')
    ∧ (∀ name originalValue,
         lookup_method (classes s) c name = Some originalValue →
         name ≠ "constructor" →
         c < length (classes s) →
         own_methods (classes s') c !! name
         = Some
             (Mapped_decorator (Reflect_ownKeys s) mapper name
                originalValue))
    ∧ ∀ c0,
        c0 < c →
        own_methods (classes s') c0 = own_methods (classes s) c0
        ∧ ∀ name,
            lookup_method (classes s') c0 name
            = lookup_method (classes s) c0 name
            ∧ super_lookup (classes s') c0 name
              = super_lookup (classes s) c0 name.
Proof.
  eexists. split; [done|]. cbn [classes set_classes].
  split.
  - intros name originalValue Hm Hname Hc.
    rewrite own_methods_update by done.
    apply lookup_union_Some_l. rewrite map_lookup_imap.
    rewrite all_methods_lookup, Hm. simpl. by rewrite decide_False.
  - intros c0 Hc0. split; [|intros name; split].
    + apply own_methods_update_other. lia.
    + by apply lookup_method_update_older.
    + apply super_lookup_update. lia.
Qed.

(** * What the class expressions leave alone *)

(** X21.  The four class expressions override [get] and nothing else: a
    handler class built from them resolves every other operation ([set],
    [has], [apply], ...) to what the root class resolves it to. *)
Theorem stack_overrides_only_get ls root s :
  (∀ mapper, LMapped mapper ∉ ls) →
  ∃ c s',
    decorated ls root s = (Normal c, s')
    ∧ ∀ name,
        name ≠ "get" →
        lookup_method (classes s') c name = lookup_method (classes s) root name.
Proof.
  induction ls as [|l ls IH]; intros Hm.
  - by exists root, s.
  - destruct IH as (c1 & s1 & Hd & Hsame).
    { intros m Hin. apply (Hm m). by right. }
    assert (Hext : ∀ k : Code,
      ∀ name,
        name ≠ "get" →
        lookup_method
          ({| parent := Some c1; methods := {[ "get" := k ]} |} :: classes s1)
          (length (classes s1)) name
        = lookup_method (classes s) root name).
    { intros k name Hname. simpl. rewrite decide_True by done.
      rewrite lookup_singleton_ne by done. by apply Hsame. }
    change (decorated (l :: ls) root s)
      with ((let* c' := decorated ls root in decorate l c') s).
    rewrite (bind_Normal _ _ _ _ _ Hd).
    destruct l as [| | | |mapper];
      [eexists _, _; split; [done|]; apply Hext..|].
    destruct (Hm mapper). by left.
Qed.


(** * More runs in the small world *)

Lemma getTarget_of_plain_object_witness :
  lacks_key 2 (heap ex_state) (KSymbol getTargetSymbol) (VRef 0) = true
  ∧ getTarget ex_host 2 (VRef 0) ex_state = (Normal VUndefined, ex_state).
Proof.
  split; [reflexivity|].
  apply (getTarget_of_plain_object ex_host 2 ex_state (VRef 0) 2);
    [reflexivity|lia].
Defined.

Lemma ex_nested_exposes :
  exposes (classes ex_nested) true (CDefaultToPrimitive_get 5) 1.
Proof.
  apply exposes_DefaultToPrimitive with (g := CAllowGetTarget_get 4).
  - vm_compute. lia.
  - vm_compute. reflexivity.
  - constructor.
Qed.

Lemma getTarget_takes_off_one_proxy_witness :
  heap ex_nested !! 9 = Some (OProxy (VRef 7) (VRef 8) false)
  ∧ heap ex_nested !! 7 = Some (OProxy (VRef 0) (VRef 6) false)
  ∧ getTarget ex_host 5 (VRef 9) ex_nested = (Normal (VRef 7), ex_nested).
Proof.
  split; [reflexivity|]. split; [reflexivity|].
  apply (getTarget_takes_off_one_proxy ex_host ex_nested 9 7 8 5 false
           (CDefaultToPrimitive_get 5) true 1 2 5).
  - reflexivity.
  - reflexivity.
  - vm_compute. reflexivity.
  - exact ex_nested_exposes.
  - intros _. reflexivity.
  - vm_compute. reflexivity.
  - lia.
Defined.

Lemma getTarget_of_object_inheriting_from_proxy_witness :
  heap ex_nested !! 10 = Some (OObject (VRef 9) [] None)
  ∧ getTarget ex_host 6 (VRef 10) ex_nested = (Normal (VRef 7), ex_nested).
Proof.
  split; [reflexivity|].
  apply (getTarget_of_object_inheriting_from_proxy ex_host ex_nested 10 []
           None 9 7 8 5 false (CDefaultToPrimitive_get 5) true 1 2 6).
  - reflexivity.
  - reflexivity.
  - reflexivity.
  - reflexivity.
  - vm_compute. reflexivity.
  - exact ex_nested_exposes.
  - intros _. reflexivity.
  - vm_compute. reflexivity.
  - lia.
Defined.

Lemma getTarget_runs_no_user_code_witness :
  ∃ proxy s1,
    proxy_over
      ([LDefaultToStringTag; LTargetAsThis]
       ++ LAllowGetTarget :: [LMapped (VRef 1); LDefaultToPrimitive])
      1 (VRef 0) ex_state
    = (Normal proxy, s1)
    ∧ trace s1 = trace ex_state
    ∧ ∀ n, 2 + 3 ≤ n →
           getTarget ex_host n proxy s1 = (Normal (VRef 0), s1).
Proof.
  apply (getTarget_runs_no_user_code ex_host
           [LDefaultToStringTag; LTargetAsThis]
           [LMapped (VRef 1); LDefaultToPrimitive] 1 ex_state 0 (VRef 2)
           [(KString "0", data (VString "hello") true true true);
            (KString "1", data (VString "world") true true true);
            (KString "greet", data (VRef 3) true false true)]
           None).
  - reflexivity.
  - reflexivity.
  - intros mapper Hin. apply elem_of_cons in Hin as [Hin|Hin]; [done|].
    apply elem_of_cons in Hin as [Hin|Hin]; [done|].
    by apply elem_of_nil in Hin.
  - intros [code Hcode]. discriminate Hcode.
Defined.

Lemma TargetAsThis_twice_witness :
  let s := ex_proxied [LTargetAsThis; LTargetAsThis] in
  let args := [VRef 0; VString "greet"; VRef 7] in
  let base := super_get_or_Reflect_get (interp ex_host 2) 3 args s in
  let named :=
    GetV (interp ex_host 2) (VRef 3) (KString "name")
      (with_wrappedFunction ex_host (VRef 3) (VRef 7) (VRef 0) base.2) in
  let s3 :=
    with_wrapper ex_host (VString "greet") (VRef 3) (VRef 7) (VRef 0)
      base.2 named.2 in
  super_lookup (classes s) 4 "get" = Some (CTargetAsThis_get 3)
  ∧ base = (Normal (VRef 3), base.2)
  ∧ is_callable (heap base.2) (VRef 3) = true
  ∧ named = (Normal (VString "greet"), named.2)
  ∧ i_run (interp ex_host 4) (CTargetAsThis_get 4) (VRef 6) args s
    = (Normal (VRef 10),
       with_wrapper ex_host (VString "greet") (VRef 8) (VRef 7) (VRef 0) s3
         (with_wrappedFunction ex_host (VRef 8) (VRef 7) (VRef 0) s3)).
Proof.
  intros s args base named s3.
  assert (Hsuper : super_lookup (classes s) 4 "get"
                   = Some (CTargetAsThis_get 3))
    by (vm_compute; reflexivity).
  assert (Hbase : base = (Normal (VRef 3), base.2))
    by (vm_compute; reflexivity).
  assert (Hfn : is_callable (heap base.2) (VRef 3) = true)
    by (vm_compute; reflexivity).
  assert (Hname : named = (Normal (VString "greet"), named.2))
    by (vm_compute; reflexivity).
  do 4 (split; [assumption|]).
  exact (proj1 (TargetAsThis_twice ex_host 2 3 4 (VRef 6) (VRef 0)
                  (VString "greet") (VRef 7) s (VRef 3) base.2
                  (VString "greet") named.2 Hsuper Hbase Hfn Hname)).
Defined.

(** Through the proxy: the method comes back wrapped twice and still runs on
    the target when called on the proxy, on its [this] otherwise. *)
Example TargetAsThis_twice_rebinds_this :
  let s := ex_proxied [LTargetAsThis; LTargetAsThis] in
  let read := GetV (interp ex_host 6) (VRef 7) (KString "greet") s in
  read.1 = Normal (VRef 10)
  ∧ (i_Call (interp ex_host 6) (VRef 10) (VRef 7) [] read.2).1
    = Normal (VRef 0)
  ∧ (i_Call (interp ex_host 6) (VRef 10) (VRef 2) [] read.2).1
    = Normal (VRef 2).
Proof. vm_compute. done. Qed.

(** [@Mapped(addBang) @Mapped(addBang)]: one read enters [addBang] twice,
    first with the target, then with the copy it made. *)
Example Mapped_twice_read :
  let s := ex_proxied [LMapped (VRef 1); LMapped (VRef 1)] in
  let read := GetV (interp ex_host 7) (VRef 7) (KString "0") s in
  read.1 = Normal (VString "hello!!")
  ∧ trace read.2
    = [{| ev_native := 0; ev_this := VUndefined; ev_args := [VRef 8] |};
       {| ev_native := 0; ev_this := VUndefined; ev_args := [VRef 0] |}].
Proof. vm_compute. done. Qed.

(** [@Mapped("no function")]: the layer is built, the first read throws. *)
Example Mapped_mapper_not_callable_read :
  let s := ex_proxied [LMapped (VString "no function")] in
  (GetV (interp ex_host 6) (VRef 7) (KString "0") s).1 = Throw TypeError.
Proof. vm_compute. done. Qed.

Lemma toPrimitive_hook_edges_witness :
  let s := ex_proxied [LDefaultToPrimitive] in
  let σ := (GetV (interp ex_host 6) (VRef 7) (KSymbol Symbol_toPrimitive) s).2
  in
  heap σ !! 8 = Some (hook ex_host (VRef 0))
  ∧ lacks_key 2 (heap σ) (KString "valueOf") (VRef 0) = true
  ∧ i_Call (interp ex_host 4) (VRef 8) VUndefined [VString "bigint"] σ
    = (Normal VUndefined, σ)
  ∧ i_Call (interp ex_host 4) (VRef 8) VUndefined [] σ = (Normal VUndefined, σ)
  ∧ i_Call (interp ex_host 5) (VRef 8) VUndefined [VString "default"] σ
    = (Throw TypeError, σ).
Proof.
  intros s σ.
  assert (Hw : heap σ !! 8 = Some (hook ex_host (VRef 0)))
    by (vm_compute; reflexivity).
  assert (Hlacks : lacks_key 2 (heap σ) (KString "valueOf") (VRef 0) = true)
    by (vm_compute; reflexivity).
  split; [exact Hw|]. split; [exact Hlacks|].
  destruct (toPrimitive_hook_edges ex_host 2 σ 8 (VRef 0) VUndefined Hw)
    as (Hother & Hnone & Hdefault).
  split; [by apply Hother|]. split; [exact Hnone|].
  exact (Hdefault 2 Hlacks (le_n 2)).
Defined.

(** Through the proxy, the method [greet] returns its [this]: the copy
    [addBang] made (location 8) under [@Mapped @TargetAsThis], the target
    (location 0) under [@TargetAsThis @Mapped]. *)
Example Mapped_TargetAsThis_order :
  let s := ex_proxied [LMapped (VRef 1); LTargetAsThis] in
  let read := GetV (interp ex_host 7) (VRef 7) (KString "greet") s in
  let s' := ex_proxied [LTargetAsThis; LMapped (VRef 1)] in
  let read' := GetV (interp ex_host 7) (VRef 7) (KString "greet") s' in
  read.1 = Normal (VRef 9)
  ∧ (i_Call (interp ex_host 7) (VRef 9) (VRef 7) [] read.2).1
    = Normal (VRef 8)
  ∧ read'.1 = Normal (VRef 9)
  ∧ (i_Call (interp ex_host 7) (VRef 9) (VRef 7) [] read'.2).1
    = Normal (VRef 0).
Proof. vm_compute. done. Qed.

Lemma no_Mapped_among_class_expressions :
  ∀ mapper,
    LMapped mapper
    ∉ [LDefaultToPrimitive; LDefaultToStringTag; LTargetAsThis].
Proof.
  intros mapper Hin.
  repeat (apply elem_of_cons in Hin as [Hin|Hin]; [done|]).
  by apply elem_of_nil in Hin.
Qed.

Lemma stack_passes_plain_values_witness :
  let ls := [LDefaultToPrimitive; LDefaultToStringTag; LTargetAsThis] in
  let σ := ex_proxied ls in
  let args := [VRef 0; VString "0"; VRef 7] in
  root_get (interp ex_host 2) (classes ex_state) 1 args σ
    = (Normal (VString "hello"), σ)
  ∧ ∃ top,
      lookup_method (classes σ) 5 "get" = Some top
      ∧ i_run (interp ex_host (2 + 3)) top (VRef 6) args σ
        = (Normal (VString "hello"), σ).
Proof.
  intros ls σ args.
  assert (Hbase : root_get (interp ex_host 2) (classes ex_state) 1 args σ
                  = (Normal (VString "hello"), σ))
    by (vm_compute; reflexivity).
  split; [exact Hbase|].
  destruct (stack_passes_plain_values ex_host ls 1 ex_state
              no_Mapped_among_class_expressions ltac:(discriminate))
    as (c & s' & top & Hd & Hg & Hread).
  assert (s' = (decorated ls 1 ex_state).2) as ->
    by exact (eq_sym (f_equal snd Hd)).
  assert (c = 5) as ->.
  { apply (f_equal fst) in Hd. vm_compute in Hd. by injection Hd. }
  exists top. split; [exact Hg|].
  apply (Hread 2 (VRef 6) (VRef 0) (VString "0") (VRef 7) σ
           (VString "hello") σ).
  - reflexivity.
  - exact Hbase.
  - reflexivity.
  - discriminate.
  - discriminate.
Defined.

Lemma stack_rethrows_witness :
  let ls := [LDefaultToPrimitive; LDefaultToStringTag; LTargetAsThis] in
  let σ := (proxy_over ls 2 (VRef 0) ex_state).2 in
  let args := [VRef 0; VString "0"; VRef 7] in
  let base := root_get (interp ex_host 1) (classes ex_state) 2 args σ in
  base = (Throw (Thrown (VString "boom")), base.2)
  ∧ ∃ top,
      lookup_method (classes σ) 5 "get" = Some top
      ∧ i_run (interp ex_host (1 + 3)) top (VRef 6) args σ
        = (Throw (Thrown (VString "boom")), base.2).
Proof.
  intros ls σ args base.
  assert (Hbase : base = (Throw (Thrown (VString "boom")), base.2))
    by (vm_compute; reflexivity).
  split; [exact Hbase|].
  destruct (stack_rethrows ex_host ls 2 ex_state
              no_Mapped_among_class_expressions ltac:(discriminate))
    as (c & s' & top & Hd & Hg & Hread).
  assert (s' = (decorated ls 2 ex_state).2) as ->
    by exact (eq_sym (f_equal snd Hd)).
  assert (c = 5) as ->.
  { apply (f_equal fst) in Hd. vm_compute in Hd. by injection Hd. }
  exists top. split; [exact Hg|].
  apply (Hread 1 (VRef 6) (VRef 0) (VString "0") (VRef 7) σ
           (Thrown (VString "boom")) base.2).
  - reflexivity.
  - exact Hbase.
  - discriminate.
Defined.

Lemma getTarget_rethrows_witness :
  let ls := [LDefaultToPrimitive; LDefaultToStringTag; LTargetAsThis] in
  lookup_method (classes ex_state) 2 "get" = Some (CNative 2)
  ∧ ∃ proxy s1,
      proxy_over ls 2 (VRef 0) ex_state = (Normal proxy, s1)
      ∧ ∀ n, 3 + 2 ≤ n →
             ∃ s2,
               getTarget ex_host n proxy s1
               = (Throw (Thrown (VString "boom")), s2).
Proof.
  intros ls.
  assert (Hg : lookup_method (classes ex_state) 2 "get" = Some (CNative 2))
    by (vm_compute; reflexivity).
  split; [exact Hg|].
  apply (getTarget_rethrows ex_host ls 2 ex_state 0
           (OObject (VRef 2)
              [(KString "0", data (VString "hello") true true true);
               (KString "1", data (VString "world") true true true);
               (KString "greet", data (VRef 3) true false true)]
              None)
           (CNative 2) (Thrown (VString "boom"))).
  - reflexivity.
  - exact no_Mapped_among_class_expressions.
  - intros Hin.
    repeat (apply elem_of_cons in Hin as [Hin|Hin]; [done|]).
    by apply elem_of_nil in Hin.
  - discriminate.
  - exact Hg.
  - intros n this target receiver σ. eexists. reflexivity.
Defined.

Lemma Mapped_without_get_witness :
  lookup_method (classes ex_bare) 3 "get" = None
  ∧ ∃ proxy s1,
      proxy_over [LMapped (VRef 1)] 3 (VRef 0) ex_bare = (Normal proxy, s1)
      ∧ trace s1 = trace ex_bare
      ∧ ∀ n P Receiver,
          i_Get (interp ex_host (S n)) proxy P Receiver s1
          = i_Get (interp ex_host n) (VRef 0) P Receiver s1.
Proof.
  assert (Hg : lookup_method (classes ex_bare) 3 "get" = None)
    by (vm_compute; reflexivity).
  split; [exact Hg|].
  apply (Mapped_without_get ex_host (VRef 1) 3 ex_bare 0
           (OObject (VRef 2)
              [(KString "0", data (VString "hello") true true true);
               (KString "1", data (VString "world") true true true);
               (KString "greet", data (VRef 3) true false true)]
              None)).
  - reflexivity.
  - exact Hg.
Defined.

(** Through the proxy: the string is read unmapped and [addBang] was not
    entered. *)
Example Mapped_without_get_read :
  let s := (proxy_over [LMapped (VRef 1)] 3 (VRef 0) ex_bare).2 in
  let read := GetV (interp ex_host 6) (VRef 7) (KString "0") s in
  read.1 = Normal (VString "hello") ∧ trace read.2 = [].
Proof. vm_compute. done. Qed.

Lemma AllowGetTarget_Mapped_stack_witness :
  let ls := [LDefaultToPrimitive; LDefaultToStringTag; LTargetAsThis] in
  let stack := LAllowGetTarget :: LMapped (VRef 1) :: ls in
  let σ := ex_proxied stack in
  let mapped := i_Call (interp ex_host (2 + 3)) (VRef 1) VUndefined [VRef 0] σ
  in
  let base :=
    root_get (interp ex_host 2) (classes ex_state) 1
      [VRef 8; VString "0"; VRef 7] mapped.2 in
  mapped = (Normal (VRef 8), mapped.2)
  ∧ base = (Normal (VString "hello!"), base.2)
  ∧ i_run (interp ex_host 7) (CAllowGetTarget_get 6) (VRef 6)
      [VRef 0; VString "0"; VRef 7] σ
    = (Normal (VString "hello!"), base.2)
  ∧ i_run (interp ex_host 7) (CAllowGetTarget_get 6) (VRef 6)
      [VRef 0; VSymbol getTargetSymbol; VRef 7] σ
    = (Normal (VRef 0), σ).
Proof.
  intros ls stack σ mapped base.
  assert (Hmapped : mapped = (Normal (VRef 8), mapped.2))
    by (vm_compute; reflexivity).
  assert (Hbase : base = (Normal (VString "hello!"), base.2))
    by (vm_compute; reflexivity).
  split; [exact Hmapped|]. split; [exact Hbase|].
  destruct (AllowGetTarget_Mapped_stack ex_host (VRef 1) ls 1 ex_state
              no_Mapped_among_class_expressions ltac:(discriminate))
    as (c & s' & below & Hd & Hg & Hsuper & Htarget & Hread).
  assert (s' = (decorated stack 1 ex_state).2) as ->
    by exact (eq_sym (f_equal snd Hd)).
  assert (c = 6) as ->.
  { apply (f_equal fst) in Hd. vm_compute in Hd. by injection Hd. }
  split; [|exact (Htarget 6 (VRef 6) (VRef 0) (VRef 7) σ)].
  apply (Hread 2 (VRef 6) (VRef 0) (VString "0") (VRef 7) σ (VRef 8) mapped.2
           (VString "hello!") base.2).
  - reflexivity.
  - discriminate.
  - exact Hmapped.
  - exact Hbase.
  - reflexivity.
  - discriminate.
Defined.

(** The package's own example through the proxy: index 0 reads ["hello!"],
    [addBang] is entered once per read, and [getTarget] gives the array
    back. *)
Example README_example :
  let σ :=
    ex_proxied
      [LAllowGetTarget; LMapped (VRef 1); LDefaultToPrimitive;
       LDefaultToStringTag; LTargetAsThis] in
  let read := GetV (interp ex_host 9) (VRef 7) (KString "0") σ in
  let again := GetV (interp ex_host 9) (VRef 7) (KString "0") read.2 in
  trace σ = []
  ∧ read.1 = Normal (VString "hello!")
  ∧ length (trace read.2) = 1
  ∧ again.1 = Normal (VString "hello!")
  ∧ length (trace again.2) = 2
  ∧ (getTarget ex_host 9 (VRef 7) again.2).1 = Normal (VRef 0).
Proof. vm_compute. done. Qed.

Lemma DefaultToPrimitive_DefaultToStringTag_commute_witness :
  let s := ex_both_orders in
  let args := [VRef 0; VSymbol Symbol_toStringTag; VRef 7] in
  let first :=
    i_run (interp ex_host 5) (CDefaultToPrimitive_get 4) (VRef 6) args s in
  super_lookup (classes s) 4 "get" = Some (CDefaultToStringTag_get 3)
  ∧ super_lookup (classes s) 6 "get" = Some (CDefaultToPrimitive_get 5)
  ∧ super_lookup (classes s) 3 "get" = super_lookup (classes s) 5 "get"
  ∧ first = (Normal (VString "Foo"), first.2)
  ∧ i_run (interp ex_host 5) (CDefaultToStringTag_get 6) (VRef 6) args s
    = (Normal (VString "Foo"), first.2).
Proof.
  intros s args first.
  assert (Ha : super_lookup (classes s) 4 "get"
               = Some (CDefaultToStringTag_get 3))
    by (vm_compute; reflexivity).
  assert (Hb : super_lookup (classes s) 6 "get"
               = Some (CDefaultToPrimitive_get 5))
    by (vm_compute; reflexivity).
  assert (Hbase : super_lookup (classes s) 3 "get"
                  = super_lookup (classes s) 5 "get")
    by (vm_compute; reflexivity).
  assert (Hfirst : first = (Normal (VString "Foo"), first.2))
    by (vm_compute; reflexivity).
  do 4 (split; [assumption|]).
  destruct (DefaultToPrimitive_DefaultToStringTag_commute ex_host 3 3 4 5 6
              (VRef 6) (VRef 6) (VRef 0) (VSymbol Symbol_toStringTag)
              (VRef 7) s Ha Hb Hbase) as [Hto _].
  apply Hto; [discriminate|exact Hfirst].
Defined.

Lemma getTarget_under_Mapped_witness :
  let σ := ex_proxied [LMapped (VRef 1); LAllowGetTarget] in
  let mapped := i_Call (interp ex_host 2) (VRef 1) VUndefined [VRef 0] σ in
  mapped = (Normal (VRef 8), mapped.2)
  ∧ getTarget ex_host (2 + 2) (VRef 7) σ = (Normal (VRef 8), mapped.2).
Proof.
  intros σ mapped.
  assert (Hmapped : mapped = (Normal (VRef 8), mapped.2))
    by (vm_compute; reflexivity).
  split; [exact Hmapped|].
  destruct (getTarget_under_Mapped ex_host (VRef 1) [] 1 ex_state 0 (VRef 2)
              [(KString "0", data (VString "hello") true true true);
               (KString "1", data (VString "world") true true true);
               (KString "greet", data (VRef 3) true false true)]
              None eq_refl eq_refl)
    as (proxy & s1 & Hp & Hread).
  assert (s1 = σ) as -> by exact (eq_sym (f_equal snd Hp)).
  assert (proxy = VRef 7) as ->.
  { apply (f_equal fst) in Hp. vm_compute in Hp. by injection Hp. }
  exact (Hread 2 (VRef 8) mapped.2 Hmapped).
Defined.

Lemma getTarget_under_TargetAsThis_witness :
  let σ := (proxy_over [LTargetAsThis; LAllowGetTarget] 1 (VRef 3) ex_state).2
  in
  let named :=
    GetV (interp ex_host 1) (VRef 3) (KString "name")
      (with_wrappedFunction ex_host (VRef 3) (VRef 7) (VRef 3) σ) in
  heap ex_state !! 3
    = Some (OObject VNull
              [(KString "name", data (VString "greet") false false true)]
              (Some (CNative 1)))
  ∧ named = (Normal (VString "greet"), named.2)
  ∧ getTarget ex_host (1 + 2) (VRef 7) σ
    = (Normal (VRef 8),
       with_wrapper ex_host (VString "greet") (VRef 3) (VRef 7) (VRef 3) σ
         named.2).
Proof.
  intros σ named.
  assert (Hnamed : named = (Normal (VString "greet"), named.2))
    by (vm_compute; reflexivity).
  split; [reflexivity|]. split; [exact Hnamed|].
  destruct (getTarget_under_TargetAsThis ex_host [] 1 ex_state 3 VNull
              [(KString "name", data (VString "greet") false false true)]
              (CNative 1) eq_refl eq_refl)
    as (proxy & s1 & Hp & Hread).
  assert (s1 = σ) as -> by exact (eq_sym (f_equal snd Hp)).
  assert (proxy = VRef 7) as ->.
  { apply (f_equal fst) in Hp. vm_compute in Hp. by injection Hp. }
  exact (proj1 (Hread 1 (VString "greet") named.2 Hnamed)).
Defined.

(** [Mapped] applied to the empty class 1, which inherits [get] from class
    0: class 1 gets a [get] of its own, class 0 keeps its own. *)
Example Mapped_leaves_superclasses_example :
  let s' := (Mapped (VRef 1) 1 ex_state).2 in
  own_methods (classes ex_state) 1 !! "get" = None
  ∧ own_methods (classes s') 1 !! "get" = Some (CMapped (VRef 1) CReflect_get)
  ∧ own_methods (classes s') 0 !! "get" = Some CReflect_get.
Proof. vm_compute. done. Qed.

(** A stack with [Mapped] in the middle over class 1: three classes are
    added, and classes 0, 1 and 2 resolve [get] as before. *)
Example decorated_stack_example :
  let s' :=
    (decorated
       [LAllowGetTarget; LMapped (VRef 1); LDefaultToPrimitive;
        LDefaultToStringTag] 1 ex_state).2 in
  length (classes s') = 3 + 3
  ∧ lookup_method (classes s') 0 "get" = Some CReflect_get
  ∧ lookup_method (classes s') 1 "get" = Some CReflect_get
  ∧ lookup_method (classes s') 2 "get" = Some (CNative 2).
Proof. vm_compute. done. Qed.

Lemma stack_overrides_only_get_witness :
  let ls := [LAllowGetTarget; LDefaultToPrimitive; LTargetAsThis] in
  ∃ c s',
    decorated ls 2 ex_state = (Normal c, s')
    ∧ lookup_method (classes s') c "get" = Some (CAllowGetTarget_get 5)
    ∧ ∀ name,
        name ≠ "get" →
        lookup_method (classes s') c name
        = lookup_method (classes ex_state) 2 name.
Proof.
  intros ls.
  destruct (stack_overrides_only_get ls 2 ex_state) as (c & s' & Hd & Hsame).
  { intros mapper Hin.
    repeat (apply elem_of_cons in Hin as [Hin|Hin]; [done|]).
    by apply elem_of_nil in Hin. }
  exists c, s'. split; [exact Hd|]. split; [|exact Hsame].
  assert (s' = (decorated ls 2 ex_state).2) as ->
    by exact (eq_sym (f_equal snd Hd)).
  assert (c = 5) as ->.
  { apply (f_equal fst) in Hd. vm_compute in Hd. by injection Hd. }
  vm_compute. reflexivity.
Defined.

(** * The layers as the decorators install them *)

Lemma lookup_answers_reads host cs c get :
  lookup_method cs c "get" = Some get → answers_reads_with host cs c get.
Proof.
  intros Hg n σ lp lh target callable P Receiver Hcs Hp Hh.
  split; [intros v σ1 d σ2 Hrun Hdesc|intros e σ1 Hrun];
    change (i_Get (interp host (S n))) with (Get (interp host n));
    unfold Get; unfold bind at 1, get_object at 1, gets at 1; rewrite Hp;
    rewrite (bind_Normal _ _ _ _ _ (get_trap_handler _ _ _ _ Hh)), Hcs, Hg.
  - rewrite (bind_Normal _ _ _ _ _ Hrun). cbv beta.
    rewrite (bind_Normal _ _ _ _ _ Hdesc). cbv beta.
    destruct d as [d|]; [|done]. unfold violates_invariant.
    by destruct (configurable d), (writable d), (same_value v (value d)).
  - by rewrite (bind_Throw _ _ _ _ _ Hrun).
Qed.

Section Installed.

Variable host : Host.



End Installed.









Section MappedAndTargetAsThis.

Variable host : Host.

(** X9.  [@Mapped(mapper) @TargetAsThis class C]: the [get] of the
    resulting handler class is [Mapped]'s function around the [get] of
    [TargetAsThis].  [TargetAsThis] is handed the mapped target, looks
    the property up on it and binds [this] to it: a method read through
    the proxy and called on it runs on [mapper(target)]. *)
Theorem Mapped_above_TargetAsThis mapper root s :
  ∃ c s' get,
    decorated [LMapped mapper; LTargetAsThis] root s = (Normal c, s')
    ∧ lookup_method (classes s') c "get" = Some get
    ∧ answers_reads_with host (classes s') c get
    ∧ ∀ n this target p receiver σ mapped σ0 property σ1 name σ2,
        let w := length (heap σ1) in
        classes σ = classes s' →
        i_Call (interp host (S n)) mapper VUndefined [target] σ
          = (Normal mapped, σ0) →
        root_get (interp host n) (classes s) root [mapped; p; receiver] σ0
          = (Normal property, σ1) →
        is_callable (heap σ1) property = true →
        GetV (interp host n) property (KString "name")
          (with_wrappedFunction host property receiver mapped σ1)
          = (Normal name, σ2) →
        i_run (interp host (S (S n))) get this [target; p; receiver] σ
        = (Normal (VRef w),
           with_wrapper host name property receiver mapped σ1 σ2)
        ∧ ∀ m σ' thisArg argArray,
            heap σ' !! w
              = Some (wrapper host w name property receiver mapped) →
            strict_equals thisArg receiver = true →
            i_Call (interp host (S (S m))) (VRef w) thisArg argArray σ'
            = i_Call (interp host m) property mapped argArray σ'.
Proof.
  set (c := length (classes s)).
  set (cl := {| parent := Some root;
                methods := {[ "get" := CTargetAsThis_get c ]} |}).
  set (s1 := set_classes (cl :: classes s) s).
  set (cs2 := update_methods (cl :: classes s) c
                (λ own,
                   map_imap
                     (λ propName v,
                        if decide (propName = "constructor") then None
                        else Some (Mapped_decorator (Reflect_ownKeys s1)
                                     mapper propName v))
                     (all_methods (cl :: classes s) c) ∪ own)).
  assert (Hg : lookup_method cs2 c "get"
               = Some (CMapped mapper (CTargetAsThis_get c))).
  { unfold cs2. rewrite lookup_method_redefined.
    unfold cl, c. rewrite (lookup_method_new _ _ _ "get" _
                             (lookup_singleton_eq _ _)).
    rewrite decide_False by done. unfold Mapped_decorator.
    by rewrite Reflect_owns_get. }
  assert (Hsuper : super_lookup cs2 c "get"
                   = lookup_method (classes s) root "get").
  { unfold cs2. rewrite super_lookup_update by done.
    apply super_lookup_new. }
  exists c, (set_classes cs2 s1), (CMapped mapper (CTargetAsThis_get c)).
  split; [done|]. cbn [classes set_classes].
  split; [done|]. split; [by apply lookup_answers_reads|].
  intros n this target p receiver σ mapped σ0 property σ1 name σ2 Hcs
    Hmapper Hbase Hfn Hname.
  destruct (p_Call _ _ (interp_preserving host 0 (S n)) _ _ _ _ _ _
              (Nat.le_0_l _) Hmapper) as (Hcs0 & _).
  apply (Mapped_above_TargetAsThis_layer host n mapper c this target p
           receiver σ mapped σ0 property σ1 name σ2); [done| |done..].
  rewrite super_get_resolved, Hcs0, Hcs, Hsuper. exact Hbase.
Qed.

(** X10.  [@TargetAsThis @Mapped(mapper) class C], for a class [C]
    that has or inherits a [get]: the [get] of the resulting handler
    class is the one of [TargetAsThis], over the function [Mapped] put in
    place of the [get] of [C].  [TargetAsThis] is handed the target as it
    is; the property comes from the layer below, which looked it up on
    [mapper(target)].  A method read through the proxy and called on it
    is the method of the mapped object, run on the target that was not
    mapped. *)
Theorem TargetAsThis_above_Mapped mapper root s g :
  lookup_method (classes s) root "get" = Some g →
  ∃ c s' get,
    decorated [LTargetAsThis; LMapped mapper] root s = (Normal c, s')
    ∧ lookup_method (classes s') c "get" = Some get
    ∧ answers_reads_with host (classes s') c get
    ∧ ∀ n this target p receiver σ mapped σ0 property σ1 name σ2,
        let w := length (heap σ1) in
        classes σ = classes s' →
        i_Call (interp host n) mapper VUndefined [target] σ
          = (Normal mapped, σ0) →
        i_run (interp host n) g VUndefined [mapped; p; receiver] σ0
          = (Normal property, σ1) →
        is_callable (heap σ1) property = true →
        GetV (interp host (S n)) property (KString "name")
          (with_wrappedFunction host property receiver target σ1)
          = (Normal name, σ2) →
        i_run (interp host (S (S n))) get this [target; p; receiver] σ
        = (Normal (VRef w),
           with_wrapper host name property receiver target σ1 σ2)
        ∧ ∀ m σ' thisArg argArray,
            heap σ' !! w
              = Some (wrapper host w name property receiver target) →
            strict_equals thisArg receiver = true →
            i_Call (interp host (S (S m))) (VRef w) thisArg argArray σ'
            = i_Call (interp host m) property target argArray σ'.
Proof.
  intros Hroot.
  set (cs1 := update_methods (classes s) root
                (λ own,
                   map_imap
                     (λ propName v,
                        if decide (propName = "constructor") then None
                        else Some (Mapped_decorator (Reflect_ownKeys s)
                                     mapper propName v))
                     (all_methods (classes s) root) ∪ own)).
  set (c := length cs1).
  set (cl := {| parent := Some root;
                methods := {[ "get" := CTargetAsThis_get c ]} |}).
  assert (Hg : lookup_method cs1 root "get" = Some (CMapped mapper g)).
  { unfold cs1. rewrite lookup_method_redefined, Hroot.
    rewrite decide_False by done. unfold Mapped_decorator.
    by rewrite Reflect_owns_get. }
  assert (Hsuper : super_lookup (cl :: cs1) c "get"
                   = Some (CMapped mapper g)).
  { unfold cl, c. by rewrite super_lookup_new. }
  exists c, (set_classes (cl :: cs1) s), (CTargetAsThis_get c).
  split; [done|]. cbn [classes set_classes].
  split; [apply lookup_method_new, lookup_singleton_eq|].
  split; [apply lookup_answers_reads, lookup_method_new,
            lookup_singleton_eq|].
  intros n this target p receiver σ mapped σ0 property σ1 name σ2 Hcs
    Hmapper Hbase Hfn Hname.
  apply (TargetAsThis_above_Mapped_layer host n mapper g c this target p
           receiver σ mapped σ0 property σ1 name σ2); [|done..].
  by rewrite Hcs.
Qed.

End MappedAndTargetAsThis.

(** * Reads through the proxies of the small world *)

(** The decorated class is the one the decorator returned, in the state it
    left. *)
Lemma decorated_pin (m : M ClassRef) s c s' :
  m s = (Normal c, s') → (m s).1 = Normal c ∧ s' = (m s).2.
Proof. by intros ->. Qed.






(** Through the proxy over the instance of [Foo], with
    [@Mapped(addBang) @TargetAsThis]: [greet] comes back as a function
    (location 9) bound to the copy [addBang] made (location 8). *)
Lemma Mapped_above_TargetAsThis_witness :
  let σ := ex_proxied [LMapped (VRef 1); LTargetAsThis] in
  let mapped := i_Call (interp ex_host 3) (VRef 1) VUndefined [VRef 0] σ in
  let base :=
    root_get (interp ex_host 2) (classes ex_state) 1
      [VRef 8; VString "greet"; VRef 7] mapped.2 in
  let named :=
    GetV (interp ex_host 2) (VRef 3) (KString "name")
      (with_wrappedFunction ex_host (VRef 3) (VRef 7) (VRef 8) base.2) in
  let σ3 :=
    with_wrapper ex_host (VString "greet") (VRef 3) (VRef 7) (VRef 8)
      base.2 named.2 in
  mapped = (Normal (VRef 8), mapped.2)
  ∧ base = (Normal (VRef 3), base.2)
  ∧ is_callable (heap base.2) (VRef 3) = true
  ∧ named = (Normal (VString "greet"), named.2)
  ∧ i_Get (interp ex_host 5) (VRef 7) (KString "greet") (VRef 7) σ
    = (Normal (VRef 9), σ3)
  ∧ i_Call (interp ex_host 3) (VRef 9) (VRef 7) [] σ3
    = i_Call (interp ex_host 1) (VRef 3) (VRef 8) [] σ3.
Proof.
  intros σ mapped base named σ3.
  assert (Hmapped : mapped = (Normal (VRef 8), mapped.2))
    by (vm_compute; reflexivity).
  assert (Hbase : base = (Normal (VRef 3), base.2))
    by (vm_compute; reflexivity).
  assert (Hfn : is_callable (heap base.2) (VRef 3) = true)
    by (vm_compute; reflexivity).
  assert (Hname : named = (Normal (VString "greet"), named.2))
    by (vm_compute; reflexivity).
  do 4 (split; [assumption|]).
  destruct (Mapped_above_TargetAsThis ex_host (VRef 1) 1 ex_state)
    as (c & s' & get & Hd & Hg & Hreads & Hlayer).
  destruct (decorated_pin _ _ _ _ Hd) as [[= <-] ->].
  assert (Hcs : classes σ
                = classes
                    (decorated [LMapped (VRef 1); LTargetAsThis] 1
                       ex_state).2)
    by (vm_compute; reflexivity).
  destruct (Hlayer 2 (VRef 6) (VRef 0) (VString "greet") (VRef 7) σ (VRef 8)
              mapped.2 (VRef 3) base.2 (VString "greet") named.2 Hcs Hmapped
              Hbase Hfn Hname) as [Hrun Hcall].
  destruct (Hreads 4 σ 7 6 (VRef 0) false (KString "greet") (VRef 7) Hcs
              eq_refl eq_refl) as [Hread _].
  split.
  - refine (eq_trans (Hread (VRef 9) σ3
                        (Some (data (VRef 3) true false true)) σ3 Hrun _) _);
      vm_compute; reflexivity.
  - apply (Hcall 1 σ3 (VRef 7) []); vm_compute; reflexivity.
Defined.

(** Through the proxy over the instance of [Foo], with
    [@TargetAsThis @Mapped(addBang)]: [greet] is found on the copy
    [addBang] made (location 8) and comes back as a function (location 9)
    bound to the instance itself. *)
Lemma TargetAsThis_above_Mapped_witness :
  let σ := ex_proxied [LTargetAsThis; LMapped (VRef 1)] in
  let mapped := i_Call (interp ex_host 2) (VRef 1) VUndefined [VRef 0] σ in
  let base :=
    i_run (interp ex_host 2) CReflect_get VUndefined
      [VRef 8; VString "greet"; VRef 7] mapped.2 in
  let named :=
    GetV (interp ex_host 3) (VRef 3) (KString "name")
      (with_wrappedFunction ex_host (VRef 3) (VRef 7) (VRef 0) base.2) in
  let σ3 :=
    with_wrapper ex_host (VString "greet") (VRef 3) (VRef 7) (VRef 0)
      base.2 named.2 in
  lookup_method (classes ex_state) 1 "get" = Some CReflect_get
  ∧ mapped = (Normal (VRef 8), mapped.2)
  ∧ base = (Normal (VRef 3), base.2)
  ∧ is_callable (heap base.2) (VRef 3) = true
  ∧ named = (Normal (VString "greet"), named.2)
  ∧ i_Get (interp ex_host 5) (VRef 7) (KString "greet") (VRef 7) σ
    = (Normal (VRef 9), σ3)
  ∧ i_Call (interp ex_host 3) (VRef 9) (VRef 7) [] σ3
    = i_Call (interp ex_host 1) (VRef 3) (VRef 0) [] σ3.
Proof.
  intros σ mapped base named σ3.
  assert (Hroot : lookup_method (classes ex_state) 1 "get"
                  = Some CReflect_get)
    by (vm_compute; reflexivity).
  assert (Hmapped : mapped = (Normal (VRef 8), mapped.2))
    by (vm_compute; reflexivity).
  assert (Hbase : base = (Normal (VRef 3), base.2))
    by (vm_compute; reflexivity).
  assert (Hfn : is_callable (heap base.2) (VRef 3) = true)
    by (vm_compute; reflexivity).
  assert (Hname : named = (Normal (VString "greet"), named.2))
    by (vm_compute; reflexivity).
  do 5 (split; [assumption|]).
  destruct (TargetAsThis_above_Mapped ex_host (VRef 1) 1 ex_state
              CReflect_get Hroot)
    as (c & s' & get & Hd & Hg & Hreads & Hlayer).
  destruct (decorated_pin _ _ _ _ Hd) as [[= <-] ->].
  assert (Hcs : classes σ
                = classes
                    (decorated [LTargetAsThis; LMapped (VRef 1)] 1
                       ex_state).2)
    by (vm_compute; reflexivity).
  destruct (Hlayer 2 (VRef 6) (VRef 0) (VString "greet") (VRef 7) σ (VRef 8)
              mapped.2 (VRef 3) base.2 (VString "greet") named.2 Hcs Hmapped
              Hbase Hfn Hname) as [Hrun Hcall].
  destruct (Hreads 4 σ 7 6 (VRef 0) false (KString "greet") (VRef 7) Hcs
              eq_refl eq_refl) as [Hread _].
  split.
  - refine (eq_trans (Hread (VRef 9) σ3
                        (Some (data (VRef 3) true false true)) σ3 Hrun _) _);
      vm_compute; reflexivity.
  - apply (Hcall 1 σ3 (VRef 7) []); vm_compute; reflexivity.
Defined.

(** * Reads the proxy refuses *)



(** The read of the frozen method throws. *)
Example frozen_method_read_throws :
  let σ := (proxy_over [LTargetAsThis] 1 (VRef 6) ex_frozen).2 in
  (GetV (interp ex_host 6) (VRef 8) (KString "greet") σ).1 = Throw TypeError.
Proof. vm_compute. reflexivity. Qed.

(** C8 fails over a target that is an [AllowGetTarget] proxy.  The proxy at
    location 7 exposes the instance of [Foo] (location 0).  A second proxy
    over it, with three layers and no [AllowGetTarget], hands the read of
    the reserved key down to [Reflect.get], which asks the first proxy: the
    answer is the instance of [Foo], not [undefined]. *)
Lemma getTarget_over_an_AllowGetTarget_proxy :
  ¬ getTarget_returns ex_host
      [LDefaultToPrimitive; LDefaultToStringTag; LTargetAsThis] 1 (VRef 7)
      (ex_proxied [LAllowGetTarget]) VUndefined.
Proof.
  intros (proxy & s1 & Hproxy & n & s2 & Hget).
  set (ls := [LDefaultToPrimitive; LDefaultToStringTag; LTargetAsThis])
    in *.
  set (p := proxy_over ls 1 (VRef 7) (ex_proxied [LAllowGetTarget])) in *.
  assert (Hp : p = (Normal (VRef 9), p.2)) by (vm_compute; reflexivity).
  rewrite Hp in Hproxy. injection Hproxy as <- <-.
  set (r := getTarget ex_host 8 (VRef 9) p.2).
  assert (Hr : r = (Normal (VRef 0), r.2)) by (vm_compute; reflexivity).
  by pose proof (getTarget_deterministic _ _ _ _ _ _ _ _ _ Hget Hr).
Qed.

Example getTarget_over_an_AllowGetTarget_proxy_is_its_target :
  getTarget_returns ex_host
    [LDefaultToPrimitive; LDefaultToStringTag; LTargetAsThis] 1 (VRef 7)
    (ex_proxied [LAllowGetTarget]) (VRef 0).
Proof.
  eexists _, _. split; [vm_compute; reflexivity|].
  exists 8. eexists. vm_compute. reflexivity.
Qed.
